(** * Campus search engine: tokenizer, chained hash table, trie, inverted index

    A shallow embedding of the in-memory search core
    ([search_engine.py], [datastructure/hashtable.py],
    [datastructure/trie.py], [datastructure/linkedlist.py]) and the
    properties stated about it.

    Conventions.
    - A Python [str] is a [string]; a character is a code point below 256
      (Latin-1), which is the range [ascii] offers.  [str.lower] and
      [str.strip] are given on that range.
    - Python integers are unbounded: they are [Z].
    - A [dict] is an association list in insertion order (iteration order is
      observable in this program); assignment to an existing key keeps the
      key's position.
    - A [LinkedList] is the list of its node values, head first.
    - The posting lists stored in the hash table are shared mutable objects;
      the engine state carries the store they live in and the table holds
      references into it. *)

From Stdlib Require Import String Ascii ZArith Lia Bool Arith List.
From Stdlib Require Import Permutation Sorted DecimalString.
From Equations Require Import Equations.
Import ListNotations.
Local Open Scope string_scope.
Local Open Scope list_scope.
Local Open Scope Z_scope.

Set Implicit Arguments.

(* ===================================================================== *)
(** * Strings *)

Module Str.

(** [ord(ch)] *)
Definition ord (ch : ascii) : Z := Z.of_N (N_of_ascii ch).

Definition chr (n : Z) : ascii := ascii_of_N (Z.to_N n).

Definition in_range (lo hi : Z) (ch : ascii) : bool :=
  (lo <=? ord ch) && (ord ch <=? hi).

(** [str.lower] on one code point below 256: [A-Z], and the Latin-1
    capitals U+00C0..U+00DE without the multiplication sign U+00D7, move up
    by 32. *)
Definition lower_char (ch : ascii) : ascii :=
  if in_range 65 90 ch then chr (ord ch + 32)
  else if in_range 192 222 ch && negb (ord ch =? 215) then chr (ord ch + 32)
  else ch.

Fixpoint lower (s : string) : string :=
  match s with
  | EmptyString => EmptyString
  | String ch rest => String (lower_char ch) (lower rest)
  end.

(** [str.isspace] on one code point below 256. *)
Definition is_space (ch : ascii) : bool :=
  in_range 9 13 ch || in_range 28 32 ch || (ord ch =? 133) || (ord ch =? 160).

Fixpoint lstrip (s : string) : string :=
  match s with
  | EmptyString => EmptyString
  | String ch rest => if is_space ch then lstrip rest else s
  end.

Fixpoint rstrip (s : string) : string :=
  match s with
  | EmptyString => EmptyString
  | String ch rest =>
      match rstrip rest with
      | EmptyString => if is_space ch then EmptyString else String ch EmptyString
      | r => String ch r
      end
  end.

(** [s.strip()] *)
Definition strip (s : string) : string := rstrip (lstrip s).

(** [s.startswith(p)] *)
Fixpoint startswith (s p : string) {struct p} : bool :=
  match p, s with
  | EmptyString, _ => true
  | String _ _, EmptyString => false
  | String b p', String a s' => Ascii.eqb a b && startswith s' p'
  end.

(** [p in s] *)
Fixpoint contains (s p : string) : bool :=
  startswith s p ||
  match s with
  | EmptyString => false
  | String _ s' => contains s' p
  end.

(** [not s] for a string *)
Definition is_empty (s : string) : bool :=
  match s with EmptyString => true | _ => false end.

(** [s + ch] *)
Definition snoc (s : string) (ch : ascii) : string :=
  String.append s (String ch EmptyString).

Fixpoint all (p : ascii -> bool) (s : string) : bool :=
  match s with
  | EmptyString => true
  | String ch rest => p ch && all p rest
  end.

End Str.

(* ===================================================================== *)
(** * Tokenizer ([search_engine.py]) *)

Definition STOPWORDS : list string :=
  [ "a"; "an"; "and"; "are"; "as"; "at"; "be"; "but"; "by"; "for"; "if";
    "in"; "into"; "is"; "it"; "no"; "not"; "of"; "on"; "or"; "such"; "that";
    "the"; "their"; "then"; "there"; "these"; "they"; "this"; "to"; "was";
    "will"; "with" ].

(** [token in STOPWORDS] *)
Definition in_stopwords (token : string) : bool :=
  existsb (String.eqb token) STOPWORDS.

(** The character class [[a-zA-Z0-9]]. *)
Definition alnum (ch : ascii) : bool :=
  Str.in_range 97 122 ch || Str.in_range 65 90 ch || Str.in_range 48 57 ch.

(** The scanner behind [re.findall(r"[a-zA-Z0-9]+", s)]: [cur] is the match
    in progress; a character outside the class ends it, and so does the end
    of the input.  The pattern is greedy and matches never overlap. *)
Fixpoint findall_from (cur : string) (s : string) : list string :=
  match s with
  | EmptyString => if Str.is_empty cur then [] else [cur]
  | String ch rest =>
      if alnum ch then findall_from (Str.snoc cur ch) rest
      else if Str.is_empty cur then findall_from EmptyString rest
      else cur :: findall_from EmptyString rest
  end.

Definition findall_alnum (s : string) : list string := findall_from EmptyString s.

Definition tokenize (text : string) : list string :=
  let tokens := findall_alnum (Str.lower text) in
  filter (fun token => negb (in_stopwords token)) tokens.

(** The words of the tokenizer's contract: [runs s toks] says that [toks] are
    the maximal runs of class characters of [s], left to right.  A run is
    preceded by separators only, is not empty, and what follows it does not
    start with a class character. *)
Definition starts_with_alnum (s : string) : bool :=
  match s with
  | EmptyString => false
  | String ch _ => alnum ch
  end.

Inductive runs : string -> list string -> Prop :=
| runs_done : forall sep,
    Str.all (fun ch => negb (alnum ch)) sep = true ->
    runs sep []
| runs_next : forall sep tok rest toks,
    Str.all (fun ch => negb (alnum ch)) sep = true ->
    tok <> EmptyString ->
    Str.all alnum tok = true ->
    starts_with_alnum rest = false ->
    runs rest toks ->
    runs (String.append sep (String.append tok rest)) (tok :: toks).

(* ===================================================================== *)
(** * Python containers *)

(** A [dict]: association list in insertion order, keys unique by
    construction ([dict_set] is the only way entries are added). *)
Section Dict.
Variables (K V : Type) (eqb : K -> K -> bool).

Definition dict := list (K * V).

(** [d.get(k)], [None] when absent *)
Fixpoint dict_get (k : K) (d : dict) : option V :=
  match d with
  | [] => None
  | (k', v) :: rest => if eqb k' k then Some v else dict_get k rest
  end.

(** [d.get(k, default)] *)
Definition dict_get_default (k : K) (default : V) (d : dict) : V :=
  match dict_get k d with Some v => v | None => default end.

(** [k in d] *)
Definition dict_mem (k : K) (d : dict) : bool :=
  match dict_get k d with Some _ => true | None => false end.

(** [d[k] = v]: an existing key keeps its place, a new one goes last. *)
Fixpoint dict_set (k : K) (v : V) (d : dict) : dict :=
  match d with
  | [] => [(k, v)]
  | (k', v') :: rest =>
      if eqb k' k then (k', v) :: rest else (k', v') :: dict_set k v rest
  end.

(** The object stored under [k] is changed in place by [f]. *)
Fixpoint dict_update (k : K) (f : V -> V) (d : dict) : dict :=
  match d with
  | [] => []
  | (k', v') :: rest =>
      if eqb k' k then (k', f v') :: rest else (k', v') :: dict_update k f rest
  end.
End Dict.

Section Sequences.
Variable A : Type.

(** [l[:limit]]: a negative bound counts from the end. *)
Definition slice_to (limit : Z) (l : list A) : list A :=
  if 0 <=? limit then firstn (Z.to_nat limit) l
  else firstn (Z.to_nat (Z.of_nat (length l) + limit)) l.

Variable key : A -> Z.

(** [sorted(l, key=key, reverse=True)] and [l.sort(key=key, reverse=True)]:
    Python's sort is stable, also with [reverse=True]; the model is the
    stable insertion sort by decreasing key. *)
Fixpoint insert_desc (x : A) (l : list A) : list A :=
  match l with
  | [] => [x]
  | y :: rest => if key x <? key y then y :: insert_desc x rest else x :: l
  end.

Fixpoint sort_desc (l : list A) : list A :=
  match l with
  | [] => []
  | x :: rest => insert_desc x (sort_desc rest)
  end.

(** In-place assignment to the element at a position. *)
Fixpoint assign_nth (pos : nat) (x : A) (l : list A) : list A :=
  match l, pos with
  | [], _ => []
  | _ :: rest, O => x :: rest
  | y :: rest, S pos' => y :: assign_nth pos' x rest
  end.
End Sequences.

(* ===================================================================== *)
(** * [datastructure/linkedlist.py] *)

Record Posting := { doc_id : Z; term_freq : Z }.

Module LinkedList.
(** A chain is the list of the values of its nodes from [head] on. *)
Abbreviation t := list (only parsing).

Section Defs.
Variable A : Type.

(** [LinkedList()] *)
Definition empty : t A := [].

(** [append]: a new node after the last one. *)
Definition append (self : t A) (value : A) : t A := self ++ [value].

(** [find]: the first node whose value satisfies the predicate, given as
    its position in the chain together with its value. *)
Fixpoint find_from (pos : nat) (predicate : A -> bool) (self : t A) : option (nat * A) :=
  match self with
  | [] => None
  | value :: next =>
      if predicate value then Some (pos, value)
      else find_from (S pos) predicate next
  end.

Definition find (predicate : A -> bool) (self : t A) : option (nat * A) :=
  find_from O predicate self.

(** [node.value = value] for the node at a position. *)
Definition set_node_value (pos : nat) (value : A) (self : t A) : t A :=
  assign_nth pos value self.

Definition items (self : t A) : list A := self.
End Defs.
End LinkedList.

(* ===================================================================== *)
(** * [datastructure/hashtable.py] *)

Module HashTable.
Section Defs.
Variable V : Type.

Record t := mk {
  capacity : Z;
  buckets : list (LinkedList.t (string * V));
  size : Z
}.

(** [HashTable(capacity)] *)
Definition init (capacity : Z) : t :=
  let capacity := Z.max 8 capacity in
  {| capacity := capacity;
     buckets := repeat (LinkedList.empty (string * V)) (Z.to_nat capacity);
     size := 0 |}.

Fixpoint hash_from (cap : Z) (h : Z) (key : string) : Z :=
  match key with
  | EmptyString => h
  | String ch rest => hash_from cap ((h * 31 + Str.ord ch) mod cap) rest
  end.

Definition _hash (self : t) (key : string) : Z :=
  hash_from (capacity self) 0 key.

(** [self.buckets[index]]; the index is a hash, so it is within range
    whenever the table has [capacity] buckets. *)
Definition bucket_at (self : t) (index : Z) : LinkedList.t (string * V) :=
  nth (Z.to_nat index) (buckets self) [].

Definition key_is (key : string) (kv : string * V) : bool :=
  String.eqb (fst kv) key.

(** [self.size / self.capacity > 0.75]; the quotient is compared exactly
    (the float division is exact enough for every capacity below 2^50). *)
Definition overloaded (self : t) : bool :=
  3 * capacity self <? 4 * size self.

(** [_resize], with the method [set] it calls back given as [set]. *)
Definition resize_with (set : t -> string -> V -> option t) (self : t) : option t :=
  let old_buckets := buckets self in
  let capacity := capacity self * 2 in
  let self := {| capacity := capacity;
                 buckets := repeat (LinkedList.empty (string * V)) (Z.to_nat capacity);
                 size := 0 |} in
  fold_left
    (fun acc kv =>
       match acc with
       | Some self => set self (fst kv) (snd kv)
       | None => None
       end)
    (concat (map (@LinkedList.items _) old_buckets))
    (Some self).

(** [set] and [_resize] call each other; [fuel] bounds the depth of that
    recursion and [None] means it was not enough. *)
Fixpoint set_fuel (fuel : nat) (self : t) (key : string) (value : V) : option t :=
  match fuel with
  | O => None
  | S fuel' =>
      let index := _hash self key in
      let bucket := bucket_at self index in
      match LinkedList.find (key_is key) bucket with
      | Some (pos, _) =>
          Some {| capacity := capacity self;
                  buckets := assign_nth (Z.to_nat index)
                               (LinkedList.set_node_value pos (key, value) bucket)
                               (buckets self);
                  size := size self |}
      | None =>
          let self :=
            {| capacity := capacity self;
               buckets := assign_nth (Z.to_nat index)
                            (LinkedList.append bucket (key, value))
                            (buckets self);
               size := size self + 1 |} in
          if overloaded self then resize_with (set_fuel fuel') self
          else Some self
      end
  end.

Definition _resize (fuel : nat) (self : t) : option t :=
  resize_with (set_fuel fuel) self.

(** All (key, value) pairs, bucket by bucket. *)
Definition entries (self : t) : list (string * V) :=
  concat (map (@LinkedList.items _) (buckets self)).

(** [set] with a recursion bound that grows with the table.  A larger bound
    never changes a result ([set_fuel_more]), and a table built by [init]
    and [set] needs two levels only ([set_two_levels]): a resize re-inserts
    into a table that is at most half full. *)
Definition set (self : t) (key : string) (value : V) : option t :=
  set_fuel (2 + length (entries self)) self key value.

Definition get (self : t) (key : string) : option V :=
  let index := _hash self key in
  let bucket := bucket_at self index in
  match LinkedList.find (key_is key) bucket with
  | Some (_, kv) => Some (snd kv)
  | None => None
  end.

(** The value a chain holds for a key: what [get] reads in a bucket. *)
Definition chain_get (key : string) (bucket : LinkedList.t (string * V)) : option V :=
  match LinkedList.find (key_is key) bucket with
  | Some (_, kv) => Some (snd kv)
  | None => None
  end.

(** The two states [set] reaches before it looks at the load: the value
    of the node at [pos] replaced, or a new pair appended and counted. *)
Definition overwritten (self : t) (key : string) (value : V) (pos : nat) : t :=
  let index := _hash self key in
  {| capacity := capacity self;
     buckets := assign_nth (Z.to_nat index)
                  (LinkedList.set_node_value pos (key, value) (bucket_at self index))
                  (buckets self);
     size := size self |}.

Definition appended (self : t) (key : string) (value : V) : t :=
  let index := _hash self key in
  {| capacity := capacity self;
     buckets := assign_nth (Z.to_nat index)
                  (LinkedList.append (bucket_at self index) (key, value))
                  (buckets self);
     size := size self + 1 |}.

(** Structure of a table: as many buckets as the capacity says, every
    pair in the bucket of its hash, no key twice, [size] the number of
    pairs. *)
Record chained (self : t) : Prop := {
  chained_capacity : 8 <= capacity self;
  chained_buckets : length (buckets self) = Z.to_nat (capacity self);
  chained_placed : forall i kv,
      In kv (nth i (buckets self) []) ->
      Z.to_nat (_hash self (fst kv)) = i;
  chained_unique : NoDup (map fst (entries self));
  chained_size : size self = Z.of_nat (length (entries self))
}.

(** Representation invariant of a table built by [init] and [set]: the
    structure, and a load of at most 0.75 between two calls. *)
Definition wf (self : t) : Prop :=
  chained self /\ 4 * size self <= 3 * capacity self.

(** Inserting a sequence of pairs, left to right. *)
Definition set_all (self : t) (kvs : list (string * V)) : option t :=
  fold_left
    (fun acc kv =>
       match acc with
       | Some self => set self (fst kv) (snd kv)
       | None => None
       end)
    kvs (Some self).
End Defs.
End HashTable.

(* ===================================================================== *)
(** * [datastructure/trie.py] *)

Module Trie.

#[local] Unset Elimination Schemes.
Inductive TrieNode : Type :=
| Node (children : dict ascii TrieNode) (is_end : bool) (frequency : Z).
#[local] Set Elimination Schemes.

Definition children (n : TrieNode) : dict ascii TrieNode :=
  match n with Node c _ _ => c end.
Definition is_end (n : TrieNode) : bool :=
  match n with Node _ e _ => e end.
Definition frequency (n : TrieNode) : Z :=
  match n with Node _ _ f => f end.

(** [TrieNode()] *)
Definition new_node : TrieNode := Node [] false 0.

Record t := mk { root : TrieNode }.

(** [Trie()] *)
Definition init : t := {| root := new_node |}.

(** The loop of [insert] from a node on: the child for [ch] is created when
    missing, then the walk goes on in it; the last node is marked. *)
Fixpoint insert_at (word : string) (node : TrieNode) : TrieNode :=
  match word with
  | EmptyString => Node (children node) true (frequency node + 1)
  | String ch rest =>
      let children1 :=
        if dict_mem Ascii.eqb ch (children node) then children node
        else dict_set Ascii.eqb ch new_node (children node) in
      Node (dict_update Ascii.eqb ch (insert_at rest) children1)
           (is_end node) (frequency node)
  end.

Definition insert (self : t) (word : string) : t :=
  {| root := insert_at word (root self) |}.

Fixpoint walk_from (prefix : string) (node : TrieNode) : option TrieNode :=
  match prefix with
  | EmptyString => Some node
  | String ch rest =>
      match dict_get Ascii.eqb ch (children node) with
      | None => None
      | Some child => walk_from rest child
      end
  end.

Definition _walk (self : t) (prefix : string) : option TrieNode :=
  walk_from prefix (root self).

Fixpoint node_size (n : TrieNode) : nat :=
  match n with
  | Node cs _ _ => S (list_sum (map (fun p => node_size (snd p)) cs))
  end.

Definition queue_size (queue : list (TrieNode * string)) : nat :=
  list_sum (map (fun p => node_size (fst p)) queue).

(** What one round of the [while queue] loop appends to the queue. *)
Definition enqueue_children (current : TrieNode) (current_prefix : string)
  : list (TrieNode * string) :=
  map (fun p => (snd p, Str.snoc current_prefix (fst p))) (children current).

(** The [while queue] loop of [autocomplete]. *)
Equations? bfs (queue : list (TrieNode * string)) (results : list (string * Z))
  : list (string * Z) by wf (queue_size queue) lt :=
  bfs [] results := results;
  bfs ((current, current_prefix) :: queue) results :=
    bfs (queue ++ enqueue_children current current_prefix)
        (if is_end current
         then results ++ [(current_prefix, frequency current)]
         else results).
Proof.
  unfold queue_size, enqueue_children.
  rewrite map_app, list_sum_app, map_map. simpl.
  destruct current as [cs e f]. simpl. lia.
Qed.

Definition autocomplete (self : t) (prefix : string) (limit : Z) : list string :=
  match _walk self prefix with
  | None => []
  | Some node =>
      let results := bfs [(node, prefix)] [] in
      let results := sort_desc (@snd string Z) results in
      map fst (slice_to limit results)
  end.

(** The terminal nodes below a node, each with the string that leads to it
    and its frequency (depth first; used to state what the loop collects). *)
Fixpoint terminals (node : TrieNode) (prefix : string) : list (string * Z) :=
  match node with
  | Node cs e f =>
      (if e then [(prefix, f)] else []) ++
      flat_map (fun p => terminals (snd p) (Str.snoc prefix (fst p))) cs
  end.

(** [autocomplete] as the specification words it: the terminal nodes under
    the prefix, each term paired with its frequency, by decreasing
    frequency, at most [limit] of them. *)
Definition autocomplete_paired (self : t) (prefix : string) (limit : Z)
    (result : list (string * Z)) : Prop :=
  match _walk self prefix with
  | None => result = []
  | Some node =>
      exists ranked,
        Permutation ranked (terminals node prefix) /\
        StronglySorted (fun a b => snd a >= snd b) ranked /\
        result = firstn (Z.to_nat limit) ranked
  end.

(** The frequency and the terminal mark at the end of the walk along a
    word; a walk that leaves the trie finds neither. *)
Definition frequency_at (node : TrieNode) (word : string) : Z :=
  match walk_from word node with
  | Some n => frequency n
  | None => 0
  end.

Definition is_end_at (node : TrieNode) (word : string) : bool :=
  match walk_from word node with
  | Some n => is_end n
  | None => false
  end.

End Trie.

(* ===================================================================== *)
(** * [search_engine.py] *)

(** The value stored in [self.documents] for one document. *)
Record DocMeta := {
  meta_title : string;
  meta_filename : string;
  meta_length : string
}.

(** [str(n)] for a count *)
Definition str_of_len (n : nat) : string :=
  NilZero.string_of_uint (Nat.to_uint n).

(** A reference to a [LinkedList] object of the store. *)
Abbreviation ref := nat (only parsing).

Record CampusSearchEngine := {
  inverted_index : HashTable.t ref;
  heap : list (LinkedList.t Posting);
  trie : Trie.t;
  documents : dict Z DocMeta;
  doc_counter : Z
}.

(** [CampusSearchEngine()] *)
Definition init_engine : CampusSearchEngine :=
  {| inverted_index := HashTable.init ref 1024;
     heap := [];
     trie := Trie.init;
     documents := [];
     doc_counter := 0 |}.

(** The object a reference points to. *)
Definition deref (heap : list (LinkedList.t Posting)) (r : ref) : LinkedList.t Posting :=
  nth r heap [].

(** The object behind a reference is changed in place. *)
Fixpoint heap_update (r : ref) (f : LinkedList.t Posting -> LinkedList.t Posting)
    (heap : list (LinkedList.t Posting)) : list (LinkedList.t Posting) :=
  match heap, r with
  | [], _ => []
  | l :: rest, O => f l :: rest
  | l :: rest, S r' => l :: heap_update r' f rest
  end.

(** The first loop of [add_document]: occurrences per term, in the order the
    terms first occur. *)
Definition count_terms (tokens : list string) : dict string Z :=
  fold_left
    (fun term_counts token =>
       dict_set String.eqb token
         (dict_get_default String.eqb token 0 term_counts + 1) term_counts)
    tokens [].

(** The body of the second loop of [add_document] for one [(term, freq)]. *)
Definition index_term (doc_id : Z) (self : CampusSearchEngine)
    (term : string) (freq : Z) : option CampusSearchEngine :=
  let found :=
    match HashTable.get (inverted_index self) term with
    | None =>
        let postings := length (heap self) in
        match HashTable.set (inverted_index self) term postings with
        | Some index => Some (index, heap self ++ [LinkedList.empty Posting], postings)
        | None => None
        end
    | Some postings => Some (inverted_index self, heap self, postings)
    end in
  match found with
  | None => None
  | Some (index, heap, postings) =>
      Some {| inverted_index := index;
              heap := heap_update postings
                        (fun l => LinkedList.append l {| doc_id := doc_id; term_freq := freq |})
                        heap;
              trie := Trie.insert (trie self) term;
              documents := documents self;
              doc_counter := doc_counter self |}
  end.

Definition index_terms (doc_id : Z) (self : CampusSearchEngine)
    (term_counts : dict string Z) : option CampusSearchEngine :=
  fold_left
    (fun acc item =>
       match acc with
       | Some self => index_term doc_id self (fst item) (snd item)
       | None => None
       end)
    term_counts (Some self).

(** [add_document]: the new state and the returned id; [None] only if the
    hash table ran out of recursion depth. *)
Definition add_document (self : CampusSearchEngine) (title content filename : string)
  : option (CampusSearchEngine * Z) :=
  let tokens := tokenize content in
  match tokens with
  | [] => Some (self, -1)
  | _ :: _ =>
      let doc_id := doc_counter self + 1 in
      let self :=
        {| inverted_index := inverted_index self;
           heap := heap self;
           trie := trie self;
           documents :=
             dict_set Z.eqb doc_id
               {| meta_title := title;
                  meta_filename := filename;
                  meta_length := str_of_len (length tokens) |}
               (documents self);
           doc_counter := doc_id |} in
      let term_counts := count_terms tokens in
      match index_terms doc_id self term_counts with
      | Some self => Some (self, doc_id)
      | None => None
      end
  end.

(** The scoring loop over one posting list. *)
Definition add_scores (doc_scores : dict Z Z) (postings : list Posting) : dict Z Z :=
  fold_left
    (fun doc_scores posting =>
       dict_set Z.eqb (doc_id posting)
         (dict_get_default Z.eqb (doc_id posting) 0 doc_scores + term_freq posting)
         doc_scores)
    postings doc_scores.

(** The posting list a term leads to, if any. *)
Definition postings_of (self : CampusSearchEngine) (term : string) : option (list Posting) :=
  match HashTable.get (inverted_index self) term with
  | None => None
  | Some postings => Some (LinkedList.items (deref (heap self) postings))
  end.

Definition candidate_terms (self : CampusSearchEngine) (query_tokens : list string)
    (prefix : bool) : list string :=
  fold_left
    (fun candidate_terms token =>
       if prefix then candidate_terms ++ Trie.autocomplete (trie self) token 25
       else candidate_terms ++ [token])
    query_tokens [].

Definition score_terms (self : CampusSearchEngine) (terms : list string) : dict Z Z :=
  fold_left
    (fun doc_scores term =>
       match postings_of self term with
       | None => doc_scores
       | Some postings => add_scores doc_scores postings
       end)
    terms [].

Definition _search (self : CampusSearchEngine) (query : string) (prefix : bool)
  : list (Z * Z) :=
  let query_tokens := tokenize query in
  match query_tokens with
  | [] => []
  | _ :: _ =>
      let candidate_terms := candidate_terms self query_tokens prefix in
      let doc_scores := score_terms self candidate_terms in
      sort_desc (@snd Z Z) doc_scores
  end.

Definition keyword_search (self : CampusSearchEngine) (query : string) : list (Z * Z) :=
  _search self query false.

Definition prefix_search (self : CampusSearchEngine) (query : string) : list (Z * Z) :=
  _search self query true.

Definition filename_search (self : CampusSearchEngine) (query : string) (prefix : bool)
  : list (Z * Z) :=
  let query_value := Str.lower (Str.strip query) in
  if Str.is_empty query_value then []
  else
    fold_left
      (fun ranked item =>
         let filename := Str.lower (meta_filename (snd item)) in
         if Str.is_empty filename then ranked
         else
           let is_match :=
             if prefix then Str.startswith filename query_value
             else Str.contains filename query_value in
           if is_match then ranked ++ [(fst item, 1)] else ranked)
      (documents self) [].

(** Ingesting a sequence of [(title, content, filename)] from a state on. *)
Definition ingest_from (self : CampusSearchEngine) (docs : list (string * string * string))
  : option CampusSearchEngine :=
  fold_left
    (fun acc doc =>
       match acc with
       | Some self =>
           match add_document self (fst (fst doc)) (snd (fst doc)) (snd doc) with
           | Some (self, _) => Some self
           | None => None
           end
       | None => None
       end)
    docs (Some self).

Definition ingest_all (docs : list (string * string * string)) : option CampusSearchEngine :=
  ingest_from init_engine docs.

(** A duplicate check that computes, for concrete key sequences. *)
Fixpoint distinctb (l : list string) : bool :=
  match l with
  | [] => true
  | x :: rest => negb (existsb (String.eqb x) rest) && distinctb rest
  end.

(** The distinct elements of a sequence, in the order of their first
    occurrence. *)
Section FirstSeen.
Variables (K : Type) (eqb : K -> K -> bool).

Definition memb (k : K) (l : list K) : bool := existsb (eqb k) l.

Fixpoint first_seen (l : list K) : list K :=
  match l with
  | [] => []
  | x :: rest => x :: filter (fun y => negb (eqb x y)) (first_seen rest)
  end.
End FirstSeen.

(** Counting under keys, as the two counting loops of the engine do. *)
Section Weights.
Variables (K : Type) (eqb : K -> K -> bool).

(** One round: [d[k] = d.get(k, 0) + w]. *)
Definition bump (d : dict K Z) (item : K * Z) : dict K Z :=
  dict_set eqb (fst item) (dict_get_default eqb (fst item) 0 d + snd item) d.

(** The sum of the weights a sequence records under a key. *)
Fixpoint weight_of (k : K) (items : list (K * Z)) : Z :=
  match items with
  | [] => 0
  | item :: rest => (if eqb (fst item) k then snd item else 0) + weight_of k rest
  end.
End Weights.

(** The sum of [term_freq] over the postings of one document. *)
Definition posting_weight (d : Z) (postings : list Posting) : Z :=
  weight_of Z.eqb d (map (fun p => (doc_id p, term_freq p)) postings).

(** The postings a term leads to, none when the index does not hold it. *)
Definition postings_list (self : CampusSearchEngine) (term : string) : list Posting :=
  match postings_of self term with
  | Some postings => postings
  | None => []
  end.

(** How often a term occurs in a token sequence. *)
Definition occurrences (term : string) (tokens : list string) : Z :=
  Z.of_nat (count_occ string_dec tokens term).

(** The documents an ingestion sequence adds, as [(id, tokens)]: a document
    without tokens is rejected and takes no id. *)
Fixpoint accepted_from (counter : Z) (docs : list (string * string * string))
  : list (Z * list string) :=
  match docs with
  | [] => []
  | doc :: rest =>
      match tokenize (snd (fst doc)) with
      | [] => accepted_from counter rest
      | tokens => (counter + 1, tokens) :: accepted_from (counter + 1) rest
      end
  end.

(** The postings of a term over a sequence of accepted documents: one per
    document that contains the term, with the number of its occurrences. *)
Definition expected_postings (accepted : list (Z * list string)) (term : string)
  : list Posting :=
  flat_map
    (fun doc =>
       if memb String.eqb term (snd doc)
       then [{| doc_id := fst doc; term_freq := occurrences term (snd doc) |}]
       else [])
    accepted.

(** Invariant of the engine: the table is well formed and its values are
    distinct references to objects of the store. *)
Record engine_ok (self : CampusSearchEngine) : Prop := {
  ok_index : HashTable.wf (inverted_index self);
  ok_refs : forall term r,
      HashTable.get (inverted_index self) term = Some r -> (r < length (heap self))%nat;
  ok_distinct : forall term1 term2 r,
      HashTable.get (inverted_index self) term1 = Some r ->
      HashTable.get (inverted_index self) term2 = Some r -> term1 = term2
}.

(** [filename_search] as the specification words it: the query lowercased
    and trimmed is looked for in the file name as stored. *)
Definition filename_search_stored_name (self : CampusSearchEngine) (query : string)
    (prefix : bool) : list (Z * Z) :=
  let query_value := Str.lower (Str.strip query) in
  if Str.is_empty query_value then []
  else
    map (fun item => (fst item, 1))
      (filter (fun item =>
                 if prefix then Str.startswith (meta_filename (snd item)) query_value
                 else Str.contains (meta_filename (snd item)) query_value)
              (documents self)).

(* ===================================================================== *)
(** * [app.py]: the parts that compute *)

Definition ALLOWED_EXTENSIONS : list string := ["pdf"; "txt"].

(** [s.rsplit(".", 1)] when [s] holds a dot: what is before the last dot and
    what is after it; [None] when there is no dot. *)
Fixpoint rsplit_dot (s : string) : option (string * string) :=
  match s with
  | EmptyString => None
  | String ch rest =>
      match rsplit_dot rest with
      | Some (before, after) => Some (String ch before, after)
      | None => if Ascii.eqb ch "."%char then Some (EmptyString, rest) else None
      end
  end.

(** [allowed_file] *)
Definition allowed_file (filename : string) : bool :=
  if negb (Str.contains filename ".") then false
  else
    match rsplit_dot filename with
    | Some (_, after) =>
        let ext := Str.lower after in
        existsb (String.eqb ext) ALLOWED_EXTENSIONS
    | None => false
    end.

(** [s.split()]: the maximal runs of characters that are not white space. *)
Fixpoint split_from (cur : string) (s : string) : list string :=
  match s with
  | EmptyString => if Str.is_empty cur then [] else [cur]
  | String ch rest =>
      if Str.is_space ch
      then (if Str.is_empty cur then split_from EmptyString rest
            else cur :: split_from EmptyString rest)
      else split_from (Str.snoc cur ch) rest
  end.

Definition split_whitespace (s : string) : list string := split_from EmptyString s.

(** [term, frequency = s] for a string [s]: the two characters of a string of
    length two; any other length raises [ValueError] ([None]). *)
Definition unpack_pair (s : string) : option (string * string) :=
  match s with
  | String a (String b EmptyString) =>
      Some (String a EmptyString, String b EmptyString)
  | _ => None
  end.

(** A list comprehension whose element expression can raise: the first
    failure ends it. *)
Fixpoint comprehension (A B : Type) (f : A -> option B) (l : list A) : option (list B) :=
  match l with
  | [] => Some []
  | x :: rest =>
      match f x with
      | None => None
      | Some y =>
          match comprehension f rest with
          | None => None
          | Some ys => Some (y :: ys)
          end
      end
  end.

(** The body of the route [/autocomplete] for the query parameter [q].
    [route_last_token] is the expression for [last_token], [None] when
    [[-1]] raises [IndexError]; [autocomplete_route] gives the
    [(term, frequency)] entries of the answer, or [None] when the body
    raises (also [ValueError] from the unpacking). *)
Definition route_last_token (query : string) : option string :=
  if Str.is_empty (Str.strip query) then Some EmptyString
  else
    match rev (split_whitespace (Str.strip query)) with
    | [] => None
    | word :: _ => Some (Str.lower word)
    end.

Definition autocomplete_route (self : CampusSearchEngine) (query : string)
  : option (list (string * string)) :=
  if Str.is_empty query then Some []
  else
    match route_last_token query with
    | None => None
    | Some last_token =>
        let suggestions := Trie.autocomplete (trie self) last_token 8 in
        comprehension unpack_pair suggestions
    end.

(** One entry of the result list of the route [/search]. *)
Record SearchResult := {
  result_title : string;
  result_filename : string;
  result_score : Z
}.

(** The body of the route [/search]: which search runs and what is made of
    its ranking. *)
Definition search_route (self : CampusSearchEngine) (query : string)
    (prefix use_filename : bool) : list SearchResult :=
  let ranked :=
    if use_filename then filename_search self query prefix
    else if prefix then prefix_search self query else keyword_search self query in
  fold_left
    (fun results item =>
       match dict_get Z.eqb (fst item) (documents self) with
       | None => results
       | Some meta =>
           results ++ [{| result_title := meta_title meta;
                          result_filename := meta_filename meta;
                          result_score := snd item |}]
       end)
    ranked [].

(* ===================================================================== *)
(** * Notions for the further properties *)

(** Whether a table holds no value for a key. *)
Definition absent (V : Type) (self : HashTable.t V) (key : string) : bool :=
  match HashTable.get self key with Some _ => false | None => true end.

(** The capacity grows by doubling, and only as far as the load demands:
    either it is the first capacity or half of it would be overloaded. *)
Definition grown (V : Type) (first : Z) (self : HashTable.t V) : Prop :=
  exists doublings : nat,
    HashTable.capacity self = first * 2 ^ Z.of_nat doublings /\
    (doublings = O \/ 3 * HashTable.capacity self < 8 * HashTable.size self).

(** The words ingestion inserts in the trie: the distinct tokens of every
    accepted document, document after document. *)
Definition inserted_words (accepted : list (Z * list string)) : list string :=
  flat_map (fun doc => first_seen String.eqb (snd doc)) accepted.

(** A trie built by inserting words one after the other. *)
Definition trie_of (words : list string) : Trie.t :=
  fold_left Trie.insert words Trie.init.

(** Every node of a trie keeps one child per character, as a [dict] does. *)
#[local] Unset Elimination Schemes.
Inductive unique_children : Trie.TrieNode -> Prop :=
| unique_children_node : forall cs e f,
    NoDup (map fst cs) ->
    Forall (fun p => unique_children (snd p)) cs ->
    unique_children (Trie.Node cs e f).
#[local] Set Elimination Schemes.

(** The document table an ingestion sequence builds from a counter on. *)
Fixpoint expected_documents (counter : Z) (docs : list (string * string * string))
  : dict Z DocMeta :=
  match docs with
  | [] => []
  | doc :: rest =>
      match tokenize (snd (fst doc)) with
      | [] => expected_documents counter rest
      | tokens =>
          (counter + 1,
           {| meta_title := fst (fst doc);
              meta_filename := snd doc;
              meta_length := str_of_len (length tokens) |})
          :: expected_documents (counter + 1) rest
      end
  end.

(** The occurrences of all terms of a sequence in a token sequence, a term
    that is repeated counted each time. *)
Definition total_occurrences (terms tokens : list string) : Z :=
  fold_right (fun term sum => occurrences term tokens + sum) 0 terms.

(** The characters [a-z0-9]. *)
Definition lower_alnum (ch : ascii) : bool :=
  Str.in_range 97 122 ch || Str.in_range 48 57 ch.

(* ===================================================================== *)
(** * Properties *)

(** Splits conjunctions only, leaving records alone. *)
Ltac split_and := repeat match goal with |- _ /\ _ => split end.

(** ** Strings *)

Lemma append_empty_r (s : string) : String.append s EmptyString = s.
Proof. induction s as [|c s IH]; simpl; congruence. Qed.

Lemma append_assoc (a b c : string) :
  String.append (String.append a b) c = String.append a (String.append b c).
Proof. induction a as [|x a IH]; simpl; congruence. Qed.

Lemma snoc_append (cur : string) (ch : ascii) (rest : string) :
  String.append (Str.snoc cur ch) rest = String.append cur (String ch rest).
Proof. unfold Str.snoc. rewrite append_assoc. reflexivity. Qed.

Lemma all_append (p : ascii -> bool) (a b : string) :
  Str.all p (String.append a b) = Str.all p a && Str.all p b.
Proof.
  induction a as [|x a IH]; simpl; [reflexivity|].
  rewrite IH. apply andb_assoc.
Qed.

Lemma snoc_not_empty (cur : string) (ch : ascii) : Str.snoc cur ch <> EmptyString.
Proof. destruct cur; discriminate. Qed.

Lemma is_empty_true (s : string) : Str.is_empty s = true <-> s = EmptyString.
Proof. destruct s; simpl; split; congruence. Qed.

(** ** The tokenizer *)

Lemma runs_skip (ch : ascii) (s : string) (toks : list string) :
  alnum ch = false -> runs s toks -> runs (String ch s) toks.
Proof.
  intros Hch H. inversion H as [sep Hsep | sep tok rest toks' Hsep Hne Htok Hrest Hruns]; subst.
  - apply runs_done. simpl. rewrite Hch. exact Hsep.
  - change (String ch (String.append sep (String.append tok rest)))
      with (String.append (String ch sep) (String.append tok rest)).
    apply runs_next; auto. simpl. rewrite Hch. exact Hsep.
Qed.

(** The scanner yields the maximal runs, whatever match is in progress. *)
Lemma findall_from_runs (s : string) :
  runs s (findall_from EmptyString s) /\
  forall cur, cur <> EmptyString -> Str.all alnum cur = true ->
    exists run rest toks,
      s = String.append run rest /\
      Str.all alnum run = true /\
      starts_with_alnum rest = false /\
      runs rest toks /\
      findall_from cur s = String.append cur run :: toks.
Proof.
  induction s as [|ch s [IH0 IH1]].
  - split.
    + apply runs_done. reflexivity.
    + intros cur Hne Hcur. exists EmptyString, EmptyString, [].
      simpl. rewrite append_empty_r.
      destruct cur; [contradiction|].
      repeat split; auto. apply runs_done. reflexivity.
  - split.
    + simpl. destruct (alnum ch) eqn:Hch.
      * destruct (IH1 (Str.snoc EmptyString ch)) as (run & rest & toks & Hs & Hrun & Hrest & Hruns & Hfind).
        { apply snoc_not_empty. }
        { simpl. rewrite Hch. reflexivity. }
        rewrite Hfind. subst s.
        change (String ch (String.append run rest))
          with (String.append EmptyString (String.append (String ch run) rest)).
        apply runs_next; auto; try discriminate.
        simpl. rewrite Hch. exact Hrun.
      * apply runs_skip; assumption.
    + intros cur Hne Hcur. simpl. destruct (alnum ch) eqn:Hch.
      * destruct (IH1 (Str.snoc cur ch)) as (run & rest & toks & Hs & Hrun & Hrest & Hruns & Hfind).
        { apply snoc_not_empty. }
        { unfold Str.snoc. rewrite all_append, Hcur. simpl. rewrite Hch. reflexivity. }
        exists (String ch run), rest, toks. subst s.
        rewrite Hfind, snoc_append. simpl. rewrite Hch.
        repeat split; auto.
      * exists EmptyString, (String ch s), (findall_from EmptyString s).
        destruct (Str.is_empty cur) eqn:He.
        { apply is_empty_true in He. contradiction. }
        rewrite append_empty_r. simpl. rewrite Hch.
        repeat split; auto. apply runs_skip; assumption.
Qed.

(** The decomposition of a string into separators, a run and the rest is
    determined by the string. *)
Lemma run_split_unique (tok tok' rest rest' : string) :
  Str.all alnum tok = true -> Str.all alnum tok' = true ->
  starts_with_alnum rest = false -> starts_with_alnum rest' = false ->
  String.append tok rest = String.append tok' rest' ->
  tok = tok' /\ rest = rest'.
Proof.
  revert tok'. induction tok as [|c tok IH]; intros tok' Ht Ht' Hr Hr' E.
  - destruct tok' as [|c' tok']; [auto|].
    simpl in *. subst rest. simpl in Hr.
    apply andb_true_iff in Ht'. destruct Ht' as [Hc _]. congruence.
  - destruct tok' as [|c' tok'].
    + simpl in *. subst rest'. simpl in Hr'.
      apply andb_true_iff in Ht. destruct Ht as [Hc _]. congruence.
    + simpl in *. injection E as -> E.
      apply andb_true_iff in Ht, Ht'.
      destruct (IH tok') as [-> ->]; tauto.
Qed.

Lemma sep_split_unique (sep sep' body body' : string) :
  Str.all (fun ch => negb (alnum ch)) sep = true ->
  Str.all (fun ch => negb (alnum ch)) sep' = true ->
  starts_with_alnum body = true -> starts_with_alnum body' = true ->
  String.append sep body = String.append sep' body' ->
  sep = sep' /\ body = body'.
Proof.
  revert sep'. induction sep as [|c sep IH]; intros sep' Hs Hs' Hb Hb' E.
  - destruct sep' as [|c' sep']; [auto|].
    simpl in *. subst body. simpl in Hb.
    apply andb_true_iff in Hs'. destruct Hs' as [Hc _].
    rewrite Hb in Hc. discriminate.
  - destruct sep' as [|c' sep'].
    + simpl in *. subst body'. simpl in Hb'.
      apply andb_true_iff in Hs. destruct Hs as [Hc _].
      rewrite Hb' in Hc. discriminate.
    + simpl in *. injection E as -> E.
      apply andb_true_iff in Hs, Hs'.
      destruct (IH sep') as [-> ->]; tauto.
Qed.

Lemma starts_with_alnum_run (tok rest : string) :
  tok <> EmptyString -> Str.all alnum tok = true ->
  starts_with_alnum (String.append tok rest) = true.
Proof.
  destruct tok as [|c tok]; [contradiction|]. simpl.
  intros _ H. apply andb_true_iff in H. tauto.
Qed.

Lemma all_sep_no_run (sep sep' tok rest : string) :
  Str.all (fun ch => negb (alnum ch)) sep = true ->
  Str.all (fun ch => negb (alnum ch)) sep' = true ->
  tok <> EmptyString -> Str.all alnum tok = true ->
  sep = String.append sep' (String.append tok rest) -> False.
Proof.
  intros Hs Hs' Hne Ht E. subst sep.
  rewrite all_append in Hs. apply andb_true_iff in Hs. destruct Hs as [_ Hs].
  destruct tok as [|c tok]; [contradiction|]. simpl in *.
  apply andb_true_iff in Ht. destruct Ht as [Hc _].
  rewrite Hc in Hs. discriminate.
Qed.

(** [runs] is a function of the string. *)
Lemma runs_functional (s : string) (l1 l2 : list string) :
  runs s l1 -> runs s l2 -> l1 = l2.
Proof.
  intros H1. revert l2.
  induction H1 as [sep Hsep | sep tok rest toks Hsep Hne Htok Hrest Hruns IH]; intros l2 H2.
  - inversion H2 as [sep' Hsep' | sep' tok' rest' toks' Hsep' Hne' Htok' Hrest' Hruns']; subst.
    + reflexivity.
    + exfalso. eapply all_sep_no_run; [exact Hsep | exact Hsep' | exact Hne' | exact Htok' | reflexivity].
  - remember (String.append sep (String.append tok rest)) as s eqn:Es.
    inversion H2 as [sep' Hsep' | sep' tok' rest' toks' Hsep' Hne' Htok' Hrest' Hruns']; subst.
    + exfalso. eapply all_sep_no_run; [exact Hsep' | exact Hsep | exact Hne | exact Htok | reflexivity].
    + destruct (sep_split_unique sep' sep (String.append tok' rest') (String.append tok rest))
        as [-> E]; auto using starts_with_alnum_run.
      destruct (run_split_unique tok' tok rest' rest) as [-> ->]; auto.
      f_equal. apply IH. assumption.
Qed.

Lemma in_stopwords_In (token : string) :
  in_stopwords token = true <-> In token STOPWORDS.
Proof.
  unfold in_stopwords. rewrite existsb_exists. split.
  - intros (x & Hin & Heq). apply String.eqb_eq in Heq. subst. assumption.
  - intros Hin. exists token. split; [assumption | apply String.eqb_refl].
Qed.

(** C8.  [tokenize] returns the maximal runs of ASCII letters and digits of
    the lowercased input, in order, without the stopwords: the runs exist,
    they are the only sequence of maximal runs of the lowercased text, and
    the result keeps exactly those outside [STOPWORDS].  Empty input gives
    the empty sequence, and the sentence of the specification gives
    quick, fox, lazy, dog. *)
Theorem tokenize_maximal_runs_without_stopwords :
  (forall text : string,
      exists candidates : list string,
        runs (Str.lower text) candidates /\
        (forall other, runs (Str.lower text) other -> other = candidates) /\
        tokenize text =
          filter (fun token => if in_dec string_dec token STOPWORDS then false else true)
                 candidates) /\
  tokenize "" = [] /\
  tokenize "the quick fox and the lazy dog" = ["quick"; "fox"; "lazy"; "dog"].
Proof.
  split; [|split; reflexivity].
  intros text. exists (findall_alnum (Str.lower text)).
  destruct (findall_from_runs (Str.lower text)) as [Hruns _].
  split; [exact Hruns|]. split.
  - intros other Hother. eapply runs_functional; eauto.
  - unfold tokenize. apply filter_ext. intros token.
    destruct (in_dec string_dec token STOPWORDS) as [Hin|Hin].
    + apply in_stopwords_In in Hin. rewrite Hin. reflexivity.
    + destruct (in_stopwords token) eqn:E; [|reflexivity].
      apply in_stopwords_In in E. contradiction.
Qed.

(** ** Lists and chains *)

Section ListFacts.
Variable A : Type.

Lemma assign_nth_length (pos : nat) (x : A) (l : list A) :
  length (assign_nth pos x l) = length l.
Proof.
  revert pos. induction l as [|y l IH]; intros [|pos]; simpl; auto.
Qed.

Lemma nth_assign_nth_eq (pos : nat) (x d : A) (l : list A) :
  (pos < length l)%nat -> nth pos (assign_nth pos x l) d = x.
Proof.
  revert pos. induction l as [|y l IH]; intros [|pos] H; simpl in *; try lia; auto.
  apply IH. lia.
Qed.

Lemma nth_assign_nth_ne (pos j : nat) (x d : A) (l : list A) :
  pos <> j -> nth j (assign_nth pos x l) d = nth j l d.
Proof.
  revert pos j. induction l as [|y l IH]; intros [|pos] [|j] H; simpl; auto; try lia.
Qed.

Lemma assign_nth_middle (l1 l2 : list A) (x y : A) :
  assign_nth (length l1) y (l1 ++ x :: l2) = l1 ++ y :: l2.
Proof. induction l1 as [|z l1 IH]; simpl; congruence. Qed.

Lemma find_from_some (p : A -> bool) (l : list A) :
  forall q pos x,
    LinkedList.find_from q p l = Some (pos, x) ->
    exists l1 l2,
      l = l1 ++ x :: l2 /\ pos = (q + length l1)%nat /\ p x = true /\
      (forall y, In y l1 -> p y = false).
Proof.
  induction l as [|z l IH]; intros q pos x H; simpl in H; [discriminate|].
  destruct (p z) eqn:Hz.
  - injection H as <- <-. exists [], l. simpl.
    repeat split; auto; try lia; intros y [].
  - destruct (IH _ _ _ H) as (l1 & l2 & -> & -> & Hx & Hl1).
    exists (z :: l1), l2. simpl. repeat split; auto; try lia.
    intros y [<- | Hy]; auto.
Qed.

Lemma find_from_none (p : A -> bool) (l : list A) :
  forall q, LinkedList.find_from q p l = None -> forall y, In y l -> p y = false.
Proof.
  induction l as [|z l IH]; intros q H y Hy; simpl in *; [contradiction|].
  destruct (p z) eqn:Hz; [discriminate|].
  destruct Hy as [<- | Hy]; eauto.
Qed.

Lemma find_from_value (p : A -> bool) (l : list A) :
  forall q, option_map snd (LinkedList.find_from q p l)
            = option_map snd (LinkedList.find_from O p l).
Proof.
  induction l as [|z l IH]; intros q; simpl; [reflexivity|].
  destruct (p z); [reflexivity|].
  rewrite (IH (S q)), (IH 1%nat). reflexivity.
Qed.

(** The pairs of all buckets, with one bucket singled out. *)
Lemma concat_split_nth (bs : list (list A)) (i : nat) :
  (i < length bs)%nat ->
  exists before after,
    concat bs = before ++ nth i bs [] ++ after /\
    forall b, concat (assign_nth i b bs) = before ++ b ++ after.
Proof.
  revert i. induction bs as [|b0 bs IH]; intros [|i] H; simpl in *; try lia.
  - exists [], (concat bs). split; reflexivity.
  - destruct (IH i) as (before & after & E1 & E2); [lia|].
    exists (b0 ++ before), after. split.
    + rewrite E1, app_assoc. reflexivity.
    + intros b. rewrite E2, app_assoc. reflexivity.
Qed.

Lemma in_concat_nth (bs : list (list A)) (x : A) :
  In x (concat bs) <-> exists i, In x (nth i bs []).
Proof.
  rewrite in_concat. split.
  - intros (b & Hb & Hx). destruct (In_nth _ _ [] Hb) as (i & _ & E).
    exists i. rewrite E. assumption.
  - intros (i & Hx). destruct (Nat.lt_ge_cases i (length bs)) as [Hi|Hi].
    + exists (nth i bs []). split; [apply nth_In; assumption | assumption].
    + rewrite nth_overflow in Hx by assumption. contradiction.
Qed.

Lemma concat_repeat_nil (n : nat) : concat (repeat (@nil A) n) = [].
Proof. induction n; simpl; auto. Qed.

Lemma nth_repeat_nil (n i : nat) : nth i (repeat (@nil A) n) [] = [].
Proof.
  revert i. induction n as [|n IH]; intros [|i]; simpl; auto.
Qed.
End ListFacts.

(** ** The hash table *)

Section HashTableFacts.
Variable V : Type.
Implicit Types (self u : HashTable.t V) (key : string) (value : V).
Implicit Types (bucket b : LinkedList.t (string * V)).

Lemma chain_get_cons key k v bucket :
  HashTable.chain_get key ((k, v) :: bucket)
  = if String.eqb k key then Some v else HashTable.chain_get key bucket.
Proof.
  unfold HashTable.chain_get, LinkedList.find. simpl.
  unfold HashTable.key_is at 1. simpl.
  destruct (String.eqb k key); [reflexivity|].
  pose proof (find_from_value (HashTable.key_is key) bucket 1) as H.
  destruct (LinkedList.find_from 1 _ bucket) as [[? ?]|],
           (LinkedList.find_from 0 _ bucket) as [[? ?]|];
    simpl in H; congruence.
Qed.

Lemma chain_get_app key b1 b2 :
  HashTable.chain_get key (b1 ++ b2)
  = match HashTable.chain_get key b1 with
    | Some v => Some v
    | None => HashTable.chain_get key b2
    end.
Proof.
  induction b1 as [|[k v] b1 IH]; [reflexivity|].
  simpl. rewrite !chain_get_cons. destruct (String.eqb k key); auto.
Qed.

Lemma chain_get_none key bucket :
  HashTable.chain_get key bucket = None <-> ~ In key (map fst bucket).
Proof.
  induction bucket as [|[k v] bucket IH]; simpl.
  - split; auto.
  - rewrite chain_get_cons. destruct (String.eqb_spec k key) as [->|Hne].
    + split; [discriminate | intros H; exfalso; auto].
    + rewrite IH. tauto.
Qed.

Lemma chain_get_in key v bucket :
  HashTable.chain_get key bucket = Some v -> In (key, v) bucket.
Proof.
  induction bucket as [|[k v'] bucket IH]; [discriminate|].
  rewrite chain_get_cons. destruct (String.eqb_spec k key) as [->|Hne].
  - intros [= ->]. left. reflexivity.
  - intros H. right. auto.
Qed.

Lemma chain_get_unique key v bucket :
  NoDup (map fst bucket) -> In (key, v) bucket ->
  HashTable.chain_get key bucket = Some v.
Proof.
  induction bucket as [|[k v'] bucket IH]; simpl; [contradiction|].
  intros Hnd Hin. inversion Hnd as [|? ? Hk Hnd']; subst.
  rewrite chain_get_cons. destruct Hin as [[= -> ->] | Hin].
  - rewrite String.eqb_refl. reflexivity.
  - destruct (String.eqb_spec k key) as [->|Hne]; auto.
    exfalso. apply Hk. change key with (fst (key, v)). apply in_map. assumption.
Qed.

Lemma get_chain self key :
  HashTable.get self key
  = HashTable.chain_get key (HashTable.bucket_at self (HashTable._hash self key)).
Proof. reflexivity. Qed.

Lemma hash_from_range (cap : Z) key :
  0 < cap -> forall h, 0 <= h < cap -> 0 <= HashTable.hash_from cap h key < cap.
Proof.
  intros Hcap. induction key as [|ch key IH]; intros h Hh; simpl; [assumption|].
  apply IH. apply Z.mod_pos_bound. assumption.
Qed.

Lemma hash_index self key :
  HashTable.chained self ->
  (Z.to_nat (HashTable._hash self key) < length (HashTable.buckets self))%nat.
Proof.
  intros [Hcap Hlen _ _ _]. rewrite Hlen.
  pose proof (@hash_from_range (HashTable.capacity self) key ltac:(lia) 0 ltac:(lia)) as H.
  unfold HashTable._hash. lia.
Qed.

(** Under the invariant, [get] reads the pairs of the whole table. *)
Lemma get_entries self key :
  HashTable.chained self ->
  HashTable.get self key = HashTable.chain_get key (HashTable.entries self).
Proof.
  intros Hc. rewrite get_chain.
  destruct (HashTable.chain_get key (HashTable.bucket_at self _)) as [v|] eqn:E.
  - symmetry. apply chain_get_unique; [apply Hc|].
    apply chain_get_in in E. unfold HashTable.entries, LinkedList.items.
    rewrite map_id. apply in_concat_nth. eexists. exact E.
  - symmetry. apply chain_get_none. intros Hin.
    apply in_map_iff in Hin. destruct Hin as ([k v] & Hk & Hin). simpl in Hk. subst k.
    unfold HashTable.entries, LinkedList.items in Hin. rewrite map_id in Hin.
    apply in_concat_nth in Hin. destruct Hin as (i & Hin).
    pose proof (HashTable.chained_placed Hc _ _ Hin) as Hi. simpl in Hi. subst i.
    apply chain_get_none in E. apply E.
    change key with (fst (key, v)). apply in_map. exact Hin.
Qed.

Lemma chained_init (capacity : Z) : HashTable.chained (HashTable.init V capacity).
Proof.
  unfold HashTable.init. constructor; simpl.
  - lia.
  - apply repeat_length.
  - intros i kv H. unfold LinkedList.empty in H. rewrite nth_repeat_nil in H. contradiction.
  - unfold HashTable.entries, LinkedList.items, LinkedList.empty. simpl.
    rewrite map_id, concat_repeat_nil. constructor.
  - unfold HashTable.entries, LinkedList.items, LinkedList.empty. simpl.
    rewrite map_id, concat_repeat_nil. reflexivity.
Qed.

Lemma get_init (capacity : Z) key : HashTable.get (HashTable.init V capacity) key = None.
Proof.
  rewrite get_entries by apply chained_init.
  unfold HashTable.init, HashTable.entries, LinkedList.items, LinkedList.empty. simpl.
  rewrite map_id, concat_repeat_nil. reflexivity.
Qed.

Lemma entries_concat self : HashTable.entries self = concat (HashTable.buckets self).
Proof. unfold HashTable.entries, LinkedList.items. rewrite map_id. reflexivity. Qed.

Lemma get_none_fresh self key :
  HashTable.chained self -> HashTable.get self key = None ->
  ~ In key (map fst (HashTable.entries self)).
Proof.
  intros Hc Hg. rewrite get_entries in Hg by assumption.
  apply chain_get_none. assumption.
Qed.

(** [set] on a key the table does not hold, before the load is looked at. *)
Lemma appended_spec self key value :
  HashTable.chained self -> HashTable.get self key = None ->
  HashTable.chained (HashTable.appended self key value) /\
  Permutation ((key, value) :: HashTable.entries self)
              (HashTable.entries (HashTable.appended self key value)) /\
  HashTable.get (HashTable.appended self key value) key = Some value /\
  (forall k, k <> key ->
     HashTable.get (HashTable.appended self key value) k = HashTable.get self k).
Proof.
  intros Hc Hg.
  pose proof (hash_index key Hc) as Hi.
  rewrite get_chain in Hg.
  unfold HashTable.appended, HashTable.bucket_at in *.
  remember (Z.to_nat (HashTable._hash self key)) as i eqn:Ei.
  remember (nth i (HashTable.buckets self) []) as b eqn:Eb.
  destruct (concat_split_nth (HashTable.buckets self) Hi) as (before & after & E1 & E2).
  rewrite <- Eb in E1.
  match goal with |- HashTable.chained ?t /\ _ => set (self' := t) end.
  assert (Hhash : forall k, HashTable._hash self' k = HashTable._hash self k)
    by reflexivity.
  assert (Hperm : Permutation ((key, value) :: HashTable.entries self)
                    (HashTable.entries self')).
  { rewrite !entries_concat. unfold self'. simpl.
    rewrite E1, E2. unfold LinkedList.append.
    rewrite <- !app_assoc. simpl.
    rewrite Permutation_middle. apply Permutation_app_head.
    rewrite Permutation_middle. apply Permutation_app_head. reflexivity. }
  assert (Hget : forall k,
             HashTable.get self' k
             = if String.eqb key k then Some value else HashTable.get self k).
  { intros k. rewrite !get_chain. unfold HashTable.bucket_at. rewrite Hhash.
    unfold self' at 1. simpl.
    destruct (Nat.eq_dec i (Z.to_nat (HashTable._hash self k))) as [Ek|Ek].
    - rewrite <- Ek. rewrite nth_assign_nth_eq by assumption.
      unfold LinkedList.append. rewrite chain_get_app, <- Eb.
      destruct (String.eqb_spec key k) as [->|Hne].
      + rewrite Hg. rewrite chain_get_cons, String.eqb_refl. reflexivity.
      + destruct (HashTable.chain_get k b); [reflexivity|].
        rewrite chain_get_cons. apply String.eqb_neq in Hne. rewrite Hne. reflexivity.
    - rewrite nth_assign_nth_ne by assumption.
      destruct (String.eqb_spec key k) as [->|Hne]; [contradiction | reflexivity]. }
  split; [|split; [exact Hperm|split]].
  - constructor.
    + apply Hc.
    + unfold self'. simpl. rewrite assign_nth_length. apply Hc.
    + intros j kv Hin. rewrite Hhash. unfold self' in Hin. simpl in Hin.
      destruct (Nat.eq_dec i j) as [<-|Hne].
      * rewrite nth_assign_nth_eq in Hin by assumption.
        unfold LinkedList.append in Hin. apply in_app_iff in Hin.
        destruct Hin as [Hin | [<- | []]].
        -- rewrite Eb in Hin. apply (HashTable.chained_placed Hc _ _ Hin).
        -- simpl. symmetry. assumption.
      * rewrite nth_assign_nth_ne in Hin by assumption.
        apply (HashTable.chained_placed Hc _ _ Hin).
    + eapply Permutation_NoDup; [apply Permutation_map; exact Hperm|].
      simpl. constructor; [|apply Hc].
      apply get_none_fresh; [assumption|].
      rewrite get_chain. unfold HashTable.bucket_at. rewrite <- Ei, <- Eb. assumption.
    + rewrite <- (Permutation_length Hperm). unfold self'. simpl.
      rewrite (HashTable.chained_size Hc). lia.
  - rewrite Hget, String.eqb_refl. reflexivity.
  - intros k Hne. rewrite Hget. apply not_eq_sym, String.eqb_neq in Hne.
    rewrite Hne. reflexivity.
Qed.

(** [set] on a key the table holds: the node found gets the new pair. *)
Lemma overwritten_spec self key value pos kv0 :
  HashTable.chained self ->
  LinkedList.find (HashTable.key_is key)
    (HashTable.bucket_at self (HashTable._hash self key)) = Some (pos, kv0) ->
  HashTable.chained (HashTable.overwritten self key value pos) /\
  map fst (HashTable.entries (HashTable.overwritten self key value pos))
    = map fst (HashTable.entries self) /\
  HashTable.get (HashTable.overwritten self key value pos) key = Some value /\
  (forall k, k <> key ->
     HashTable.get (HashTable.overwritten self key value pos) k = HashTable.get self k).
Proof.
  intros Hc Hfind.
  pose proof (hash_index key Hc) as Hi.
  unfold HashTable.overwritten, HashTable.bucket_at in *.
  remember (Z.to_nat (HashTable._hash self key)) as i eqn:Ei.
  remember (nth i (HashTable.buckets self) []) as b eqn:Eb.
  destruct (concat_split_nth (HashTable.buckets self) Hi) as (before & after & E1 & E2).
  rewrite <- Eb in E1.
  destruct (find_from_some _ _ _ Hfind) as (l1 & l2 & Eb' & Epos & Hkv0 & Hl1).
  simpl in Epos. subst pos.
  unfold LinkedList.set_node_value. rewrite Eb', assign_nth_middle.
  destruct kv0 as [k0 v0]. unfold HashTable.key_is in Hkv0. simpl in Hkv0.
  apply String.eqb_eq in Hkv0. subst k0.
  assert (Hl1' : HashTable.chain_get key l1 = None).
  { apply chain_get_none. intros Hin. apply in_map_iff in Hin.
    destruct Hin as (y & Hy & Hin). apply Hl1 in Hin.
    unfold HashTable.key_is in Hin. rewrite Hy, String.eqb_refl in Hin. discriminate. }
  match goal with |- HashTable.chained ?t /\ _ => set (self' := t) end.
  assert (Hhash : forall k, HashTable._hash self' k = HashTable._hash self k)
    by reflexivity.
  assert (Hkeys : map fst (HashTable.entries self') = map fst (HashTable.entries self)).
  { rewrite !entries_concat. unfold self'. simpl. rewrite E1, E2, Eb'.
    rewrite !map_app. simpl. reflexivity. }
  assert (Hget : forall k,
             HashTable.get self' k
             = if String.eqb key k then Some value else HashTable.get self k).
  { intros k. rewrite !get_chain. unfold HashTable.bucket_at. rewrite Hhash.
    unfold self' at 1. simpl.
    destruct (Nat.eq_dec i (Z.to_nat (HashTable._hash self k))) as [Ek|Ek].
    - rewrite <- Ek. rewrite nth_assign_nth_eq by assumption.
      rewrite <- Eb, Eb'. rewrite !chain_get_app, !chain_get_cons.
      destruct (String.eqb_spec key k) as [->|Hne].
      + rewrite Hl1'. reflexivity.
      + reflexivity.
    - rewrite nth_assign_nth_ne by assumption.
      destruct (String.eqb_spec key k) as [->|Hne]; [contradiction | reflexivity]. }
  split; [|split; [exact Hkeys|split]].
  - constructor.
    + apply Hc.
    + unfold self'. simpl. rewrite assign_nth_length. apply Hc.
    + intros j kv Hin. rewrite Hhash. unfold self' in Hin. simpl in Hin.
      destruct (Nat.eq_dec i j) as [<-|Hne].
      * rewrite nth_assign_nth_eq in Hin by assumption.
        apply in_app_iff in Hin. destruct Hin as [Hin | [<- | Hin]].
        -- apply (HashTable.chained_placed Hc i kv). rewrite <- Eb, Eb'.
           apply in_app_iff. left. assumption.
        -- simpl. symmetry. assumption.
        -- apply (HashTable.chained_placed Hc i kv). rewrite <- Eb, Eb'.
           apply in_app_iff. right. right. assumption.
      * rewrite nth_assign_nth_ne in Hin by assumption.
        apply (HashTable.chained_placed Hc _ _ Hin).
    + rewrite Hkeys. apply Hc.
    + unfold self' at 1. simpl. rewrite (HashTable.chained_size Hc).
      rewrite <- (length_map fst (HashTable.entries self')), Hkeys, length_map.
      reflexivity.
  - rewrite Hget, String.eqb_refl. reflexivity.
  - intros k Hne. rewrite Hget. apply not_eq_sym, String.eqb_neq in Hne.
    rewrite Hne. reflexivity.
Qed.

(** The table [_resize] starts from. *)
Lemma chained_fresh (cap : Z) :
  8 <= cap ->
  HashTable.chained
    {| HashTable.capacity := cap;
       HashTable.buckets := repeat (LinkedList.empty (string * V)) (Z.to_nat cap);
       HashTable.size := 0 |}.
Proof.
  intros Hcap. constructor; simpl.
  - assumption.
  - apply repeat_length.
  - intros i kv H. unfold LinkedList.empty in H. rewrite nth_repeat_nil in H. contradiction.
  - rewrite entries_concat. simpl. unfold LinkedList.empty.
    rewrite concat_repeat_nil. constructor.
  - rewrite entries_concat. simpl. unfold LinkedList.empty.
    rewrite concat_repeat_nil. reflexivity.
Qed.

Lemma get_fresh (cap : Z) key :
  8 <= cap ->
  HashTable.get
    {| HashTable.capacity := cap;
       HashTable.buckets := repeat (LinkedList.empty (string * V)) (Z.to_nat cap);
       HashTable.size := 0 |} key = None.
Proof.
  intros Hcap. rewrite get_entries by (apply chained_fresh; assumption).
  rewrite entries_concat. simpl. unfold LinkedList.empty.
  rewrite concat_repeat_nil. reflexivity.
Qed.

Lemma set_fuel_unfold fuel self key value :
  HashTable.set_fuel (S fuel) self key value
  = match LinkedList.find (HashTable.key_is key)
            (HashTable.bucket_at self (HashTable._hash self key)) with
    | Some (pos, _) => Some (HashTable.overwritten self key value pos)
    | None =>
        if HashTable.overloaded (HashTable.appended self key value)
        then HashTable.resize_with (HashTable.set_fuel fuel)
               (HashTable.appended self key value)
        else Some (HashTable.appended self key value)
    end.
Proof. reflexivity. Qed.

Lemma get_none_find self key :
  HashTable.get self key = None ->
  LinkedList.find (HashTable.key_is key)
    (HashTable.bucket_at self (HashTable._hash self key)) = None.
Proof.
  unfold HashTable.get.
  destruct (LinkedList.find _ _) as [[pos kv]|]; [discriminate | reflexivity].
Qed.

Lemma get_some_find self key v :
  HashTable.get self key = Some v ->
  exists pos kv,
    LinkedList.find (HashTable.key_is key)
      (HashTable.bucket_at self (HashTable._hash self key)) = Some (pos, kv).
Proof.
  unfold HashTable.get.
  destruct (LinkedList.find _ _) as [[pos kv]|]; [eauto | discriminate].
Qed.

(** Re-inserting pairs with fresh, distinct keys into a table that has room
    for all of them: no resize happens, one level of recursion is enough. *)
Lemma reinsert_spec fuel (kvs : list (string * V)) :
  forall u,
    HashTable.chained u ->
    NoDup (map fst kvs) ->
    (forall k, In k (map fst kvs) -> HashTable.get u k = None) ->
    4 * (HashTable.size u + Z.of_nat (length kvs)) <= 3 * HashTable.capacity u ->
    exists u',
      fold_left
        (fun acc kv =>
           match acc with
           | Some self => HashTable.set_fuel (S fuel) self (fst kv) (snd kv)
           | None => None
           end) kvs (Some u) = Some u' /\
      HashTable.chained u' /\
      HashTable.capacity u' = HashTable.capacity u /\
      HashTable.size u' = HashTable.size u + Z.of_nat (length kvs) /\
      forall k, HashTable.get u' k
                = match HashTable.chain_get k kvs with
                  | Some v => Some v
                  | None => HashTable.get u k
                  end.
Proof.
  induction kvs as [|[k v] kvs IH]; intros u Hc Hnd Hfresh Hroom.
  - exists u. simpl. split_and; auto; lia.
  - simpl in Hnd. inversion Hnd as [|? ? Hk Hnd']; subst.
    assert (Hgk : HashTable.get u k = None) by (apply Hfresh; left; reflexivity).
    destruct (appended_spec k v Hc Hgk) as (Hc1 & _ & Hg1 & Hg1').
    cbn [fold_left fst snd]. rewrite set_fuel_unfold, (get_none_find _ _ Hgk).
    assert (Hover : HashTable.overloaded (HashTable.appended u k v) = false).
    { unfold HashTable.overloaded, HashTable.appended.
      cbn [HashTable.capacity HashTable.size].
      apply Z.ltb_ge. cbn [length] in Hroom. lia. }
    rewrite Hover.
    destruct (IH (HashTable.appended u k v)) as (u' & Hfold & Hc' & Hcap & Hsize & Hget); auto.
    + intros k' Hk'. rewrite Hg1'.
      * apply Hfresh. right. assumption.
      * intros ->. contradiction.
    + unfold HashTable.appended. cbn [HashTable.capacity HashTable.size].
      cbn [length] in Hroom. lia.
    + exists u'. split; [exact Hfold|]. split; [exact Hc'|].
      split; [rewrite Hcap; reflexivity|].
      split; [rewrite Hsize; unfold HashTable.appended;
              cbn [HashTable.capacity HashTable.size length]; lia|].
      intros k'. rewrite Hget, chain_get_cons.
      destruct (String.eqb_spec k k') as [->|Hne].
      * assert (E : HashTable.chain_get k' kvs = None) by (apply chain_get_none; assumption).
        rewrite E. assumption.
      * destruct (HashTable.chain_get k' kvs); [reflexivity|].
        apply Hg1'. congruence.
Qed.

Lemma chain_get_some_iff key v (l : list (string * V)) :
  NoDup (map fst l) -> (HashTable.chain_get key l = Some v <-> In (key, v) l).
Proof.
  intros Hnd. split; [apply chain_get_in | apply chain_get_unique; assumption].
Qed.

(** A table whose lookups agree with a duplicate-free list of pairs holds
    exactly those pairs. *)
Lemma entries_perm_of_get self (l : list (string * V)) :
  HashTable.chained self -> NoDup (map fst l) ->
  (forall k, HashTable.get self k = HashTable.chain_get k l) ->
  Permutation (HashTable.entries self) l.
Proof.
  intros Hc Hnd Hget.
  apply NoDup_Permutation.
  - eapply NoDup_map_inv. apply Hc.
  - eapply NoDup_map_inv. exact Hnd.
  - intros [k v]. rewrite <- !chain_get_some_iff by (assumption || apply Hc).
    rewrite <- (get_entries k Hc), Hget. reflexivity.
Qed.

(** [_resize]: twice the capacity, the same pairs under the same keys. *)
Lemma resize_spec fuel self :
  HashTable.chained self ->
  4 * HashTable.size self <= 3 * HashTable.capacity self + 4 ->
  exists self',
    HashTable.resize_with (HashTable.set_fuel (S fuel)) self = Some self' /\
    HashTable.wf self' /\
    HashTable.capacity self' = HashTable.capacity self * 2 /\
    HashTable.size self' = HashTable.size self /\
    Permutation (HashTable.entries self') (HashTable.entries self) /\
    forall k, HashTable.get self' k = HashTable.get self k.
Proof.
  intros Hc Hload. unfold HashTable.resize_with.
  pose proof (HashTable.chained_capacity Hc) as Hcap.
  pose proof (HashTable.chained_size Hc) as Hsize.
  destruct (@reinsert_spec fuel (HashTable.entries self)
              {| HashTable.capacity := HashTable.capacity self * 2;
                 HashTable.buckets :=
                   repeat (LinkedList.empty (string * V))
                          (Z.to_nat (HashTable.capacity self * 2));
                 HashTable.size := 0 |})
    as (self' & Hfold & Hc' & Hcap' & Hsize' & Hget).
  - apply chained_fresh. lia.
  - apply Hc.
  - intros k _. apply get_fresh. lia.
  - cbn [HashTable.capacity HashTable.size]. lia.
  - exists self'. unfold HashTable.entries in Hfold. rewrite Hfold.
    simpl in Hcap', Hsize'.
    split; [reflexivity|]. split; [split; [assumption | lia]|].
    split; [assumption|]. split; [lia|].
    assert (Hget' : forall k, HashTable.get self' k
                              = HashTable.chain_get k (HashTable.entries self)).
    { intros k. rewrite Hget, get_fresh by lia.
      destruct (HashTable.chain_get k (HashTable.entries self)); reflexivity. }
    split.
    + apply entries_perm_of_get; [assumption | apply Hc | exact Hget'].
    + intros k. rewrite Hget'. symmetry. apply get_entries. assumption.
Qed.

(** What [set] does, with any depth of at least two calls. *)
Lemma set_fuel_spec fuel self key value :
  HashTable.wf self ->
  exists self',
    HashTable.set_fuel (S (S fuel)) self key value = Some self' /\
    HashTable.wf self' /\
    HashTable.get self' key = Some value /\
    (forall k, k <> key -> HashTable.get self' k = HashTable.get self k) /\
    match HashTable.get self key with
    | Some _ =>
        HashTable.size self' = HashTable.size self /\
        HashTable.capacity self' = HashTable.capacity self /\
        map fst (HashTable.entries self') = map fst (HashTable.entries self)
    | None =>
        HashTable.size self' = HashTable.size self + 1 /\
        Permutation (HashTable.entries self') ((key, value) :: HashTable.entries self)
    end.
Proof.
  intros [Hc Hload]. rewrite set_fuel_unfold.
  destruct (HashTable.get self key) as [v0|] eqn:Hg.
  - destruct (get_some_find _ _ Hg) as (pos & kv & Hfind). rewrite Hfind.
    destruct (overwritten_spec key value Hc Hfind) as (Hc' & Hkeys & Hg' & Hother).
    exists (HashTable.overwritten self key value pos).
    split_and; auto. split; assumption.
  - rewrite (get_none_find _ _ Hg).
    destruct (appended_spec key value Hc Hg) as (Hc1 & Hperm1 & Hg1 & Hother1).
    destruct (HashTable.overloaded (HashTable.appended self key value)) eqn:Hover.
    + destruct (@resize_spec fuel (HashTable.appended self key value))
        as (self' & Hres & Hwf' & _ & Hsize' & Hperm' & Hget'); auto.
      { unfold HashTable.appended. cbn [HashTable.capacity HashTable.size]. lia. }
      exists self'. split; [exact Hres|]. split; [exact Hwf'|].
      split; [rewrite Hget'; exact Hg1|].
      split; [intros k Hk; rewrite Hget'; auto|].
      split; [rewrite Hsize'; reflexivity|].
      rewrite Hperm'. symmetry. assumption.
    + exists (HashTable.appended self key value).
      split; [reflexivity|]. split.
      { split; [assumption|]. unfold HashTable.overloaded in Hover.
        apply Z.ltb_ge in Hover. assumption. }
      split_and; auto. symmetry. assumption.
Qed.

Lemma set_spec self key value :
  HashTable.wf self ->
  exists self',
    HashTable.set self key value = Some self' /\
    HashTable.wf self' /\
    HashTable.get self' key = Some value /\
    (forall k, k <> key -> HashTable.get self' k = HashTable.get self k) /\
    match HashTable.get self key with
    | Some _ =>
        HashTable.size self' = HashTable.size self /\
        HashTable.capacity self' = HashTable.capacity self /\
        map fst (HashTable.entries self') = map fst (HashTable.entries self)
    | None =>
        HashTable.size self' = HashTable.size self + 1 /\
        Permutation (HashTable.entries self') ((key, value) :: HashTable.entries self)
    end.
Proof. intros Hwf. apply set_fuel_spec. assumption. Qed.

Lemma wf_init (capacity : Z) : HashTable.wf (HashTable.init V capacity).
Proof.
  split; [apply chained_init|].
  unfold HashTable.init. cbn [HashTable.capacity HashTable.size]. lia.
Qed.

Lemma fold_option_none (B : Type) (f : HashTable.t V -> B -> option (HashTable.t V))
    (l : list B) :
  fold_left (fun acc x => match acc with Some a => f a x | None => None end) l None = None.
Proof. induction l as [|x l IH]; simpl; auto. Qed.

Lemma fold_option_more (B : Type) (f g : HashTable.t V -> B -> option (HashTable.t V))
    (l : list B) :
  (forall a x r, f a x = Some r -> g a x = Some r) ->
  forall a r,
    fold_left (fun acc x => match acc with Some a => f a x | None => None end) l (Some a)
    = Some r ->
    fold_left (fun acc x => match acc with Some a => g a x | None => None end) l (Some a)
    = Some r.
Proof.
  intros Hfg. induction l as [|x l IH]; intros a r H; [exact H|].
  cbn [fold_left] in *. destruct (f a x) as [a'|] eqn:E.
  - rewrite (Hfg _ _ _ E). apply IH. exact H.
  - rewrite fold_option_none in H. discriminate.
Qed.

(** A deeper recursion bound never changes a result: in every state, what
    [set] returns with some bound it returns with any larger one. *)
Lemma set_fuel_more (fuel : nat) :
  forall self key value r,
    HashTable.set_fuel fuel self key value = Some r ->
    HashTable.set_fuel (S fuel) self key value = Some r.
Proof.
  induction fuel as [|fuel IH]; intros self key value r H; [discriminate|].
  rewrite set_fuel_unfold in *.
  destruct (LinkedList.find _ _) as [[pos kv]|]; [exact H|].
  destruct (HashTable.overloaded _); [|exact H].
  unfold HashTable.resize_with in *.
  eapply fold_option_more; [|exact H].
  intros a x r' Hr. apply IH. exact Hr.
Qed.

(** In a well-formed table two levels are all [set] ever uses. *)
Lemma set_two_levels self key value :
  HashTable.wf self ->
  HashTable.set self key value = HashTable.set_fuel 2 self key value.
Proof.
  intros Hwf. unfold HashTable.set.
  destruct (@set_fuel_spec 0 self key value Hwf) as (r & Hr & _). rewrite Hr.
  induction (length (HashTable.entries self)) as [|n IHn]; [exact Hr|].
  apply set_fuel_more. exact IHn.
Qed.

Lemma set_all_cons self kv (kvs : list (string * V)) :
  HashTable.set_all self (kv :: kvs)
  = match HashTable.set self (fst kv) (snd kv) with
    | Some self' => HashTable.set_all self' kvs
    | None => None
    end.
Proof.
  unfold HashTable.set_all. simpl.
  destruct (HashTable.set self (fst kv) (snd kv)); [reflexivity|].
  induction kvs as [|kv' kvs IH]; simpl; auto.
Qed.

(** A sequence of [set]s never fails and leaves the other keys alone. *)
Lemma set_all_other (kvs : list (string * V)) :
  forall self, HashTable.wf self ->
  exists self',
    HashTable.set_all self kvs = Some self' /\
    HashTable.wf self' /\
    forall k, ~ In k (map fst kvs) -> HashTable.get self' k = HashTable.get self k.
Proof.
  induction kvs as [|[k v] kvs IH]; intros self Hwf.
  - exists self. split_and; auto.
  - destruct (set_spec k v Hwf) as (self1 & Hset & Hwf1 & _ & Hother & _).
    destruct (IH self1 Hwf1) as (self' & Hall & Hwf' & Hget).
    exists self'. rewrite set_all_cons. simpl fst. simpl snd. rewrite Hset.
    split_and; auto.
    intros k' Hk'. simpl in Hk'. rewrite Hget by tauto.
    apply Hother. intros ->. tauto.
Qed.

(** Inserting fresh, pairwise distinct keys. *)
Lemma set_all_distinct (kvs : list (string * V)) :
  forall self, HashTable.wf self ->
  NoDup (map fst kvs) ->
  (forall k, In k (map fst kvs) -> HashTable.get self k = None) ->
  exists self',
    HashTable.set_all self kvs = Some self' /\
    HashTable.wf self' /\
    HashTable.size self' = HashTable.size self + Z.of_nat (length kvs) /\
    Permutation (HashTable.entries self') (HashTable.entries self ++ kvs) /\
    forall k, HashTable.get self' k
              = match HashTable.chain_get k kvs with
                | Some v => Some v
                | None => HashTable.get self k
                end.
Proof.
  induction kvs as [|[k v] kvs IH]; intros self Hwf Hnd Hfresh.
  - exists self. rewrite app_nil_r. cbn [length]. split_and; auto. lia.
  - simpl in Hnd. inversion Hnd as [|? ? Hk Hnd']; subst.
    assert (Hgk : HashTable.get self k = None) by (apply Hfresh; left; reflexivity).
    destruct (set_spec k v Hwf) as (self1 & Hset & Hwf1 & Hg1 & Hother & Hcase).
    rewrite Hgk in Hcase. destruct Hcase as [Hsize1 Hperm1].
    destruct (IH self1 Hwf1 Hnd') as (self' & Hall & Hwf' & Hsize' & Hperm' & Hget).
    { intros k' Hk'. rewrite Hother.
      - apply Hfresh. right. assumption.
      - intros ->. contradiction. }
    exists self'. rewrite set_all_cons. simpl fst. simpl snd. rewrite Hset.
    split; [exact Hall|]. split; [exact Hwf'|].
    split; [rewrite Hsize', Hsize1; cbn [length]; lia|].
    split.
    + rewrite Hperm', Hperm1. simpl. apply Permutation_middle.
    + intros k'. rewrite Hget, chain_get_cons.
      destruct (String.eqb_spec k k') as [->|Hne].
      * assert (E : HashTable.chain_get k' kvs = None) by (apply chain_get_none; assumption).
        rewrite E. assumption.
      * destruct (HashTable.chain_get k' kvs); [reflexivity|].
        apply Hother. congruence.
Qed.

Lemma entries_init (capacity : Z) : HashTable.entries (HashTable.init V capacity) = [].
Proof.
  rewrite entries_concat. unfold HashTable.init, LinkedList.empty. simpl.
  apply concat_repeat_nil.
Qed.

(** C3.  In a table built by [HashTable(...)] and [set], [get(key)] after
    [set(key, value)] returns [value].  When the key was already there the
    value is overwritten: the size, the capacity and the sequence of keys
    stay as they were, and no key occurs twice.  After any further
    insertions under other keys, whatever resizes they trigger, [get(key)]
    still returns [value]. *)
Theorem get_after_set_returns_value self key value (others : list (string * V)) :
  HashTable.wf self ->
  ~ In key (map fst others) ->
  exists self1 self2,
    HashTable.set self key value = Some self1 /\
    HashTable.get self1 key = Some value /\
    (forall old, HashTable.get self key = Some old ->
       HashTable.size self1 = HashTable.size self /\
       HashTable.capacity self1 = HashTable.capacity self /\
       map fst (HashTable.entries self1) = map fst (HashTable.entries self)) /\
    NoDup (map fst (HashTable.entries self1)) /\
    HashTable.set_all self1 others = Some self2 /\
    HashTable.get self2 key = Some value.
Proof.
  intros Hwf Hothers.
  destruct (set_spec key value Hwf) as (self1 & Hset & Hwf1 & Hg1 & _ & Hcase).
  destruct (set_all_other others Hwf1) as (self2 & Hall & _ & Hget2).
  exists self1, self2. split_and; auto.
  - intros old Hold. rewrite Hold in Hcase. exact Hcase.
  - apply Hwf1.
  - rewrite Hget2 by assumption. exact Hg1.
Qed.
End HashTableFacts.

Lemma distinctb_NoDup (l : list string) : distinctb l = true -> NoDup l.
Proof.
  induction l as [|x l IH]; simpl; intros H; constructor.
  - apply andb_true_iff in H. destruct H as [H _].
    intros Hin. apply negb_true_iff in H.
    assert (E : existsb (String.eqb x) l = true).
    { apply existsb_exists. exists x. split; [assumption | apply String.eqb_refl]. }
    congruence.
  - apply IH. apply andb_true_iff in H. tauto.
Qed.

(** C4.  Inserting N pairs with pairwise distinct keys into a table started
    at capacity 8 succeeds and gives a table of size N in which every
    inserted key is found with its value and whose pairs are exactly the
    inserted ones, none dropped and none twice; and [_resize] on that table
    doubles the capacity and re-inserts exactly its pairs. *)
Theorem distinct_inserts_all_retrievable (V : Type) (kvs : list (string * V)) :
  NoDup (map fst kvs) ->
  exists self,
    HashTable.set_all (HashTable.init V 8) kvs = Some self /\
    HashTable.size self = Z.of_nat (length kvs) /\
    (forall k v, In (k, v) kvs -> HashTable.get self k = Some v) /\
    Permutation (HashTable.entries self) kvs /\
    NoDup (map fst (HashTable.entries self)) /\
    forall fuel, exists resized,
      HashTable._resize (S fuel) self = Some resized /\
      HashTable.capacity resized = HashTable.capacity self * 2 /\
      HashTable.size resized = HashTable.size self /\
      Permutation (HashTable.entries resized) (HashTable.entries self) /\
      NoDup (map fst (HashTable.entries resized)).
Proof.
  intros Hnd.
  destruct (@set_all_distinct V kvs (HashTable.init V 8)) as (self & Hall & Hwf & Hsize & Hperm & Hget).
  - apply wf_init.
  - assumption.
  - intros k _. apply get_init.
  - exists self. rewrite entries_init in Hperm. simpl in Hperm.
    split; [exact Hall|]. split; [rewrite Hsize; reflexivity|].
    split.
    { intros k v Hin. rewrite Hget.
      erewrite chain_get_unique by eassumption. reflexivity. }
    split; [exact Hperm|]. split; [apply Hwf|].
    intros fuel. destruct Hwf as [Hc Hload].
    destruct (@resize_spec V fuel self Hc) as (r & Hres & Hwfr & Hcap & Hsz & Hp & _); [lia|].
    exists r. split_and; auto. apply Hwfr.
Qed.

Lemma get_after_set_returns_value_witness :
  exists self1 self2,
    HashTable.set (HashTable.init Z 8) "k" 7 = Some self1 /\
    HashTable.get self1 "k" = Some 7 /\
    (forall old, HashTable.get (HashTable.init Z 8) "k" = Some old ->
       HashTable.size self1 = HashTable.size (HashTable.init Z 8) /\
       HashTable.capacity self1 = HashTable.capacity (HashTable.init Z 8) /\
       map fst (HashTable.entries self1) = map fst (HashTable.entries (HashTable.init Z 8))) /\
    NoDup (map fst (HashTable.entries self1)) /\
    HashTable.set_all self1
      [("a", 1); ("b", 2); ("c", 3); ("d", 4); ("e", 5); ("f", 6); ("g", 7); ("k2", 8)]
      = Some self2 /\
    HashTable.get self2 "k" = Some 7.
Proof.
  apply get_after_set_returns_value.
  - apply wf_init.
  - simpl. intros H. repeat (destruct H as [H|H]; [discriminate H|]). exact H.
Defined.

Lemma distinct_inserts_all_retrievable_witness :
  let kvs := map (fun n => (str_of_len n, Z.of_nat n)) (seq 0 100) in
  exists self,
    HashTable.set_all (HashTable.init Z 8) kvs = Some self /\
    HashTable.size self = Z.of_nat (length kvs) /\
    (forall k v, In (k, v) kvs -> HashTable.get self k = Some v) /\
    Permutation (HashTable.entries self) kvs /\
    NoDup (map fst (HashTable.entries self)) /\
    forall fuel, exists resized,
      HashTable._resize (S fuel) self = Some resized /\
      HashTable.capacity resized = HashTable.capacity self * 2 /\
      HashTable.size resized = HashTable.size self /\
      Permutation (HashTable.entries resized) (HashTable.entries self) /\
      NoDup (map fst (HashTable.entries resized)).
Proof.
  intros kvs. apply distinct_inserts_all_retrievable.
  apply distinctb_NoDup. vm_compute. reflexivity.
Defined.


(** ** Dictionaries *)

Section DictFacts.
Variables (K V : Type) (eqb : K -> K -> bool).
Hypothesis eqb_eq : forall a b, eqb a b = true <-> a = b.
Implicit Types (k : K) (v : V) (d : dict K V).

Lemma eqb_refl' k : eqb k k = true.
Proof. apply eqb_eq. reflexivity. Qed.

Lemma eqb_neq' (a b : K) : a <> b -> eqb a b = false.
Proof.
  intros H. destruct (eqb a b) eqn:E; [|reflexivity].
  apply eqb_eq in E. contradiction.
Qed.

Lemma eqb_dec' (a b : K) : {a = b} + {a <> b}.
Proof.
  destruct (eqb a b) eqn:E.
  - left. apply eqb_eq. assumption.
  - right. intros H. apply eqb_eq in H. congruence.
Qed.

Lemma dict_get_set_eq k v d : dict_get eqb k (dict_set eqb k v d) = Some v.
Proof.
  induction d as [|[k' v'] d IH]; simpl.
  - rewrite eqb_refl'. reflexivity.
  - destruct (eqb k' k) eqn:E; simpl; rewrite E; auto.
Qed.

Lemma dict_get_set_ne k k' v d :
  k <> k' -> dict_get eqb k' (dict_set eqb k v d) = dict_get eqb k' d.
Proof.
  intros Hne. induction d as [|[k0 v0] d IH]; simpl.
  - rewrite eqb_neq' by assumption. reflexivity.
  - destruct (eqb k0 k) eqn:E; simpl.
    + apply eqb_eq in E. subst k0. rewrite eqb_neq' by assumption. reflexivity.
    + rewrite IH. reflexivity.
Qed.

Lemma dict_get_update k k' (f : V -> V) d :
  dict_get eqb k' (dict_update eqb k f d)
  = if eqb k k' then option_map f (dict_get eqb k d) else dict_get eqb k' d.
Proof.
  induction d as [|[k0 v0] d IH]; simpl.
  - destruct (eqb k k'); reflexivity.
  - destruct (eqb k0 k) eqn:E; simpl.
    + apply eqb_eq in E. subst k0. destruct (eqb k k'); reflexivity.
    + rewrite IH. destruct (eqb k k') eqn:E'.
      * apply eqb_eq in E'. subst k'. rewrite E. reflexivity.
      * reflexivity.
Qed.

Lemma dict_mem_keys k d : dict_mem eqb k d = memb eqb k (map fst d).
Proof.
  unfold dict_mem, memb. induction d as [|[k0 v0] d IH]; simpl; [reflexivity|].
  destruct (eqb k0 k) eqn:E.
  - apply eqb_eq in E. subst k0. rewrite eqb_refl'. reflexivity.
  - rewrite IH. destruct (eqb k k0) eqn:E'; [|reflexivity].
    apply eqb_eq in E'. subst k0. rewrite eqb_refl' in E. discriminate.
Qed.

Lemma dict_set_keys k v d :
  map fst (dict_set eqb k v d)
  = if dict_mem eqb k d then map fst d else map fst d ++ [k].
Proof.
  unfold dict_mem. induction d as [|[k0 v0] d IH]; simpl; [reflexivity|].
  destruct (eqb k0 k) eqn:E; simpl; [reflexivity|].
  rewrite IH. destruct (dict_get eqb k d); reflexivity.
Qed.

Lemma memb_In k (l : list K) : memb eqb k l = true <-> In k l.
Proof.
  unfold memb. rewrite existsb_exists. split.
  - intros (x & Hin & E). apply eqb_eq in E. subst. assumption.
  - intros Hin. exists k. split; [assumption | apply eqb_refl'].
Qed.

Lemma memb_app k (l1 l2 : list K) : memb eqb k (l1 ++ l2) = memb eqb k l1 || memb eqb k l2.
Proof. unfold memb. apply existsb_app. Qed.

Lemma first_seen_In k (l : list K) : In k (first_seen eqb l) <-> In k l.
Proof.
  induction l as [|x l IH]; simpl; [tauto|].
  rewrite filter_In, IH. split.
  - intros [H | [H _]]; auto.
  - intros [H | H]; [auto|].
    destruct (eqb_dec' x k) as [E|E]; [auto|].
    right. split; [assumption|]. rewrite eqb_neq' by assumption. reflexivity.
Qed.

Lemma first_seen_NoDup (l : list K) : NoDup (first_seen eqb l).
Proof.
  induction l as [|x l IH]; simpl; constructor.
  - rewrite filter_In. intros [_ H]. rewrite eqb_refl' in H. discriminate.
  - apply NoDup_filter. assumption.
Qed.
End DictFacts.

(** ** The trie *)

Lemma frequency_at_new_node (word : string) : Trie.frequency_at Trie.new_node word = 0.
Proof. destruct word; reflexivity. Qed.

Lemma is_end_at_new_node (word : string) : Trie.is_end_at Trie.new_node word = false.
Proof. destruct word; reflexivity. Qed.

(** The child the walk of [insert] continues in, after it was created if
    missing. *)
Lemma insert_child (ch : ascii) (cs : dict ascii Trie.TrieNode) :
  dict_get Ascii.eqb ch
    (if dict_mem Ascii.eqb ch cs then cs else dict_set Ascii.eqb ch Trie.new_node cs)
  = Some (match dict_get Ascii.eqb ch cs with
          | Some child => child
          | None => Trie.new_node
          end).
Proof.
  unfold dict_mem. destruct (dict_get Ascii.eqb ch cs) as [child|] eqn:E.
  - assumption.
  - apply dict_get_set_eq. apply Ascii.eqb_eq.
Qed.

Lemma insert_sibling (ch c : ascii) (cs : dict ascii Trie.TrieNode) :
  ch <> c ->
  dict_get Ascii.eqb c
    (if dict_mem Ascii.eqb ch cs then cs else dict_set Ascii.eqb ch Trie.new_node cs)
  = dict_get Ascii.eqb c cs.
Proof.
  intros Hne. destruct (dict_mem Ascii.eqb ch cs); [reflexivity|].
  apply dict_get_set_ne; [apply Ascii.eqb_eq | assumption].
Qed.

(** One [insert] adds one to the frequency at the end of its word and marks
    it; nothing else changes along any other word. *)
Lemma insert_at_spec (word : string) :
  forall (node : Trie.TrieNode) (other : string),
    Trie.frequency_at (Trie.insert_at word node) other
    = Trie.frequency_at node other + (if String.eqb word other then 1 else 0) /\
    Trie.is_end_at (Trie.insert_at word node) other
    = Trie.is_end_at node other || String.eqb word other.
Proof.
  induction word as [|ch rest IH]; intros [cs e f] other.
  - destruct other as [|c r]; simpl.
    + unfold Trie.frequency_at, Trie.is_end_at. simpl. split; [reflexivity|].
      rewrite orb_true_r. reflexivity.
    + unfold Trie.frequency_at, Trie.is_end_at. simpl.
      split; [lia | rewrite orb_false_r; reflexivity].
  - destruct other as [|c r].
    + unfold Trie.frequency_at, Trie.is_end_at. simpl.
      split; [lia | rewrite orb_false_r; reflexivity].
    + unfold Trie.frequency_at, Trie.is_end_at.
      cbn [Trie.insert_at Trie.walk_from Trie.children Trie.is_end Trie.frequency String.eqb].
      rewrite dict_get_update by apply Ascii.eqb_eq.
      destruct (Ascii.eqb_spec ch c) as [->|Hne].
      * rewrite insert_child. cbn [option_map andb].
        destruct (IH (match dict_get Ascii.eqb c cs with
                      | Some child => child
                      | None => Trie.new_node
                      end) r) as [Hf He].
        unfold Trie.frequency_at, Trie.is_end_at in Hf, He. rewrite Hf, He.
        destruct (dict_get Ascii.eqb c cs) as [child|]; [split; reflexivity|].
        fold (Trie.frequency_at Trie.new_node r). fold (Trie.is_end_at Trie.new_node r).
        rewrite frequency_at_new_node, is_end_at_new_node. split; reflexivity.
      * rewrite insert_sibling by assumption. cbn [andb].
        split; [lia | rewrite orb_false_r; reflexivity].
Qed.

(** ** Sorting by decreasing key *)

Section SortFacts.
Variables (A : Type) (key : A -> Z).
Let ge_key (a b : A) : Prop := key a >= key b.

Lemma insert_desc_perm (x : A) (l : list A) : Permutation (insert_desc key x l) (x :: l).
Proof.
  induction l as [|y l IH]; simpl; [reflexivity|].
  destruct (key x <? key y); [|reflexivity].
  rewrite IH. apply perm_swap.
Qed.

Lemma sort_desc_perm (l : list A) : Permutation (sort_desc key l) l.
Proof.
  induction l as [|x l IH]; simpl; [reflexivity|].
  rewrite insert_desc_perm. apply perm_skip. assumption.
Qed.

Lemma insert_desc_sorted (x : A) (l : list A) :
  StronglySorted ge_key l -> StronglySorted ge_key (insert_desc key x l).
Proof.
  induction 1 as [|y l Hs IH Hy]; simpl.
  - constructor; constructor.
  - destruct (key x <? key y) eqn:E.
    + apply Z.ltb_lt in E. constructor; [assumption|].
      eapply Permutation_Forall; [symmetry; apply insert_desc_perm|].
      constructor; [unfold ge_key; lia | assumption].
    + apply Z.ltb_ge in E. constructor; [constructor; assumption|].
      constructor; [unfold ge_key; lia|].
      eapply Forall_impl; [|exact Hy]. unfold ge_key. intros z Hz. lia.
Qed.

Lemma sort_desc_sorted (l : list A) : StronglySorted ge_key (sort_desc key l).
Proof.
  induction l as [|x l IH]; simpl; [constructor|].
  apply insert_desc_sorted. assumption.
Qed.

(** Stability: among the elements of one key the order is the order of the
    input. *)
Lemma insert_desc_stable (s : Z) (x : A) (l : list A) :
  filter (fun a => key a =? s) (insert_desc key x l)
  = filter (fun a => key a =? s) (x :: l).
Proof.
  induction l as [|y l IH]; [reflexivity|].
  cbn [insert_desc]. destruct (key x <? key y) eqn:E; [|reflexivity].
  apply Z.ltb_lt in E. cbn [filter] in *. rewrite IH.
  destruct (key y =? s) eqn:Ey, (key x =? s) eqn:Ex; try reflexivity.
  apply Z.eqb_eq in Ey, Ex. lia.
Qed.

Lemma sort_desc_stable (s : Z) (l : list A) :
  filter (fun a => key a =? s) (sort_desc key l) = filter (fun a => key a =? s) l.
Proof.
  induction l as [|x l IH]; [reflexivity|].
  cbn [sort_desc]. rewrite insert_desc_stable. cbn [filter]. rewrite IH. reflexivity.
Qed.

Lemma slice_to_nonneg (limit : Z) (l : list A) :
  0 <= limit -> slice_to limit l = firstn (Z.to_nat limit) l.
Proof.
  intros H. unfold slice_to. destruct (0 <=? limit) eqn:E; [reflexivity|].
  apply Z.leb_gt in E. lia.
Qed.
End SortFacts.

(** ** The traversal of [autocomplete] *)

Lemma flat_map_enqueue (current : Trie.TrieNode) (current_prefix : string) :
  flat_map (fun p => Trie.terminals (fst p) (snd p))
           (Trie.enqueue_children current current_prefix)
  = flat_map (fun p => Trie.terminals (snd p) (Str.snoc current_prefix (fst p)))
             (Trie.children current).
Proof.
  unfold Trie.enqueue_children.
  induction (Trie.children current) as [|[ch child] cs IH]; simpl; [reflexivity|].
  rewrite IH. reflexivity.
Qed.

(** The loop collects the terminal nodes below the queued nodes, each once. *)
Lemma bfs_collects (queue : list (Trie.TrieNode * string)) (results : list (string * Z)) :
  Permutation (Trie.bfs queue results)
    (results ++ flat_map (fun p => Trie.terminals (fst p) (snd p)) queue).
Proof.
  funelim (Trie.bfs queue results).
  - simpl. rewrite app_nil_r. reflexivity.
  - rewrite H. rewrite flat_map_app, flat_map_enqueue.
    cbn [flat_map fst snd]. destruct current as [cs e f].
    cbn [Trie.terminals Trie.is_end Trie.frequency Trie.children].
    destruct e.
    + rewrite <- !app_assoc. apply Permutation_app_head.
      cbn [app]. apply perm_skip. apply Permutation_app_comm.
    + cbn [app]. apply Permutation_app_head. apply Permutation_app_comm.
Qed.

(** X21.  What [autocomplete] hands to its callers, for a limit of at least
    0: nothing when the walk along the prefix leaves the trie; otherwise the
    loop collects every terminal node below the node reached, each once, with
    its full string and frequency, the collection is sorted by decreasing
    frequency (equal frequencies keep the order of collection), cut to the
    first [limit] entries, and the strings alone are returned, at most
    [limit] of them. *)
Theorem autocomplete_terms_by_frequency (self : Trie.t) (prefix : string) (limit : Z) :
  0 <= limit ->
  match Trie._walk self prefix with
  | None => Trie.autocomplete self prefix limit = []
  | Some node =>
      let collected := Trie.bfs [(node, prefix)] [] in
      let ranked := sort_desc (@snd string Z) collected in
      Permutation collected (Trie.terminals node prefix) /\
      Permutation ranked collected /\
      StronglySorted (fun a b => snd a >= snd b) ranked /\
      (forall f, filter (fun a => snd a =? f) ranked
                 = filter (fun a => snd a =? f) collected) /\
      Trie.autocomplete self prefix limit = map fst (firstn (Z.to_nat limit) ranked) /\
      Z.of_nat (length (Trie.autocomplete self prefix limit)) <= limit
  end.
Proof.
  intros Hlimit. unfold Trie.autocomplete.
  destruct (Trie._walk self prefix) as [node|]; [|reflexivity].
  cbv zeta. split_and.
  - rewrite bfs_collects. cbn [flat_map fst snd app]. rewrite app_nil_r. reflexivity.
  - apply sort_desc_perm.
  - apply sort_desc_sorted.
  - intros f. apply sort_desc_stable.
  - rewrite slice_to_nonneg by assumption. reflexivity.
  - rewrite slice_to_nonneg by assumption.
    rewrite length_map, length_firstn. lia.
Qed.

Lemma autocomplete_terms_by_frequency_witness :
  let self := Trie.insert (Trie.insert (Trie.insert Trie.init "apply") "apple") "apply" in
  match Trie._walk self "app" with
  | None => Trie.autocomplete self "app" 1 = []
  | Some node =>
      let collected := Trie.bfs [(node, "app")] [] in
      let ranked := sort_desc (@snd string Z) collected in
      Permutation collected (Trie.terminals node "app") /\
      Permutation ranked collected /\
      StronglySorted (fun a b => snd a >= snd b) ranked /\
      (forall f, filter (fun a => snd a =? f) ranked
                 = filter (fun a => snd a =? f) collected) /\
      Trie.autocomplete self "app" 1 = map fst (firstn (Z.to_nat 1) ranked) /\
      Z.of_nat (length (Trie.autocomplete self "app" 1)) <= 1
  end.
Proof.
  intros self. apply (@autocomplete_terms_by_frequency self "app" 1). lia.
Defined.

(** C2.  The code computes what the claim describes and then drops half of
    it.  For every trie, prefix and limit the loop and the sort of
    [autocomplete] build the list the claim asks for, each term paired with
    its frequency, by decreasing frequency, cut to the limit; the [return]
    keeps the first component of every pair only.  At the input of the
    specification's own example (apple 5 times, application twice, apply 5
    times, prefix "app", limit 2) the claim gives [("apple", 5); ("apply", 5)]
    and the code returns ["apple"; "apply"].  The route [/autocomplete], which
    unpacks every suggestion into a term and a frequency, raises on it: with
    "campus" indexed, the query "cam" gives no response. *)
Theorem autocomplete_drops_frequencies :
  (forall (self : Trie.t) (prefix : string) (limit : nat),
      exists paired,
        Trie.autocomplete_paired self prefix (Z.of_nat limit) paired /\
        Trie.autocomplete self prefix (Z.of_nat limit) = map fst paired) /\
  (let self := trie_of (repeat "apple" 5 ++ repeat "application" 2 ++ repeat "apply" 5) in
   Trie.autocomplete_paired self "app" 2 [("apple", 5); ("apply", 5)] /\
   Trie.autocomplete self "app" 2 = ["apple"; "apply"]) /\
  match ingest_all [("Map", "CS campus map", "map.txt")] with
  | Some engine =>
      Trie.autocomplete (trie engine) "cam" 8 = ["campus"] /\
      autocomplete_route engine "cam" = None
  | None => False
  end.
Proof.
  split; [|split].
  - intros self prefix limit. unfold Trie.autocomplete_paired, Trie.autocomplete.
    destruct (Trie._walk self prefix) as [node|].
    + exists (firstn limit (sort_desc (@snd string Z) (Trie.bfs [(node, prefix)] []))).
      split.
      * exists (sort_desc (@snd string Z) (Trie.bfs [(node, prefix)] [])).
        split_and.
        -- rewrite sort_desc_perm, bfs_collects.
           cbn [flat_map fst snd app]. rewrite app_nil_r. reflexivity.
        -- apply sort_desc_sorted.
        -- rewrite Nat2Z.id. reflexivity.
      * cbv zeta. rewrite slice_to_nonneg by lia. rewrite Nat2Z.id. reflexivity.
    + exists []. split; reflexivity.
  - cbv zeta. split; [|vm_compute; reflexivity].
    unfold Trie.autocomplete_paired.
    destruct (Trie._walk _ "app") as [node|] eqn:Hwalk; [|vm_compute in Hwalk; discriminate].
    vm_compute in Hwalk. injection Hwalk as <-.
    exists [("apple", 5); ("apply", 5); ("application", 2)].
    split_and.
    + match goal with
      | |- Permutation _ ?collected =>
          let value := eval vm_compute in collected in change collected with value
      end.
      apply perm_skip. apply perm_swap.
    + repeat constructor; cbn; lia.
    + reflexivity.
  - vm_compute. split; reflexivity.
Qed.

Example autocomplete_ranking :
  let freq5 w t := Trie.insert (Trie.insert (Trie.insert (Trie.insert (Trie.insert t w) w) w) w) w in
  let self := freq5 "apply" (Trie.insert (Trie.insert (freq5 "apple" Trie.init)
                                             "application") "application") in
  Trie.autocomplete self "app" 2 = ["apple"; "apply"].
Proof. vm_compute. reflexivity. Qed.

(** ** The counting loops *)

Section FilterFacts.
Variable A : Type.

Lemma filter_filter_weaker (P Q : A -> bool) (l : list A) :
  (forall y, P y = true -> Q y = true) ->
  filter P (filter Q l) = filter P l.
Proof.
  intros H. induction l as [|x l IH]; simpl; [reflexivity|].
  destruct (Q x) eqn:Eq; simpl.
  - rewrite IH. reflexivity.
  - destruct (P x) eqn:Ep; [|assumption].
    apply H in Ep. congruence.
Qed.

Lemma filter_and (P Q : A -> bool) (l : list A) :
  filter (fun y => P y && Q y) l = filter P (filter Q l).
Proof.
  induction l as [|x l IH]; simpl; [reflexivity|].
  destruct (Q x) eqn:Eq, (P x) eqn:Ep; simpl; rewrite ?Ep, ?IH; reflexivity.
Qed.
End FilterFacts.

Section WeightFacts.
Variables (K : Type) (eqb : K -> K -> bool).
Hypothesis eqb_eq : forall a b, eqb a b = true <-> a = b.
Implicit Types (k : K) (d : dict K Z) (items : list (K * Z)).

Lemma dict_get_default_set k k' (w : Z) d :
  dict_get_default eqb k' 0 (dict_set eqb k w d)
  = if eqb k k' then w else dict_get_default eqb k' 0 d.
Proof.
  unfold dict_get_default. destruct (eqb k k') eqn:E.
  - apply eqb_eq in E. subst k'. rewrite dict_get_set_eq by assumption. reflexivity.
  - rewrite dict_get_set_ne; [reflexivity | assumption |].
    intros ->. rewrite (eqb_refl' _ eqb_eq) in E. discriminate.
Qed.

Lemma fold_bump_get items :
  forall d k,
    dict_get_default eqb k 0 (fold_left (bump eqb) items d)
    = dict_get_default eqb k 0 d + weight_of eqb k items.
Proof.
  induction items as [|[k0 w] items IH]; intros d k; simpl; [lia|].
  rewrite IH. unfold bump. simpl. rewrite dict_get_default_set.
  destruct (eqb k0 k) eqn:E; [|lia].
  apply eqb_eq in E. subst k0. lia.
Qed.

Lemma fold_bump_keys items :
  forall d,
    map fst (fold_left (bump eqb) items d)
    = map fst d
      ++ filter (fun k => negb (memb eqb k (map fst d))) (first_seen eqb (map fst items)).
Proof.
  induction items as [|[k0 w] items IH]; intros d; simpl.
  - rewrite app_nil_r. reflexivity.
  - rewrite IH. unfold bump at 1 2. simpl fst. simpl snd.
    rewrite dict_set_keys by assumption. rewrite dict_mem_keys by assumption.
    destruct (memb eqb k0 (map fst d)) eqn:E; simpl.
    + f_equal. symmetry. apply filter_filter_weaker.
      intros y Hy. destruct (eqb k0 y) eqn:E'; [|reflexivity].
      apply eqb_eq in E'. subst y. rewrite E in Hy. discriminate.
    + rewrite <- app_assoc. simpl. do 2 f_equal.
      rewrite <- filter_and. apply filter_ext. intros y.
      rewrite memb_app. unfold memb at 2. simpl. rewrite orb_false_r.
      rewrite negb_orb. f_equal. f_equal.
      destruct (eqb y k0) eqn:E1, (eqb k0 y) eqn:E2; try reflexivity.
      * apply eqb_eq in E1. subst y. rewrite (eqb_refl' _ eqb_eq) in E2. discriminate.
      * apply eqb_eq in E2. subst y. rewrite (eqb_refl' _ eqb_eq) in E1. discriminate.
Qed.

Lemma dict_get_default_head k (w : Z) d :
  dict_get_default eqb k 0 ((k, w) :: d) = w.
Proof. unfold dict_get_default. simpl. rewrite (eqb_refl' _ eqb_eq). reflexivity. Qed.

Lemma dict_as_map d :
  NoDup (map fst d) ->
  d = map (fun k => (k, dict_get_default eqb k 0 d)) (map fst d).
Proof.
  induction d as [|[k w] d IH]; simpl; intros Hnd; [reflexivity|].
  inversion Hnd as [|? ? Hk Hnd']; subst.
  rewrite dict_get_default_head. f_equal.
  rewrite IH at 1 by assumption. apply map_ext_in.
  intros k' Hk'. f_equal. unfold dict_get_default. simpl.
  destruct (eqb k k') eqn:E; [|reflexivity].
  apply eqb_eq in E. subst k'. contradiction.
Qed.

(** The dictionary a counting loop builds from the empty one: the keys in
    the order of their first occurrence, each with the sum of its weights. *)
Lemma fold_bump_nil items :
  fold_left (bump eqb) items []
  = map (fun k => (k, weight_of eqb k items)) (first_seen eqb (map fst items)).
Proof.
  assert (Hkeys : map fst (fold_left (bump eqb) items [])
                  = first_seen eqb (map fst items)).
  { rewrite fold_bump_keys. cbn [map app].
    induction (first_seen eqb (map fst items)) as [|x l IH]; [reflexivity|].
    cbn [filter memb existsb negb]. f_equal. exact IH. }
  rewrite (dict_as_map (fold_left (bump eqb) items [])).
  - rewrite Hkeys. apply map_ext. intros k. rewrite fold_bump_get. reflexivity.
  - rewrite Hkeys. apply first_seen_NoDup. assumption.
Qed.
End WeightFacts.

(** ** Scoring *)

Lemma fold_left_map_arg (A B C : Type) (f : A -> B -> A) (g : C -> B) (l : list C) :
  forall a, fold_left f (map g l) a = fold_left (fun a x => f a (g x)) l a.
Proof. induction l as [|x l IH]; intros a; simpl; auto. Qed.

Lemma weight_of_occurrences (term : string) (tokens : list string) :
  weight_of String.eqb term (map (fun t => (t, 1)) tokens) = occurrences term tokens.
Proof.
  unfold occurrences. induction tokens as [|x tokens IH]; [reflexivity|].
  cbn [map weight_of fst snd count_occ]. rewrite IH.
  destruct (string_dec x term) as [->|Hne].
  - rewrite String.eqb_refl. lia.
  - apply String.eqb_neq in Hne. rewrite Hne. lia.
Qed.

(** The first loop of [add_document]: every distinct term once, in the order
    of first occurrence, with the number of its occurrences. *)
Lemma count_terms_spec (tokens : list string) :
  count_terms tokens
  = map (fun t => (t, occurrences t tokens)) (first_seen String.eqb tokens).
Proof.
  unfold count_terms.
  rewrite <- (fold_left_map_arg (bump String.eqb) (fun t => (t, 1)) tokens).
  rewrite fold_bump_nil by apply String.eqb_eq.
  rewrite map_map. cbn [fst]. rewrite map_id.
  apply map_ext. intros t. rewrite weight_of_occurrences. reflexivity.
Qed.

Lemma add_scores_spec (doc_scores : dict Z Z) (postings : list Posting) :
  add_scores doc_scores postings
  = fold_left (bump Z.eqb) (map (fun p => (doc_id p, term_freq p)) postings) doc_scores.
Proof. unfold add_scores. rewrite fold_left_map_arg. reflexivity. Qed.

Lemma score_terms_from (self : CampusSearchEngine) (terms : list string) :
  forall doc_scores,
    fold_left
      (fun doc_scores term =>
         match postings_of self term with
         | None => doc_scores
         | Some postings => add_scores doc_scores postings
         end) terms doc_scores
    = fold_left (bump Z.eqb)
        (map (fun p => (doc_id p, term_freq p)) (flat_map (postings_list self) terms))
        doc_scores.
Proof.
  induction terms as [|term terms IH]; intros doc_scores; [reflexivity|].
  cbn [fold_left flat_map]. rewrite IH, map_app, fold_left_app.
  unfold postings_list at 3. destruct (postings_of self term) as [postings|].
  - rewrite add_scores_spec. reflexivity.
  - reflexivity.
Qed.

(** The scoring loop: the documents in the order they are first met in the
    posting lists of the terms, each with the sum of [term_freq] over its
    postings. *)
Lemma score_terms_spec (self : CampusSearchEngine) (terms : list string) :
  let stream := flat_map (postings_list self) terms in
  score_terms self terms
  = map (fun d => (d, posting_weight d stream)) (first_seen Z.eqb (map doc_id stream)).
Proof.
  intros stream. unfold score_terms. rewrite score_terms_from.
  fold stream. rewrite fold_bump_nil by apply Z.eqb_eq.
  rewrite map_map. reflexivity.
Qed.

Lemma candidate_terms_from (self : CampusSearchEngine) (prefix : bool) (tokens : list string) :
  forall acc,
    fold_left
      (fun candidate_terms token =>
         if prefix then candidate_terms ++ Trie.autocomplete (trie self) token 25
         else candidate_terms ++ [token]) tokens acc
    = acc ++ flat_map (fun token =>
                         if prefix then Trie.autocomplete (trie self) token 25
                         else [token]) tokens.
Proof.
  induction tokens as [|token tokens IH]; intros acc; simpl.
  - rewrite app_nil_r. reflexivity.
  - rewrite IH. destruct prefix; rewrite <- app_assoc; reflexivity.
Qed.

Lemma candidate_terms_keyword (self : CampusSearchEngine) (tokens : list string) :
  candidate_terms self tokens false = tokens.
Proof.
  pose proof (candidate_terms_from self false tokens []) as H.
  cbn beta iota in H. unfold candidate_terms. rewrite H. simpl.
  clear H. induction tokens as [|t tokens IH]; simpl; congruence.
Qed.

Lemma candidate_terms_prefix (self : CampusSearchEngine) (tokens : list string) :
  candidate_terms self tokens true
  = flat_map (fun token => Trie.autocomplete (trie self) token 25) tokens.
Proof.
  pose proof (candidate_terms_from self true tokens []) as H.
  cbn beta iota in H. unfold candidate_terms. rewrite H. reflexivity.
Qed.

(** [_search] on any state. *)
Lemma search_spec (self : CampusSearchEngine) (query : string) (prefix : bool) :
  let stream :=
    flat_map (postings_list self) (candidate_terms self (tokenize query) prefix) in
  _search self query prefix
  = sort_desc (@snd Z Z)
      (map (fun d => (d, posting_weight d stream)) (first_seen Z.eqb (map doc_id stream))).
Proof.
  intros stream. unfold _search.
  destruct (tokenize query) as [|token tokens] eqn:E.
  - reflexivity.
  - rewrite score_terms_spec. reflexivity.
Qed.

(** ** Ingestion *)

Lemma heap_update_length r f (heap : list (LinkedList.t Posting)) :
  length (heap_update r f heap) = length heap.
Proof.
  revert r. induction heap as [|l heap IH]; intros [|r]; simpl; auto.
Qed.

Lemma nth_heap_update_eq r f (heap : list (LinkedList.t Posting)) :
  (r < length heap)%nat -> nth r (heap_update r f heap) [] = f (nth r heap []).
Proof.
  revert r. induction heap as [|l heap IH]; intros [|r] H; simpl in *; try lia; auto.
  apply IH. lia.
Qed.

Lemma nth_heap_update_ne r r' f (heap : list (LinkedList.t Posting)) :
  r <> r' -> nth r' (heap_update r f heap) [] = nth r' heap [].
Proof.
  revert r r'. induction heap as [|l heap IH]; intros [|r] [|r'] H; simpl; auto; lia.
Qed.

Lemma postings_list_unfold (self : CampusSearchEngine) (term : string) :
  postings_list self term
  = match HashTable.get (inverted_index self) term with
    | Some r => nth r (heap self) []
    | None => []
    end.
Proof.
  unfold postings_list, postings_of, deref, LinkedList.items.
  destruct (HashTable.get (inverted_index self) term); reflexivity.
Qed.

Lemma engine_ok_init : engine_ok init_engine.
Proof.
  constructor; simpl.
  - apply wf_init.
  - intros term r H. rewrite get_init in H. discriminate.
  - intros term1 term2 r H. rewrite get_init in H. discriminate.
Qed.

(** One round of the second loop of [add_document]: the posting goes to the
    end of the term's list (created when the term is new), every other list
    is as before, and the term is inserted in the trie once. *)
Lemma index_term_spec (id : Z) (self : CampusSearchEngine) (term : string) (freq : Z) :
  engine_ok self ->
  exists self',
    index_term id self term freq = Some self' /\
    engine_ok self' /\
    (forall t, postings_list self' t
               = postings_list self t
                 ++ (if String.eqb term t
                     then [{| doc_id := id; term_freq := freq |}] else [])) /\
    trie self' = Trie.insert (trie self) term /\
    documents self' = documents self /\
    doc_counter self' = doc_counter self.
Proof.
  intros [Hwf Hrefs Hdist]. unfold index_term.
  destruct (HashTable.get (inverted_index self) term) as [r|] eqn:Hg.
  - eexists. split; [reflexivity|]. split; [|split; [|split_and; reflexivity]].
    + constructor; simpl.
      * assumption.
      * intros t r' H. rewrite heap_update_length. eauto.
      * assumption.
    + intros t. rewrite !postings_list_unfold. simpl.
      destruct (String.eqb_spec term t) as [<-|Hne].
      * rewrite Hg. apply nth_heap_update_eq. eauto.
      * rewrite app_nil_r.
        destruct (HashTable.get (inverted_index self) t) as [r'|] eqn:Hg'; [|reflexivity].
        apply nth_heap_update_ne. intros ->. apply Hne. eauto.
  - destruct (set_spec term (length (heap self)) Hwf)
      as (index & Hset & Hwf' & Hget & Hother & _).
    cbv zeta. rewrite Hset.
    eexists. split; [reflexivity|]. split; [|split; [|split_and; reflexivity]].
    + constructor; simpl.
      * assumption.
      * intros t r' H. rewrite heap_update_length, length_app. simpl.
        destruct (string_dec t term) as [->|Hne].
        -- rewrite Hget in H. injection H as <-. lia.
        -- rewrite Hother in H by assumption. apply Hrefs in H. lia.
      * intros t1 t2 r' H1 H2.
        destruct (string_dec t1 term) as [->|Hne1], (string_dec t2 term) as [->|Hne2];
          try reflexivity.
        -- rewrite Hget in H1. injection H1 as <-.
           rewrite Hother in H2 by assumption. apply Hrefs in H2. lia.
        -- rewrite Hget in H2. injection H2 as <-.
           rewrite Hother in H1 by assumption. apply Hrefs in H1. lia.
        -- rewrite Hother in H1, H2 by assumption. eauto.
    + intros t. rewrite !postings_list_unfold. simpl.
      destruct (String.eqb_spec term t) as [<-|Hne].
      * rewrite Hget, Hg. rewrite nth_heap_update_eq by (rewrite length_app; simpl; lia).
        rewrite app_nth2 by lia. rewrite Nat.sub_diag. reflexivity.
      * rewrite app_nil_r, Hother by congruence.
        destruct (HashTable.get (inverted_index self) t) as [r'|] eqn:Hg'; [|reflexivity].
        pose proof (Hrefs _ _ Hg') as Hr'.
        rewrite nth_heap_update_ne by lia. apply app_nth1. assumption.
Qed.

Lemma index_terms_none (id : Z) (items : dict string Z) :
  fold_left
    (fun acc item =>
       match acc with
       | Some self => index_term id self (fst item) (snd item)
       | None => None
       end) items None = None.
Proof. induction items as [|item items IH]; simpl; auto. Qed.

(** The second loop of [add_document]. *)
Lemma index_terms_spec (id : Z) (items : dict string Z) :
  forall self,
    engine_ok self ->
    exists self',
      index_terms id self items = Some self' /\
      engine_ok self' /\
      (forall t, postings_list self' t
                 = postings_list self t
                   ++ flat_map (fun item =>
                                  if String.eqb (fst item) t
                                  then [{| doc_id := id; term_freq := snd item |}]
                                  else []) items) /\
      trie self' = fold_left Trie.insert (map fst items) (trie self) /\
      documents self' = documents self /\
      doc_counter self' = doc_counter self.
Proof.
  induction items as [|[term freq] items IH]; intros self Hok.
  - exists self. unfold index_terms. simpl. split_and; auto.
    intros t. rewrite app_nil_r. reflexivity.
  - destruct (index_term_spec id term freq Hok)
      as (self1 & Hstep & Hok1 & Hpost1 & Htrie1 & Hdocs1 & Hcnt1).
    destruct (IH self1 Hok1) as (self' & Hrest & Hok' & Hpost' & Htrie' & Hdocs' & Hcnt').
    exists self'. unfold index_terms in *. cbn [fold_left fst snd]. rewrite Hstep.
    split; [exact Hrest|]. split; [exact Hok'|].
    split; [|split_and; cbn [map fold_left fst]; congruence].
    intros t. rewrite Hpost', Hpost1. cbn [flat_map fst snd].
    rewrite <- app_assoc. reflexivity.
Qed.

Lemma flat_map_single (A : Type) (g : string -> A) (t : string) (l : list string) :
  NoDup l ->
  flat_map (fun x => if String.eqb x t then [g x] else []) l
  = if memb String.eqb t l then [g t] else [].
Proof.
  induction l as [|x l IH]; intros Hnd; [reflexivity|].
  inversion Hnd as [|? ? Hx Hnd']; subst.
  cbn [flat_map]. unfold memb in *. cbn [existsb]. rewrite IH by assumption.
  rewrite (String.eqb_sym t x).
  destruct (String.eqb_spec x t) as [->|Hne]; [|reflexivity].
  destruct (existsb (String.eqb t) l) eqn:E; [|reflexivity].
  exfalso. apply Hx. apply (memb_In String.eqb String.eqb_eq). exact E.
Qed.

Lemma memb_first_seen (t : string) (l : list string) :
  memb String.eqb t (first_seen String.eqb l) = memb String.eqb t l.
Proof.
  pose proof (memb_In String.eqb String.eqb_eq t l) as H1.
  pose proof (memb_In String.eqb String.eqb_eq t (first_seen String.eqb l)) as H2.
  pose proof (first_seen_In String.eqb String.eqb_eq t l) as H3.
  destruct (memb String.eqb t l), (memb String.eqb t (first_seen String.eqb l));
    try reflexivity; intuition discriminate.
Qed.

(** The postings one document adds under a term. *)
Lemma count_terms_postings (id : Z) (t : string) (tokens : list string) :
  flat_map (fun item =>
              if String.eqb (fst item) t
              then [{| doc_id := id; term_freq := snd item |}] else [])
           (count_terms tokens)
  = if memb String.eqb t tokens
    then [{| doc_id := id; term_freq := occurrences t tokens |}] else [].
Proof.
  rewrite count_terms_spec, flat_map_concat_map, map_map, <- flat_map_concat_map.
  cbn [fst snd].
  rewrite (flat_map_single
             (fun x => {| doc_id := id; term_freq := occurrences x tokens |}) t
             (first_seen_NoDup String.eqb String.eqb_eq tokens)).
  rewrite memb_first_seen. reflexivity.
Qed.

Lemma count_terms_keys (tokens : list string) :
  map fst (count_terms tokens) = first_seen String.eqb tokens.
Proof. rewrite count_terms_spec, map_map. cbn [fst]. apply map_id. Qed.

(** [add_document] on a document with tokens. *)
Lemma add_document_spec (self : CampusSearchEngine) (title content filename : string) :
  engine_ok self ->
  tokenize content <> [] ->
  exists self',
    add_document self title content filename = Some (self', doc_counter self + 1) /\
    engine_ok self' /\
    (forall t, postings_list self' t
               = postings_list self t
                 ++ (if memb String.eqb t (tokenize content)
                     then [{| doc_id := doc_counter self + 1;
                              term_freq := occurrences t (tokenize content) |}]
                     else [])) /\
    trie self' = fold_left Trie.insert (first_seen String.eqb (tokenize content)) (trie self) /\
    doc_counter self' = doc_counter self + 1 /\
    documents self'
    = dict_set Z.eqb (doc_counter self + 1)
        {| meta_title := title; meta_filename := filename;
           meta_length := str_of_len (length (tokenize content)) |}
        (documents self).
Proof.
  intros Hok Htokens. unfold add_document.
  destruct (tokenize content) as [|token tokens] eqn:E; [contradiction|].
  cbv zeta.
  match goal with
  | |- context [index_terms _ ?s _] => set (self1 := s)
  end.
  assert (Hok1 : engine_ok self1).
  { destruct Hok as [Hwf Hrefs Hdist]. constructor; assumption. }
  destruct (index_terms_spec (doc_counter self + 1) (count_terms (token :: tokens)) Hok1)
    as (self' & Hrun & Hok' & Hpost & Htrie & Hdocs & Hcnt).
  exists self'. rewrite Hrun.
  split; [reflexivity|]. split; [exact Hok'|].
  split; [|split; [|split; assumption]].
  - intros t. rewrite Hpost, count_terms_postings. reflexivity.
  - rewrite Htrie, count_terms_keys. reflexivity.
Qed.

Lemma add_document_rejected (self : CampusSearchEngine) (title content filename : string) :
  tokenize content = [] ->
  add_document self title content filename = Some (self, -1).
Proof. intros E. unfold add_document. rewrite E. reflexivity. Qed.

Lemma ingest_from_cons (self : CampusSearchEngine) doc (docs : list (string * string * string)) :
  ingest_from self (doc :: docs)
  = match add_document self (fst (fst doc)) (snd (fst doc)) (snd doc) with
    | Some (self', _) => ingest_from self' docs
    | None => None
    end.
Proof.
  unfold ingest_from. cbn [fold_left].
  destruct (add_document self _ _ _) as [[self' id]|]; [reflexivity|].
  induction docs as [|d docs IH]; simpl; auto.
Qed.

Lemma fold_insert_frequency (words : list string) :
  forall (tr : Trie.t) (t : string),
    Trie.frequency_at (Trie.root (fold_left Trie.insert words tr)) t
    = Trie.frequency_at (Trie.root tr) t + Z.of_nat (count_occ string_dec words t) /\
    Trie.is_end_at (Trie.root (fold_left Trie.insert words tr)) t
    = Trie.is_end_at (Trie.root tr) t || memb String.eqb t words.
Proof.
  induction words as [|w words IH]; intros tr t.
  - simpl. rewrite orb_false_r. split; [lia | reflexivity].
  - cbn [fold_left count_occ]. destruct (IH (Trie.insert tr w) t) as [Hf He].
    rewrite Hf, He. unfold Trie.insert. cbn [Trie.root].
    destruct (insert_at_spec w (Trie.root tr) t) as [Hf1 He1]. rewrite Hf1, He1.
    unfold memb. cbn [existsb]. rewrite (String.eqb_sym t w).
    destruct (string_dec w t) as [->|Hne].
    + rewrite String.eqb_refl. split; [lia | rewrite orb_assoc; reflexivity].
    + apply String.eqb_neq in Hne. rewrite Hne.
      split; [lia | rewrite orb_assoc; reflexivity].
Qed.

Lemma count_occ_first_seen (t : string) (tokens : list string) :
  Z.of_nat (count_occ string_dec (first_seen String.eqb tokens) t)
  = if memb String.eqb t tokens then 1 else 0.
Proof.
  pose proof (first_seen_NoDup String.eqb String.eqb_eq tokens) as Hnd.
  rewrite <- memb_first_seen.
  destruct (memb String.eqb t (first_seen String.eqb tokens)) eqn:E.
  - apply (memb_In String.eqb String.eqb_eq) in E.
    rewrite (proj1 (NoDup_count_occ' string_dec _) Hnd t E). reflexivity.
  - assert (H : ~ In t (first_seen String.eqb tokens)).
    { intros H. apply (memb_In String.eqb String.eqb_eq) in H. congruence. }
    apply (count_occ_not_In string_dec) in H. rewrite H. reflexivity.
Qed.

Lemma accepted_from_cons (counter : Z) doc (docs : list (string * string * string)) :
  accepted_from counter (doc :: docs)
  = match tokenize (snd (fst doc)) with
    | [] => accepted_from counter docs
    | tokens => (counter + 1, tokens) :: accepted_from (counter + 1) docs
    end.
Proof. reflexivity. Qed.

Lemma expected_postings_cons (doc : Z * list string) accepted (t : string) :
  expected_postings (doc :: accepted) t
  = (if memb String.eqb t (snd doc)
     then [{| doc_id := fst doc; term_freq := occurrences t (snd doc) |}] else [])
    ++ expected_postings accepted t.
Proof. reflexivity. Qed.

(** A sequence of ingestions from a state that satisfies the invariant: it
    never fails, and the posting lists, the trie and the counter grow by what
    the accepted documents contribute. *)
Lemma ingest_from_spec (docs : list (string * string * string)) :
  forall self,
    engine_ok self ->
    exists self',
      ingest_from self docs = Some self' /\
      engine_ok self' /\
      (forall t, postings_list self' t
                 = postings_list self t
                   ++ expected_postings (accepted_from (doc_counter self) docs) t) /\
      (forall t, Trie.frequency_at (Trie.root (trie self')) t
                 = Trie.frequency_at (Trie.root (trie self)) t
                   + Z.of_nat (length (expected_postings
                                         (accepted_from (doc_counter self) docs) t))) /\
      (forall t, Trie.is_end_at (Trie.root (trie self')) t
                 = Trie.is_end_at (Trie.root (trie self)) t
                   || existsb (fun doc => memb String.eqb t (snd doc))
                        (accepted_from (doc_counter self) docs)) /\
      doc_counter self'
      = doc_counter self + Z.of_nat (length (accepted_from (doc_counter self) docs)).
Proof.
  induction docs as [|[[title content] filename] docs IH]; intros self Hok.
  - exists self. cbn [accepted_from expected_postings flat_map length existsb].
    split_and; auto; intros; rewrite ?app_nil_r, ?orb_false_r; auto; lia.
  - rewrite ingest_from_cons, accepted_from_cons. cbn [fst snd].
    destruct (tokenize content) as [|token tokens] eqn:E.
    + rewrite (add_document_rejected self title content filename E). apply IH. assumption.
    + destruct (@add_document_spec self title content filename Hok)
        as (self1 & Hadd & Hok1 & Hpost1 & Htrie1 & Hcnt1 & _).
      { rewrite E. discriminate. }
      rewrite E in Hpost1, Htrie1. rewrite Hadd.
      destruct (IH self1 Hok1) as (self' & Hrun & Hok' & Hpost & Hfreq & Hend & Hcnt).
      rewrite Hcnt1 in Hpost, Hfreq, Hend, Hcnt.
      exists self'. split; [exact Hrun|]. split; [exact Hok'|].
      split; [|split; [|split]].
      * intros t. rewrite Hpost, Hpost1, expected_postings_cons, <- app_assoc.
        reflexivity.
      * intros t. rewrite Hfreq, Htrie1, expected_postings_cons, length_app.
        destruct (fold_insert_frequency (first_seen String.eqb (token :: tokens))
                    (trie self) t) as [Hf _].
        rewrite Hf, count_occ_first_seen. cbn [fst snd].
        destruct (memb String.eqb t (token :: tokens)); cbn [length]; lia.
      * intros t. rewrite Hend, Htrie1. cbn [existsb snd].
        destruct (fold_insert_frequency (first_seen String.eqb (token :: tokens))
                    (trie self) t) as [_ He].
        rewrite He, memb_first_seen, orb_assoc. reflexivity.
      * rewrite Hcnt. cbn [length]. lia.
Qed.

Lemma postings_list_init (t : string) : postings_list init_engine t = [].
Proof. rewrite postings_list_unfold. simpl. rewrite get_init. reflexivity. Qed.

(** Ingestion from the empty engine. *)
Lemma ingest_all_spec (docs : list (string * string * string)) :
  exists self,
    ingest_all docs = Some self /\
    engine_ok self /\
    (forall t, postings_list self t = expected_postings (accepted_from 0 docs) t) /\
    (forall t, Trie.frequency_at (Trie.root (trie self)) t
               = Z.of_nat (length (expected_postings (accepted_from 0 docs) t))) /\
    (forall t, Trie.is_end_at (Trie.root (trie self)) t
               = existsb (fun doc => memb String.eqb t (snd doc)) (accepted_from 0 docs)) /\
    doc_counter self = Z.of_nat (length (accepted_from 0 docs)).
Proof.
  destruct (ingest_from_spec docs engine_ok_init)
    as (self & Hrun & Hok & Hpost & Hfreq & Hend & Hcnt).
  exists self. split; [exact Hrun|]. split; [exact Hok|].
  change (doc_counter init_engine) with 0 in *.
  split_and.
  - intros t. rewrite Hpost, postings_list_init. reflexivity.
  - intros t. rewrite Hfreq. change (trie init_engine) with Trie.init.
    cbn [Trie.root Trie.init]. rewrite frequency_at_new_node. lia.
  - intros t. rewrite Hend. change (trie init_engine) with Trie.init.
    cbn [Trie.root Trie.init]. rewrite is_end_at_new_node. reflexivity.
  - rewrite Hcnt. lia.
Qed.

(** ** What the accepted documents contribute *)

Lemma accepted_from_ids (docs : list (string * string * string)) :
  forall counter,
    Forall (fun doc => counter < fst doc) (accepted_from counter docs) /\
    StronglySorted (fun a b => fst a < fst b) (accepted_from counter docs).
Proof.
  induction docs as [|doc docs IH]; intros counter.
  - split; constructor.
  - rewrite accepted_from_cons. destruct (tokenize (snd (fst doc))) as [|token tokens].
    + apply IH.
    + destruct (IH (counter + 1)) as [Hlt Hsorted]. split.
      * constructor; [simpl; lia|].
        eapply Forall_impl; [|exact Hlt]. simpl. intros a Ha. lia.
      * constructor; [assumption|].
        eapply Forall_impl; [|exact Hlt]. simpl. intros a Ha. lia.
Qed.

Lemma expected_postings_in accepted (t : string) (p : Posting) :
  In p (expected_postings accepted t) ->
  exists doc,
    In doc accepted /\ doc_id p = fst doc /\
    term_freq p = occurrences t (snd doc) /\ memb String.eqb t (snd doc) = true.
Proof.
  unfold expected_postings. rewrite in_flat_map. intros (doc & Hdoc & Hp).
  exists doc. destruct (memb String.eqb t (snd doc)); [|contradiction].
  destruct Hp as [<- | []]. simpl. auto.
Qed.

Lemma occurrences_positive (t : string) (tokens : list string) :
  memb String.eqb t tokens = true -> 1 <= occurrences t tokens.
Proof.
  intros H. apply (memb_In String.eqb String.eqb_eq) in H.
  apply (count_occ_In string_dec) in H. unfold occurrences. lia.
Qed.

Lemma expected_postings_sorted accepted (t : string) :
  StronglySorted (fun a b => fst a < fst b) accepted ->
  StronglySorted (fun a b => doc_id a < doc_id b) (expected_postings accepted t).
Proof.
  induction 1 as [|doc accepted Hs IH Hdoc]; [constructor|].
  rewrite expected_postings_cons.
  destruct (memb String.eqb t (snd doc)); [|exact IH].
  cbn [app]. constructor; [exact IH|].
  apply Forall_forall. intros p Hp.
  destruct (expected_postings_in _ _ _ Hp) as (doc' & Hin & Hid & _).
  rewrite Forall_forall in Hdoc. simpl. rewrite Hid. apply Hdoc. assumption.
Qed.

Lemma expected_postings_freq accepted (t : string) :
  Forall (fun p => 1 <= term_freq p) (expected_postings accepted t).
Proof.
  apply Forall_forall. intros p Hp.
  destruct (expected_postings_in _ _ _ Hp) as (doc & _ & _ & Hf & Hm).
  rewrite Hf. apply occurrences_positive. assumption.
Qed.

Lemma expected_postings_length accepted (t : string) :
  length (expected_postings accepted t)
  = length (filter (fun doc => memb String.eqb t (snd doc)) accepted).
Proof.
  induction accepted as [|doc accepted IH]; [reflexivity|].
  rewrite expected_postings_cons, length_app, IH. cbn [filter].
  destruct (memb String.eqb t (snd doc)); reflexivity.
Qed.

Lemma sorted_ids_distinct (postings : list Posting) :
  StronglySorted (fun a b => doc_id a < doc_id b) postings ->
  NoDup (map doc_id postings).
Proof.
  induction 1 as [|p postings Hs IH Hp]; simpl; constructor; [|assumption].
  rewrite in_map_iff. intros (q & Hid & Hq).
  rewrite Forall_forall in Hp. apply Hp in Hq. lia.
Qed.

(** ** Matching file names *)

Lemma startswith_spec (s p : string) :
  Str.startswith s p = true <-> exists rest, s = String.append p rest.
Proof.
  revert s. induction p as [|b p IH]; intros s; simpl.
  - split; [intros _; exists s; reflexivity | reflexivity].
  - destruct s as [|a s]; simpl.
    + split; [discriminate | intros (rest & H); discriminate].
    + rewrite andb_true_iff, IH. split.
      * intros [E (rest & ->)]. apply Ascii.eqb_eq in E. subst. exists rest. reflexivity.
      * intros (rest & H). injection H as -> ->. split; [apply Ascii.eqb_refl | eauto].
Qed.

Lemma contains_spec (s p : string) :
  Str.contains s p = true
  <-> exists before after, s = String.append before (String.append p after).
Proof.
  induction s as [|a s IH].
  - cbn [Str.contains]. rewrite orb_false_r, startswith_spec. split.
    + intros (rest & H). exists EmptyString, rest. exact H.
    + intros (before & after & H). destruct before; [|discriminate].
      exists after. exact H.
  - cbn [Str.contains]. rewrite orb_true_iff, startswith_spec, IH. split.
    + intros [(rest & H) | (before & after & H)].
      * exists EmptyString, rest. exact H.
      * exists (String a before), after. simpl. rewrite H. reflexivity.
    + intros (before & after & H). destruct before as [|b before].
      * left. exists after. exact H.
      * right. simpl in H. injection H as -> ->. eauto.
Qed.

Lemma no_match_in_empty_name (q : string) (prefix : bool) :
  Str.is_empty q = false ->
  (if prefix then Str.startswith EmptyString q else Str.contains EmptyString q) = false.
Proof. destruct q; [discriminate|]. destruct prefix; reflexivity. Qed.

Lemma filename_scan (q : string) (prefix : bool) (docs : dict Z DocMeta) :
  Str.is_empty q = false ->
  forall ranked,
    fold_left
      (fun ranked item =>
         let filename := Str.lower (meta_filename (snd item)) in
         if Str.is_empty filename then ranked
         else
           let is_match :=
             if prefix then Str.startswith filename q else Str.contains filename q in
           if is_match then ranked ++ [(fst item, 1)] else ranked)
      docs ranked
    = ranked
      ++ map (fun item => (fst item, 1))
           (filter (fun item =>
                      if prefix
                      then Str.startswith (Str.lower (meta_filename (snd item))) q
                      else Str.contains (Str.lower (meta_filename (snd item))) q)
                   docs).
Proof.
  intros Hq. induction docs as [|item docs IH]; intros ranked.
  - simpl. rewrite app_nil_r. reflexivity.
  - cbn [fold_left filter]. cbv zeta. rewrite IH.
    destruct (Str.is_empty (Str.lower (meta_filename (snd item)))) eqn:E.
    + apply is_empty_true in E. rewrite E.
      rewrite (no_match_in_empty_name q prefix Hq). reflexivity.
    + destruct (if prefix
                then Str.startswith (Str.lower (meta_filename (snd item))) q
                else Str.contains (Str.lower (meta_filename (snd item))) q).
      * cbn [map]. rewrite <- app_assoc. reflexivity.
      * reflexivity.
Qed.

Lemma autocomplete_length (self : Trie.t) (prefix : string) (limit : Z) :
  0 <= limit -> Z.of_nat (length (Trie.autocomplete self prefix limit)) <= limit.
Proof.
  intros Hlimit. unfold Trie.autocomplete.
  destruct (Trie._walk self prefix) as [node|]; [|simpl; lia].
  cbv zeta. rewrite slice_to_nonneg by assumption.
  rewrite length_map, length_firstn. lia.
Qed.

Lemma posting_weight_app (d : Z) (ps qs : list Posting) :
  posting_weight d (ps ++ qs) = posting_weight d ps + posting_weight d qs.
Proof.
  unfold posting_weight. induction ps as [|p ps IH]; [reflexivity|].
  cbn [app map weight_of]. rewrite IH. lia.
Qed.

(** ** The engine *)

(** C5.  When the content has no tokens, [add_document] returns the
    rejection value -1 and the state it leaves is the state it found: the
    counter, the document table, the inverted index with its posting lists
    and the trie are all unchanged.  This holds in every state. *)
Theorem empty_content_is_rejected
    (self : CampusSearchEngine) (title content filename : string) :
  tokenize content = [] ->
  add_document self title content filename = Some (self, -1).
Proof. apply add_document_rejected. Qed.

Lemma empty_content_is_rejected_witness :
  add_document init_engine "t" "   " "f.txt" = Some (init_engine, -1).
Proof. apply empty_content_is_rejected. reflexivity. Defined.

(** C7 (as the code has it).  [filename_search] lowercases and trims the
    query and returns nothing when that is empty; otherwise it returns
    [(document_id, 1)] for exactly the documents whose lowercased file name
    starts with ([prefix]) or contains (otherwise) the query value, in the
    order of the document table.  With A, B, C ingested in this order and
    "report" in the names of B and C only, the result is [(B,1), (C,1)]. *)
Theorem filename_search_in_table_order :
  (forall (self : CampusSearchEngine) (query : string) (prefix : bool),
      filename_search self query prefix
      = let query_value := Str.lower (Str.strip query) in
        if Str.is_empty query_value then []
        else
          map (fun item => (fst item, 1))
            (filter (fun item =>
                       let filename := Str.lower (meta_filename (snd item)) in
                       if prefix then Str.startswith filename query_value
                       else Str.contains filename query_value)
                    (documents self))) /\
  match ingest_all [("A", "alpha", "notes.txt");
                    ("B", "beta", "Report-1.txt");
                    ("C", "gamma", "final_report.txt")] with
  | Some self =>
      map fst (documents self) = [1; 2; 3] /\
      filename_search self "  REPORT " false = [(2, 1); (3, 1)] /\
      filename_search self "report" true = [(2, 1)]
  | None => False
  end.
Proof.
  split.
  - intros self query prefix. unfold filename_search. cbv zeta.
    destruct (Str.is_empty (Str.lower (Str.strip query))) eqn:E; [reflexivity|].
    rewrite (filename_scan _ prefix (documents self) E). reflexivity.
  - vm_compute. split_and; reflexivity.
Qed.

(** C7 as stated fails: the file name is lowercased before it is compared,
    so a document stored as "REPORT.txt" is found by the query "report"
    although the stored name does not contain that string. *)
Lemma filename_search_lowercases_names :
  match ingest_all [("A", "alpha", "REPORT.txt")] with
  | Some self =>
      filename_search self "report" false = [(1, 1)] /\
      filename_search_stored_name self "report" false = [] /\
      filename_search self "report" false <> filename_search_stored_name self "report" false
  | None => False
  end.
Proof. vm_compute. split_and; try reflexivity. discriminate. Qed.

(** C1.  After any sequence of ingestions, [keyword_search] returns, for
    exactly the documents that occur in the posting lists of the query's
    terms (each document once), the pair of the document id and the sum of
    [term_freq] over all those postings of the document; the pairs are
    sorted by decreasing score, and pairs of equal score are in the order in
    which their documents are first met when the posting lists are iterated
    term by term.  The posting list of a term holds one posting per accepted
    document containing it, with the number of occurrences.  For A = "cat dog
    cat" and B = "dog dog" the results are as the specification gives them. *)
Theorem keyword_search_sums_term_frequencies :
  (forall (docs : list (string * string * string)) (query : string),
      exists self,
        ingest_all docs = Some self /\
        (forall term,
            postings_list self term = expected_postings (accepted_from 0 docs) term) /\
        let stream := flat_map (postings_list self) (tokenize query) in
        let scored :=
          map (fun d => (d, posting_weight d stream))
              (first_seen Z.eqb (map doc_id stream)) in
        let result := keyword_search self query in
        Permutation result scored /\
        NoDup (map fst result) /\
        (forall d, In d (map fst result) <-> In d (map doc_id stream)) /\
        StronglySorted (fun a b => snd a >= snd b) result /\
        (forall s, filter (fun a => snd a =? s) result
                   = filter (fun a => snd a =? s) scored)) /\
  match ingest_all [("A", "cat dog cat", "a.txt"); ("B", "dog dog", "b.txt")] with
  | Some self =>
      keyword_search self "dog" = [(2, 2); (1, 1)] /\
      keyword_search self "cat dog" = [(1, 3); (2, 2)]
  | None => False
  end.
Proof.
  split; [|vm_compute; split; reflexivity].
  intros docs query.
  destruct (ingest_all_spec docs) as (self & Hrun & _ & Hpost & _).
  exists self. split; [exact Hrun|]. split; [exact Hpost|].
  cbv zeta. unfold keyword_search.
  pose proof (search_spec self query false) as Hs. cbv zeta in Hs.
  rewrite candidate_terms_keyword in Hs. rewrite Hs.
  set (stream := flat_map (postings_list self) (tokenize query)).
  set (scored := map (fun d => (d, posting_weight d stream))
                     (first_seen Z.eqb (map doc_id stream))).
  assert (Hkeys : map fst scored = first_seen Z.eqb (map doc_id stream)).
  { unfold scored. rewrite map_map. cbn [fst]. apply map_id. }
  split_and.
  - apply sort_desc_perm.
  - eapply Permutation_NoDup.
    + apply Permutation_map. symmetry. apply sort_desc_perm.
    + rewrite Hkeys. apply first_seen_NoDup. apply Z.eqb_eq.
  - intros d. rewrite <- (first_seen_In Z.eqb Z.eqb_eq d (map doc_id stream)), <- Hkeys.
    split; apply Permutation_in; apply Permutation_map;
      [|symmetry]; apply sort_desc_perm.
  - apply sort_desc_sorted.
  - intros s. apply sort_desc_stable.
Qed.

(** C6.  In every state, [prefix_search] replaces each query token by the
    result of [autocomplete(token, limit=25)], at most 25 terms, keeps the
    expansions of all tokens one after the other without removing repeated
    terms, and scores over the posting lists of all these candidates
    additively: the score of a document is the sum of [term_freq] over all
    its postings in that sequence, so the scores of two sequences of
    candidates add up.  A document with "cart" twice and "car" once gets
    score 3 for the query "car", which expands to both terms. *)
Theorem prefix_search_adds_all_expansions :
  (forall (self : CampusSearchEngine) (query : string),
      let expand := fun token => Trie.autocomplete (trie self) token 25 in
      let candidates := flat_map expand (tokenize query) in
      let stream := flat_map (postings_list self) candidates in
      (forall token, (length (expand token) <= 25)%nat) /\
      candidate_terms self (tokenize query) true = candidates /\
      prefix_search self query
      = sort_desc (@snd Z Z)
          (map (fun d => (d, posting_weight d stream))
               (first_seen Z.eqb (map doc_id stream))) /\
      (forall d terms1 terms2,
          posting_weight d (flat_map (postings_list self) (terms1 ++ terms2))
          = posting_weight d (flat_map (postings_list self) terms1)
            + posting_weight d (flat_map (postings_list self) terms2))) /\
  match ingest_all [("D", "cart car cart", "d.txt"); ("E", "carbon", "e.txt")] with
  | Some self =>
      Trie.autocomplete (trie self) "car" 25 = ["car"; "cart"; "carbon"] /\
      postings_list self "cart" = [{| doc_id := 1; term_freq := 2 |}] /\
      postings_list self "car" = [{| doc_id := 1; term_freq := 1 |}] /\
      prefix_search self "car" = [(1, 3); (2, 1)] /\
      prefix_search self "car cart" = [(1, 5); (2, 1)]
  | None => False
  end.
Proof.
  split; [|vm_compute; split_and; reflexivity].
  intros self query. cbv zeta. split_and.
  - intros token.
    pose proof (@autocomplete_length (trie self) token 25 ltac:(lia)). lia.
  - apply candidate_terms_prefix.
  - unfold prefix_search.
    pose proof (search_spec self query true) as Hs. cbv zeta in Hs.
    rewrite candidate_terms_prefix in Hs. exact Hs.
  - intros d terms1 terms2. rewrite flat_map_app. apply posting_weight_app.
Qed.

(** C9.  After any sequence of ingestions, for every term, the frequency at
    the end of the term's walk in the trie is the number of accepted
    documents that contain the term, and the node is marked terminal exactly
    when there is such a document.  One more ingestion inserts every
    distinct term of the document once, which adds one for the terms of the
    document and nothing for the others, however often they occur in it;
    and one [insert] adds exactly one.  Three documents with "cat" give
    frequency 3. *)
Theorem document_frequency_counts_documents :
  (forall (docs : list (string * string * string)) (title content filename term : string),
      exists self self' id,
        ingest_all docs = Some self /\
        Trie.frequency_at (Trie.root (trie self)) term
        = Z.of_nat (length (filter (fun doc => memb String.eqb term (snd doc))
                                   (accepted_from 0 docs))) /\
        Trie.is_end_at (Trie.root (trie self)) term
        = existsb (fun doc => memb String.eqb term (snd doc)) (accepted_from 0 docs) /\
        add_document self title content filename = Some (self', id) /\
        trie self'
        = fold_left Trie.insert (first_seen String.eqb (tokenize content)) (trie self) /\
        NoDup (first_seen String.eqb (tokenize content)) /\
        Trie.frequency_at (Trie.root (trie self')) term
        = Trie.frequency_at (Trie.root (trie self)) term
          + (if memb String.eqb term (tokenize content) then 1 else 0)) /\
  (forall (self : Trie.t) (word : string),
      Trie.frequency_at (Trie.root (Trie.insert self word)) word
      = Trie.frequency_at (Trie.root self) word + 1 /\
      Trie.is_end_at (Trie.root (Trie.insert self word)) word = true) /\
  match ingest_all [("A", "cat cat cat", "a"); ("B", "a cat and a dog", "b");
                    ("C", "   ", "c"); ("D", "Cat, dog; cat", "d")] with
  | Some self =>
      Trie.frequency_at (Trie.root (trie self)) "cat" = 3 /\
      Trie.frequency_at (Trie.root (trie self)) "dog" = 2 /\
      Trie.frequency_at (Trie.root (trie self)) "ca" = 0
  | None => False
  end.
Proof.
  split; [|split; [|vm_compute; split_and; reflexivity]].
  - intros docs title content filename term.
    destruct (ingest_all_spec docs) as (self & Hrun & Hok & _ & Hfreq & Hend & _).
    assert (Hstep : exists self' id,
               add_document self title content filename = Some (self', id) /\
               trie self'
               = fold_left Trie.insert (first_seen String.eqb (tokenize content))
                   (trie self)).
    { destruct (tokenize content) as [|token tokens] eqn:E.
      - exists self, (-1). split; [apply add_document_rejected; assumption | reflexivity].
      - destruct (@add_document_spec self title content filename Hok)
          as (self' & Hadd & _ & _ & Htrie & _).
        { rewrite E. discriminate. }
        rewrite E in Htrie. eauto. }
    destruct Hstep as (self' & id & Hadd & Htrie).
    exists self, self', id. split; [exact Hrun|].
    split; [rewrite Hfreq; rewrite expected_postings_length; reflexivity|].
    split; [apply Hend|]. split; [exact Hadd|]. split; [exact Htrie|].
    split; [apply first_seen_NoDup; apply String.eqb_eq|].
    rewrite Htrie.
    destruct (fold_insert_frequency (first_seen String.eqb (tokenize content))
                (trie self) term) as [Hf _].
    rewrite Hf, count_occ_first_seen. reflexivity.
  - intros self word. unfold Trie.insert. cbn [Trie.root].
    destruct (insert_at_spec word (Trie.root self) word) as [Hf He].
    rewrite Hf, He, String.eqb_refl, orb_true_r. split; reflexivity.
Qed.

(** C10.  After any sequence of ingestions from the empty engine, the
    posting list of every term of the inverted index has its document ids in
    strictly increasing order, hence at most one posting per document, and
    every posting has a term frequency of at least 1; the list is the one the
    accepted documents determine, and a term is missing from the index only
    when no accepted document contains it. *)
Theorem posting_lists_increasing_and_positive
    (docs : list (string * string * string)) (term : string) :
  exists self,
    ingest_all docs = Some self /\
    match postings_of self term with
    | Some postings =>
        postings = expected_postings (accepted_from 0 docs) term /\
        StronglySorted (fun a b => doc_id a < doc_id b) postings /\
        NoDup (map doc_id postings) /\
        Forall (fun p => 1 <= term_freq p) postings
    | None => expected_postings (accepted_from 0 docs) term = []
    end.
Proof.
  destruct (ingest_all_spec docs) as (self & Hrun & _ & Hpost & _).
  exists self. split; [exact Hrun|].
  specialize (Hpost term). unfold postings_list in Hpost.
  destruct (postings_of self term) as [postings|]; [|auto].
  assert (Hsorted : StronglySorted (fun a b => doc_id a < doc_id b) postings).
  { rewrite Hpost. apply expected_postings_sorted. apply accepted_from_ids. }
  split_and; auto.
  - apply sorted_ids_distinct. assumption.
  - rewrite Hpost. apply expected_postings_freq.
Qed.

(* ===================================================================== *)
(** * Further properties *)

(** ** Chains and the hash table *)

(** X1.  [LinkedList.find] returns the first node whose value satisfies the
    predicate, with no satisfying value before it, and returns nothing
    exactly when no value of the chain satisfies the predicate. *)
Theorem find_returns_first_match (A : Type) (predicate : A -> bool) (self : LinkedList.t A) :
  match LinkedList.find predicate self with
  | Some (pos, value) =>
      exists before after,
        LinkedList.items self = before ++ value :: after /\
        length before = pos /\
        predicate value = true /\
        Forall (fun x => predicate x = false) before
  | None => Forall (fun x => predicate x = false) (LinkedList.items self)
  end.
Proof.
  unfold LinkedList.items.
  destruct (LinkedList.find predicate self) as [[pos value]|] eqn:E.
  - destruct (find_from_some _ _ _ E) as (before & after & Hself & Hpos & Hvalue & Hbefore).
    exists before, after. split_and; auto. apply Forall_forall. assumption.
  - apply Forall_forall. eapply find_from_none. exact E.
Qed.

Section HashTableMore.
Variable V : Type.
Implicit Types (self : HashTable.t V) (key : string) (value : V).

(** X2.  In a table built by [HashTable(...)] and [set], the hash of every
    key is an index into [buckets]: [self.buckets[index]] is never out of
    range. *)
Theorem bucket_index_in_range self key :
  HashTable.wf self ->
  0 <= HashTable._hash self key < HashTable.capacity self /\
  (Z.to_nat (HashTable._hash self key) < length (HashTable.buckets self))%nat.
Proof.
  intros [Hc _]. split; [|apply hash_index; assumption].
  pose proof (HashTable.chained_capacity Hc).
  apply hash_from_range; lia.
Qed.

Lemma set_result_unique self key value (r : HashTable.t V) :
  HashTable.wf self ->
  HashTable.set self key value = Some r ->
  HashTable.wf r /\
  HashTable.get r key = Some value /\
  (forall k, k <> key -> HashTable.get r k = HashTable.get self k).
Proof.
  intros Hwf Hset.
  destruct (set_spec key value Hwf) as (r' & Hset' & Hwf' & Hg & Hother & _).
  rewrite Hset in Hset'. injection Hset' as <-. auto.
Qed.

(** What [set] does to the capacity. *)
Lemma set_capacity self key value :
  HashTable.wf self ->
  exists self',
    HashTable.set self key value = Some self' /\
    HashTable.capacity self'
    = match HashTable.get self key with
      | Some _ => HashTable.capacity self
      | None =>
          if 3 * HashTable.capacity self <? 4 * (HashTable.size self + 1)
          then HashTable.capacity self * 2
          else HashTable.capacity self
      end.
Proof.
  intros Hwf. rewrite (set_two_levels key value Hwf).
  destruct Hwf as [Hc Hload]. rewrite set_fuel_unfold.
  destruct (HashTable.get self key) as [v0|] eqn:Hg.
  - destruct (get_some_find _ _ Hg) as (pos & kv & Hfind). rewrite Hfind.
    eexists. split; reflexivity.
  - rewrite (get_none_find _ _ Hg).
    destruct (appended_spec key value Hc Hg) as (Hc1 & _).
    change (HashTable.overloaded (HashTable.appended self key value))
      with (3 * HashTable.capacity self <? 4 * (HashTable.size self + 1)).
    destruct (3 * HashTable.capacity self <? 4 * (HashTable.size self + 1)) eqn:Hover.
    + destruct (@resize_spec V 0 (HashTable.appended self key value))
        as (self' & Hres & _ & Hcap & _); auto.
      { unfold HashTable.appended. cbn [HashTable.capacity HashTable.size]. lia. }
      exists self'. split; [exact Hres | exact Hcap].
    + eexists. split; reflexivity.
Qed.

(** X3.  [set] resizes exactly when it adds a new key and the load after the
    insertion exceeds 0.75: then the capacity doubles; in all other cases,
    and always when the key was already there, the capacity stays.  After
    the call the load is at most 0.75 and there are as many buckets as the
    capacity says. *)
Theorem set_resizes_exactly_when_overloaded self key value :
  HashTable.wf self ->
  exists self',
    HashTable.set self key value = Some self' /\
    HashTable.capacity self'
    = match HashTable.get self key with
      | Some _ => HashTable.capacity self
      | None =>
          if 3 * HashTable.capacity self <? 4 * (HashTable.size self + 1)
          then HashTable.capacity self * 2
          else HashTable.capacity self
      end /\
    4 * HashTable.size self' <= 3 * HashTable.capacity self' /\
    length (HashTable.buckets self') = Z.to_nat (HashTable.capacity self').
Proof.
  intros Hwf. destruct (set_capacity key value Hwf) as (self' & Hset & Hcap).
  exists self'. split; [exact Hset|]. split; [exact Hcap|].
  destruct (set_result_unique _ _ Hwf Hset) as ([Hc Hload] & _).
  split; [exact Hload | apply Hc].
Qed.
End HashTableMore.

Lemma bucket_index_in_range_witness :
  0 <= HashTable._hash (HashTable.init Z 8) "campus" < HashTable.capacity (HashTable.init Z 8) /\
  (Z.to_nat (HashTable._hash (HashTable.init Z 8) "campus")
   < length (HashTable.buckets (HashTable.init Z 8)))%nat.
Proof. apply bucket_index_in_range. apply wf_init. Defined.

Section HashTableSequences.
Variable V : Type.
Implicit Types (self : HashTable.t V) (key : string) (value : V).

Lemma set_full self key value :
  HashTable.wf self ->
  exists self',
    HashTable.set self key value = Some self' /\
    HashTable.wf self' /\
    (forall k, HashTable.get self' k
               = if String.eqb key k then Some value else HashTable.get self k) /\
    HashTable.size self' = HashTable.size self + (if absent self key then 1 else 0) /\
    HashTable.capacity self'
    = match HashTable.get self key with
      | Some _ => HashTable.capacity self
      | None =>
          if 3 * HashTable.capacity self <? 4 * (HashTable.size self + 1)
          then HashTable.capacity self * 2
          else HashTable.capacity self
      end.
Proof.
  intros Hwf.
  destruct (set_spec key value Hwf) as (self' & Hset & Hwf' & Hg & Hother & Hcase).
  destruct (set_capacity key value Hwf) as (self2 & Hset2 & Hcap).
  rewrite Hset in Hset2. injection Hset2 as <-.
  exists self'. split_and; auto.
  - intros k. destruct (String.eqb_spec key k) as [<-|Hne]; auto.
  - unfold absent. destruct (HashTable.get self key); [lia | tauto].
Qed.

(** A sequence of [set]s: the table answers with the value written last. *)
Lemma set_all_general (kvs : list (string * V)) :
  forall self,
    HashTable.wf self ->
    exists self',
      HashTable.set_all self kvs = Some self' /\
      HashTable.wf self' /\
      (forall k, HashTable.get self' k
                 = match HashTable.chain_get k (rev kvs) with
                   | Some v => Some v
                   | None => HashTable.get self k
                   end) /\
      HashTable.size self'
      = HashTable.size self
        + Z.of_nat (length (filter (absent self) (first_seen String.eqb (map fst kvs)))).
Proof.
  induction kvs as [|[k v] kvs IH]; intros self Hwf.
  - exists self. cbn. split_and; auto. lia.
  - destruct (set_full k v Hwf) as (self1 & Hset & Hwf1 & Hget1 & Hsize1 & _).
    destruct (IH self1 Hwf1) as (self' & Hall & Hwf' & Hget & Hsize).
    exists self'. rewrite set_all_cons. cbn [fst snd]. rewrite Hset.
    split; [exact Hall|]. split; [exact Hwf'|]. split.
    + intros k0. rewrite Hget, Hget1. cbn [rev]. rewrite chain_get_app, chain_get_cons.
      destruct (HashTable.chain_get k0 (rev kvs)); [reflexivity|].
      destruct (String.eqb k k0); reflexivity.
    + rewrite Hsize, Hsize1. cbn [map fst first_seen filter].
      assert (E : filter (absent self1) (first_seen String.eqb (map fst kvs))
                  = filter (absent self)
                      (filter (fun y => negb (String.eqb k y))
                              (first_seen String.eqb (map fst kvs)))).
      { rewrite <- filter_and. apply filter_ext. intros y.
        unfold absent. rewrite Hget1.
        destruct (String.eqb k y); [|rewrite andb_true_r; reflexivity].
        rewrite andb_false_r. reflexivity. }
      rewrite E. destruct (absent self k); cbn [length]; lia.
Qed.

Lemma set_grown (first : Z) self key value :
  HashTable.wf self -> grown first self ->
  forall self', HashTable.set self key value = Some self' -> grown first self'.
Proof.
  intros Hwf (n & Hcap & Hmin) self' Hset.
  destruct (set_full key value Hwf) as (r & Hset' & _ & _ & Hsize & Hcap').
  rewrite Hset in Hset'. injection Hset' as <-.
  unfold absent in Hsize.
  destruct (HashTable.get self key) as [v0|].
  - exists n. rewrite Hcap', Hsize. split; [exact Hcap | destruct Hmin; [auto | right; lia]].
  - destruct (3 * HashTable.capacity self <? 4 * (HashTable.size self + 1)) eqn:Hover.
    + apply Z.ltb_lt in Hover. exists (S n). rewrite Hcap', Hsize, Hcap. split.
      * rewrite Nat2Z.inj_succ, Z.pow_succ_r by lia. ring.
      * right. rewrite <- Hcap. lia.
    + exists n. rewrite Hcap', Hsize. split; [exact Hcap | destruct Hmin; [auto | right; lia]].
Qed.

Lemma set_all_grown (first : Z) (kvs : list (string * V)) :
  forall self,
    HashTable.wf self -> grown first self ->
    forall self', HashTable.set_all self kvs = Some self' -> grown first self'.
Proof.
  induction kvs as [|[k v] kvs IH]; intros self Hwf Hgrown self' Hall.
  - injection Hall as <-. exact Hgrown.
  - rewrite set_all_cons in Hall. cbn [fst snd] in Hall.
    destruct (HashTable.set self k v) as [self1|] eqn:Hset; [|discriminate].
    destruct (set_result_unique _ _ Hwf Hset) as (Hwf1 & _).
    eapply IH; [exact Hwf1 | | exact Hall].
    eapply set_grown; [exact Hwf | exact Hgrown | exact Hset].
Qed.
End HashTableSequences.

Lemma set_resizes_exactly_when_overloaded_witness :
  let self :=
    match HashTable.set_all (HashTable.init Z 8)
            [("a", 1); ("b", 2); ("c", 3); ("d", 4); ("e", 5); ("f", 6)] with
    | Some table => table
    | None => HashTable.init Z 8
    end in
  HashTable.size self = 6 /\
  HashTable.capacity self = 8 /\
  HashTable.get self "g" = None /\
  exists self',
    HashTable.set self "g" 7 = Some self' /\
    HashTable.capacity self' = 16 /\
    4 * HashTable.size self' <= 3 * HashTable.capacity self' /\
    length (HashTable.buckets self') = 16%nat.
Proof.
  intros self.
  assert (Hwf : HashTable.wf self).
  { destruct (@set_all_general Z
                [("a", 1); ("b", 2); ("c", 3); ("d", 4); ("e", 5); ("f", 6)]
                (HashTable.init Z 8) (wf_init Z 8)) as (table & Hall & Hwf & _).
    unfold self. rewrite Hall. exact Hwf. }
  split; [vm_compute; reflexivity|].
  split; [vm_compute; reflexivity|].
  split; [vm_compute; reflexivity|].
  destruct (@set_resizes_exactly_when_overloaded Z self "g" 7 Hwf)
    as (self' & Hset & Hcap & Hload & Hlen).
  assert (Hsixteen : HashTable.capacity self' = 16).
  { rewrite Hcap. vm_compute. reflexivity. }
  exists self'. split; [exact Hset|]. split; [exact Hsixteen|].
  split; [exact Hload|]. rewrite Hlen, Hsixteen. reflexivity.
Defined.

Lemma absent_init (V : Type) (capacity : Z) (keys : list string) :
  filter (absent (HashTable.init V capacity)) keys = keys.
Proof.
  induction keys as [|k keys IH]; [reflexivity|].
  cbn [filter]. unfold absent at 1. rewrite get_init, IH. reflexivity.
Qed.

Lemma chain_get_rev_last (V : Type) (before after : list (string * V)) (k : string) (v : V) :
  ~ In k (map fst after) ->
  HashTable.chain_get k (rev (before ++ (k, v) :: after)) = Some v.
Proof.
  intros Hafter. rewrite rev_app_distr. cbn [rev]. rewrite <- !app_assoc.
  rewrite chain_get_app.
  assert (E : HashTable.chain_get k (rev after) = None).
  { apply chain_get_none. rewrite map_rev. rewrite <- in_rev. assumption. }
  rewrite E. cbn [app]. rewrite chain_get_cons, String.eqb_refl. reflexivity.
Qed.

(** X4.  After any sequence of [set]s on a new table, also with repeated
    keys and across resizes: [get] returns nothing for every key that was
    never set, and for every key that was set it returns the value of the
    last [set] of that key; [size] is the number of distinct keys set, and
    the table holds one pair per key. *)
Theorem get_returns_last_value_set (V : Type) (capacity : Z) (kvs : list (string * V)) :
  exists self,
    HashTable.set_all (HashTable.init V capacity) kvs = Some self /\
    (forall k, ~ In k (map fst kvs) -> HashTable.get self k = None) /\
    (forall before k v after,
        kvs = before ++ (k, v) :: after -> ~ In k (map fst after) ->
        HashTable.get self k = Some v) /\
    HashTable.size self = Z.of_nat (length (first_seen String.eqb (map fst kvs))) /\
    NoDup (map fst (HashTable.entries self)) /\
    Z.of_nat (length (HashTable.entries self)) = HashTable.size self.
Proof.
  destruct (@set_all_general V kvs (HashTable.init V capacity) (wf_init V capacity))
    as (self & Hall & Hwf & Hget & Hsize).
  exists self. split; [exact Hall|]. split_and.
  - intros k Hk. rewrite Hget, get_init.
    assert (E : HashTable.chain_get k (rev kvs) = None).
    { apply chain_get_none. rewrite map_rev, <- in_rev. assumption. }
    rewrite E. reflexivity.
  - intros before k v after -> Hafter. rewrite Hget.
    rewrite chain_get_rev_last by assumption. reflexivity.
  - rewrite Hsize, absent_init. reflexivity.
  - apply Hwf.
  - destruct Hwf as [Hc _]. rewrite (HashTable.chained_size Hc). reflexivity.
Qed.

(** X5.  After any sequence of [set]s on a new table the capacity is the
    first capacity, [max(8, capacity)], doubled some number of times, the
    load is at most 0.75, and no doubling was superfluous: unless the table
    was never resized, half the capacity would be loaded above 0.75. *)
Theorem capacity_is_least_doubling (V : Type) (capacity : Z) (kvs : list (string * V)) :
  exists self (doublings : nat),
    HashTable.set_all (HashTable.init V capacity) kvs = Some self /\
    HashTable.capacity self = Z.max 8 capacity * 2 ^ Z.of_nat doublings /\
    4 * HashTable.size self <= 3 * HashTable.capacity self /\
    (doublings = O \/ 3 * HashTable.capacity self < 8 * HashTable.size self).
Proof.
  destruct (@set_all_general V kvs (HashTable.init V capacity) (wf_init V capacity))
    as (self & Hall & Hwf & _).
  assert (Hgrown : grown (Z.max 8 capacity) self).
  { eapply set_all_grown; [apply wf_init | | exact Hall].
    exists O. split; [|auto]. cbn [HashTable.init HashTable.capacity]. cbn. lia. }
  destruct Hgrown as (n & Hcap & Hmin).
  exists self, n. split_and; auto. apply Hwf.
Qed.

(** ** The trie as a container of words *)

(** Induction over the nodes of a trie. *)
Lemma TrieNode_induction (P : Trie.TrieNode -> Prop) :
  (forall cs e f, Forall (fun p => P (snd p)) cs -> P (Trie.Node cs e f)) ->
  forall node, P node.
Proof.
  intros H. fix IH 1. intros [cs e f]. apply H.
  revert cs. fix IHcs 1. intros [|[c child] cs].
  - constructor.
  - constructor; [apply IH | apply IHcs].
Qed.

Lemma append_length (a b : string) :
  String.length (String.append a b) = (String.length a + String.length b)%nat.
Proof. induction a as [|c a IH]; simpl; congruence. Qed.

Lemma append_inv_head (p a b : string) :
  String.append p a = String.append p b -> a = b.
Proof. induction p as [|c p IH]; simpl; intros H; [assumption|]. injection H. auto. Qed.

Section DictMembership.
Variables (K V : Type) (eqb : K -> K -> bool).
Hypothesis eqb_eq : forall a b, eqb a b = true <-> a = b.

Lemma dict_get_in (k : K) (v : V) (d : dict K V) :
  dict_get eqb k d = Some v -> In (k, v) d.
Proof.
  induction d as [|[k0 v0] d IH]; simpl; [discriminate|].
  destruct (eqb k0 k) eqn:E.
  - apply eqb_eq in E. subst k0. intros [= ->]. left. reflexivity.
  - intros H. right. auto.
Qed.

Lemma dict_get_unique (k : K) (v : V) (d : dict K V) :
  NoDup (map fst d) -> In (k, v) d -> dict_get eqb k d = Some v.
Proof.
  induction d as [|[k0 v0] d IH]; simpl; intros Hnd Hin; [contradiction|].
  inversion Hnd as [|? ? Hk Hnd']; subst.
  destruct Hin as [[= -> ->] | Hin].
  - rewrite (eqb_refl' _ eqb_eq). reflexivity.
  - destruct (eqb k0 k) eqn:E; [|auto].
    apply eqb_eq in E. subst k0. exfalso. apply Hk.
    change k with (fst (k, v)). apply in_map. assumption.
Qed.

Lemma dict_update_keys (k : K) (f : V -> V) (d : dict K V) :
  map fst (dict_update eqb k f d) = map fst d.
Proof.
  induction d as [|[k0 v0] d IH]; simpl; [reflexivity|].
  destruct (eqb k0 k); simpl; congruence.
Qed.

Lemma dict_update_forall (P : V -> Prop) (k : K) (f : V -> V) (d : dict K V) :
  (forall v, P v -> P (f v)) ->
  Forall (fun p => P (snd p)) d ->
  Forall (fun p => P (snd p)) (dict_update eqb k f d).
Proof.
  intros Hf. induction 1 as [|[k0 v0] d Hv Hd IH]; simpl; [constructor|].
  destruct (eqb k0 k); constructor; simpl in *; auto.
Qed.

Lemma dict_set_forall (P : V -> Prop) (k : K) (v : V) (d : dict K V) :
  P v -> Forall (fun p => P (snd p)) d -> Forall (fun p => P (snd p)) (dict_set eqb k v d).
Proof.
  intros Hv. induction 1 as [|[k0 v0] d Hv0 Hd IH]; simpl.
  - constructor; [assumption | constructor].
  - destruct (eqb k0 k); constructor; simpl in *; auto.
Qed.

Lemma dict_set_new_keys (k : K) (v : V) (d : dict K V) :
  NoDup (map fst d) -> dict_mem eqb k d = false -> NoDup (map fst (dict_set eqb k v d)).
Proof.
  intros Hnd Hmem. rewrite dict_set_keys, Hmem by assumption.
  apply NoDup_app; [assumption | constructor; [intros [] | constructor] |].
  intros a Ha [<- | []].
  rewrite dict_mem_keys in Hmem by assumption.
  apply (memb_In eqb eqb_eq) in Ha. congruence.
Qed.
End DictMembership.

Lemma unique_children_new_node : unique_children Trie.new_node.
Proof. constructor; constructor. Qed.

(** [insert] keeps one child per character in every node. *)
Lemma insert_at_unique (word : string) :
  forall node, unique_children node -> unique_children (Trie.insert_at word node).
Proof.
  induction word as [|ch rest IH]; intros [cs e f] Hnode;
    inversion Hnode as [cs' e' f' Hkeys Hchildren]; subst.
  - constructor; assumption.
  - cbn [Trie.insert_at Trie.children Trie.is_end Trie.frequency]. constructor.
    + rewrite dict_update_keys.
      destruct (dict_mem Ascii.eqb ch cs) eqn:E; [assumption|].
      apply dict_set_new_keys; [apply Ascii.eqb_eq | assumption | assumption].
    + apply dict_update_forall; [exact IH|].
      destruct (dict_mem Ascii.eqb ch cs); [assumption|].
      apply dict_set_forall; [apply unique_children_new_node | assumption].
Qed.

Lemma trie_of_snoc (words : list string) (word : string) :
  trie_of (words ++ [word]) = Trie.insert (trie_of words) word.
Proof. unfold trie_of. rewrite fold_left_app. reflexivity. Qed.

Lemma fold_insert_unique (words : list string) :
  forall tr, unique_children (Trie.root tr) ->
             unique_children (Trie.root (fold_left Trie.insert words tr)).
Proof.
  induction words as [|w words IH]; intros tr H; [exact H|].
  cbn [fold_left]. apply IH. unfold Trie.insert. cbn [Trie.root].
  apply insert_at_unique. assumption.
Qed.

Lemma trie_of_unique (words : list string) : unique_children (Trie.root (trie_of words)).
Proof. apply fold_insert_unique. apply unique_children_new_node. Qed.

Lemma walk_from_app (p s : string) :
  forall node,
    Trie.walk_from (String.append p s) node
    = match Trie.walk_from p node with
      | Some m => Trie.walk_from s m
      | None => None
      end.
Proof.
  induction p as [|c p IH]; intros node; [reflexivity|].
  cbn [String.append Trie.walk_from].
  destruct (dict_get Ascii.eqb c (Trie.children node)); [apply IH | reflexivity].
Qed.

Lemma walk_from_unique (p : string) :
  forall node m,
    unique_children node -> Trie.walk_from p node = Some m -> unique_children m.
Proof.
  induction p as [|c p IH]; intros [cs e f] m Hnode Hwalk.
  - injection Hwalk as <-. assumption.
  - cbn [Trie.walk_from Trie.children] in Hwalk.
    destruct (dict_get Ascii.eqb c cs) as [child|] eqn:E; [|discriminate].
    inversion Hnode as [cs' e' f' Hkeys Hchildren]; subst.
    apply (dict_get_in Ascii.eqb Ascii.eqb_eq) in E.
    rewrite Forall_forall in Hchildren.
    eapply IH; [|exact Hwalk]. apply (Hchildren (c, child)). assumption.
Qed.

(** What the traversal collects below a node is what the walks from the node
    reach: a terminal node at the end of a path, with its frequency. *)
Lemma terminals_walk :
  forall node, unique_children node ->
  forall p s f,
    In (s, f) (Trie.terminals node p) ->
    exists path n,
      s = String.append p path /\ Trie.walk_from path node = Some n /\
      Trie.is_end n = true /\ Trie.frequency n = f.
Proof.
  induction node as [cs e f0 IH] using TrieNode_induction.
  intros Hnode p s f Hin.
  inversion Hnode as [cs' e' f' Hkeys Hchildren]; subst.
  cbn [Trie.terminals] in Hin. apply in_app_iff in Hin. destruct Hin as [Hown | Hbelow].
  - destruct e; [|contradiction]. destruct Hown as [[= <- <-] | []].
    exists EmptyString, (Trie.Node cs true f0).
    rewrite append_empty_r. split_and; auto.
  - apply in_flat_map in Hbelow. destruct Hbelow as ([c child] & Hchild & Hin).
    cbn [fst snd] in Hin.
    rewrite Forall_forall in IH, Hchildren.
    destruct (IH (c, child) Hchild (Hchildren (c, child) Hchild) _ _ _ Hin)
      as (path & n & -> & Hwalk & Hend & Hfreq).
    exists (String c path), n. rewrite snoc_append. split; [reflexivity|].
    cbn [Trie.walk_from Trie.children].
    rewrite (dict_get_unique Ascii.eqb Ascii.eqb_eq c child cs Hkeys Hchild).
    auto.
Qed.

Lemma walk_terminals (path : string) :
  forall node p n,
    Trie.walk_from path node = Some n -> Trie.is_end n = true ->
    In (String.append p path, Trie.frequency n) (Trie.terminals node p).
Proof.
  induction path as [|c path IH]; intros [cs e f] p n Hwalk Hend.
  - injection Hwalk as <-. cbn in Hend. subst e.
    rewrite append_empty_r. cbn [Trie.terminals Trie.frequency]. left. reflexivity.
  - cbn [Trie.walk_from Trie.children] in Hwalk.
    destruct (dict_get Ascii.eqb c cs) as [child|] eqn:E; [|discriminate].
    apply (dict_get_in Ascii.eqb Ascii.eqb_eq) in E.
    cbn [Trie.terminals]. apply in_app_iff. right.
    apply in_flat_map. exists (c, child). split; [assumption|].
    cbn [fst snd]. rewrite <- snoc_append. apply IH; assumption.
Qed.

(** No string is collected twice. *)
Lemma terminals_distinct :
  forall node, unique_children node ->
  forall p, NoDup (map fst (Trie.terminals node p)).
Proof.
  induction node as [cs e f0 IH] using TrieNode_induction.
  intros Hnode p.
  inversion Hnode as [cs' e' f' Hkeys Hchildren]; subst.
  assert (Hbelow : forall c child s,
             In (c, child) cs ->
             In s (map fst (Trie.terminals child (Str.snoc p c))) ->
             exists path, s = String.append p (String c path)).
  { intros c child s Hchild Hs. apply in_map_iff in Hs.
    destruct Hs as ([s' f] & <- & Hin).
    rewrite Forall_forall in Hchildren.
    destruct (terminals_walk (Hchildren (c, child) Hchild) _ _ _ Hin)
      as (path & n & -> & _).
    exists path. apply snoc_append. }
  cbn [Trie.terminals]. rewrite map_app. apply NoDup_app.
  - destruct e; cbn; repeat constructor. intros [].
  - clear Hnode. induction cs as [|[c child] cs IHcs]; [constructor|].
    cbn [flat_map fst snd]. rewrite map_app.
    inversion Hkeys as [|? ? Hc Hkeys']; subst.
    inversion Hchildren as [|? ? Hchild Hchildren']; subst.
    inversion IH as [|? ? IHchild IHrest]; subst.
    apply NoDup_app.
    + apply IHchild. assumption.
    + apply IHcs; auto. intros c' child' s Hin. apply Hbelow. right. assumption.
    + intros s Hs Hs'.
      destruct (Hbelow c child s (or_introl eq_refl) Hs) as (path & ->).
      apply in_map_iff in Hs'. destruct Hs' as ([s' f] & Es & Hin).
      apply in_flat_map in Hin. destruct Hin as ([c' child'] & Hchild' & Hin).
      cbn [fst snd] in *.
      destruct (Hbelow c' child' s') as (path' & ->).
      { right. assumption. }
      { apply in_map_iff. exists (s', f). auto. }
      apply append_inv_head in Es. injection Es as -> _.
      apply Hc. change c with (fst (c, child')). apply in_map. assumption.
  - intros s Hown Hs. apply in_map_iff in Hs. destruct Hs as ([s' f] & Es & Hin).
    apply in_flat_map in Hin. destruct Hin as ([c child] & Hchild & Hin).
    cbn [fst snd] in *. subst s'.
    destruct (Hbelow c child s Hchild) as (path & ->).
    { apply in_map_iff. exists (s, f). auto. }
    destruct e; [|contradiction]. destruct Hown as [Hp | []]. cbn in Hp.
    apply (f_equal String.length) in Hp. rewrite append_length in Hp. simpl in Hp. lia.
Qed.

Section FirstnFacts.
Variable A : Type.

Lemma in_firstn (n : nat) (l : list A) (x : A) : In x (firstn n l) -> In x l.
Proof.
  intros H. rewrite <- (firstn_skipn n l). apply in_app_iff. left. assumption.
Qed.

Lemma NoDup_firstn (n : nat) (l : list A) : NoDup l -> NoDup (firstn n l).
Proof.
  intros H. rewrite <- (firstn_skipn n l) in H. eapply NoDup_app_remove_r. exact H.
Qed.

Lemma StronglySorted_firstn (R : A -> A -> Prop) (n : nat) (l : list A) :
  StronglySorted R l -> StronglySorted R (firstn n l).
Proof.
  intros H. revert n. induction H as [|x l Hl IH Hx]; intros [|n]; cbn; try constructor.
  - apply IH.
  - apply Forall_forall. intros y Hy. rewrite Forall_forall in Hx.
    apply Hx. eapply in_firstn. exact Hy.
Qed.

Lemma slice_to_firstn (limit : Z) (l : list A) :
  exists n, slice_to limit l = firstn n l /\ (0 <= limit -> n = Z.to_nat limit).
Proof.
  unfold slice_to. destruct (0 <=? limit) eqn:E.
  - eexists. split; [reflexivity | reflexivity].
  - apply Z.leb_gt in E. eexists. split; [reflexivity | lia].
Qed.
End FirstnFacts.

Lemma StronglySorted_map_fst (rank : string -> Z) (l : list (string * Z)) :
  Forall (fun x => snd x = rank (fst x)) l ->
  StronglySorted (fun a b => snd a >= snd b) l ->
  StronglySorted (fun a b => rank a >= rank b) (map fst l).
Proof.
  intros Hrank Hsorted.
  induction Hsorted as [|x l Hl IH Hx]; cbn; constructor;
    inversion Hrank as [|? ? Hx' Hrank']; subst.
  - apply IH. assumption.
  - apply Forall_forall. intros t Ht. apply in_map_iff in Ht.
    destruct Ht as (y & <- & Hy). rewrite Forall_forall in Hx, Hrank'.
    rewrite <- Hx', <- (Hrank' y Hy). apply Hx. assumption.
Qed.

Lemma trie_of_counts (words : list string) (word : string) :
  Trie.frequency_at (Trie.root (trie_of words)) word
  = Z.of_nat (count_occ string_dec words word) /\
  Trie.is_end_at (Trie.root (trie_of words)) word = memb String.eqb word words.
Proof.
  destruct (fold_insert_frequency words Trie.init word) as [Hf He].
  unfold trie_of. rewrite Hf, He. cbn [Trie.init Trie.root].
  rewrite frequency_at_new_node, is_end_at_new_node. split; [lia | reflexivity].
Qed.

Lemma trie_of_walk (words : list string) (word : string) :
  In word words ->
  exists n,
    Trie.walk_from word (Trie.root (trie_of words)) = Some n /\
    Trie.is_end n = true /\
    Trie.frequency n = Z.of_nat (count_occ string_dec words word).
Proof.
  intros Hin. destruct (trie_of_counts words word) as [Hf He].
  apply (memb_In String.eqb String.eqb_eq) in Hin. rewrite Hin in He.
  unfold Trie.frequency_at, Trie.is_end_at in *.
  destruct (Trie.walk_from word (Trie.root (trie_of words))) as [n|]; [|discriminate].
  exists n. auto.
Qed.

(** The ranked collection behind [autocomplete] on a trie built from words:
    the words with the prefix, each once, with the number of its insertions. *)
Lemma autocomplete_ranked (words : list string) (prefix : string) (limit : Z) :
  exists ranked n,
    Trie.autocomplete (trie_of words) prefix limit = map fst (firstn n ranked) /\
    (0 <= limit -> n = Z.to_nat limit) /\
    NoDup (map fst ranked) /\
    StronglySorted (fun a b => snd a >= snd b) ranked /\
    (forall t f,
        In (t, f) ranked
        <-> In t words /\ Str.startswith t prefix = true /\
            f = Z.of_nat (count_occ string_dec words t)).
Proof.
  unfold Trie.autocomplete, Trie._walk.
  destruct (Trie.walk_from prefix (Trie.root (trie_of words))) as [node|] eqn:Hwalk.
  - cbv zeta.
    set (collected := Trie.bfs [(node, prefix)] []).
    set (ranked := sort_desc (@snd string Z) collected).
    assert (Hperm : Permutation ranked (Trie.terminals node prefix)).
    { unfold ranked. rewrite sort_desc_perm. unfold collected. rewrite bfs_collects.
      cbn [flat_map fst snd app]. rewrite app_nil_r. reflexivity. }
    assert (Hnode : unique_children node).
    { eapply walk_from_unique; [apply trie_of_unique | exact Hwalk]. }
    destruct (slice_to_firstn limit ranked) as (n & Hslice & Hn).
    exists ranked, n. rewrite Hslice. split; [reflexivity|]. split; [exact Hn|].
    split; [|split].
    + eapply Permutation_NoDup; [apply Permutation_map; symmetry; exact Hperm|].
      apply terminals_distinct. assumption.
    + apply sort_desc_sorted.
    + intros t f. split.
      * intros Hin. apply (Permutation_in _ Hperm) in Hin.
        destruct (terminals_walk Hnode _ _ _ Hin) as (path & m & -> & Hpath & Hend & Hfreq).
        destruct (trie_of_counts words (String.append prefix path)) as [Hf He].
        unfold Trie.frequency_at, Trie.is_end_at in Hf, He.
        rewrite walk_from_app, Hwalk, Hpath in Hf, He.
        split; [|split].
        -- apply (memb_In String.eqb String.eqb_eq). congruence.
        -- apply startswith_spec. exists path. reflexivity.
        -- congruence.
      * intros (Hin & Hstarts & ->).
        apply startswith_spec in Hstarts. destruct Hstarts as (path & ->).
        destruct (trie_of_walk _ _ Hin) as (m & Hm & Hend & Hfreq).
        rewrite walk_from_app, Hwalk in Hm.
        apply (Permutation_in _ (Permutation_sym Hperm)).
        rewrite <- Hfreq. apply walk_terminals; assumption.
  - exists [], (Z.to_nat limit). rewrite firstn_nil.
    split; [reflexivity|]. split; [reflexivity|].
    split; [constructor|]. split; [constructor|].
    intros t f. split; [intros []|].
    intros (Hin & Hstarts & _). apply startswith_spec in Hstarts.
    destruct Hstarts as (path & ->).
    destruct (trie_of_walk _ _ Hin) as (m & Hm & _).
    rewrite walk_from_app, Hwalk in Hm. discriminate.
Qed.

(** X6.  A trie built by any sequence of [insert]s counts its words: the
    frequency at the end of a word's walk is the number of times the word
    was inserted (0 for a word never inserted), the node is terminal exactly
    for the inserted words, and the walk along every prefix of an inserted
    word stays inside the trie. *)
Theorem trie_counts_insertions (words : list string) (word : string) :
  Trie.frequency_at (Trie.root (trie_of words)) word
  = Z.of_nat (count_occ string_dec words word) /\
  (Trie.is_end_at (Trie.root (trie_of words)) word = true <-> In word words) /\
  (forall prefix rest,
      In (String.append prefix rest) words ->
      exists node, Trie._walk (trie_of words) prefix = Some node).
Proof.
  destruct (trie_of_counts words word) as [Hf He]. split; [exact Hf|]. split.
  - rewrite He. apply (memb_In String.eqb String.eqb_eq).
  - intros prefix rest Hin. destruct (trie_of_walk _ _ Hin) as (n & Hn & _).
    rewrite walk_from_app in Hn. unfold Trie._walk.
    destruct (Trie.walk_from prefix (Trie.root (trie_of words))) as [node|];
      [eauto | discriminate].
Qed.

(** X7.  On a trie built from words, for every prefix and every limit,
    [autocomplete] returns only inserted words that start with the prefix,
    no word twice, in the order of a non-increasing number of insertions. *)
Theorem autocomplete_returns_inserted_words
    (words : list string) (prefix : string) (limit : Z) :
  let result := Trie.autocomplete (trie_of words) prefix limit in
  NoDup result /\
  (forall t, In t result -> In t words /\ Str.startswith t prefix = true) /\
  StronglySorted
    (fun a b => Z.of_nat (count_occ string_dec words a)
                >= Z.of_nat (count_occ string_dec words b)) result.
Proof.
  destruct (autocomplete_ranked words prefix limit)
    as (ranked & n & Hresult & _ & Hnodup & Hsorted & Hin).
  cbv zeta. rewrite Hresult. split; [|split].
  - rewrite <- firstn_map. apply NoDup_firstn. assumption.
  - intros t Ht. apply in_map_iff in Ht. destruct Ht as ([t' f] & <- & Ht).
    apply in_firstn in Ht. apply Hin in Ht. cbn. tauto.
  - apply StronglySorted_map_fst with
      (rank := fun t => Z.of_nat (count_occ string_dec words t)).
    + apply Forall_forall. intros [t f] Ht. apply in_firstn in Ht.
      apply Hin in Ht. cbn. tauto.
    + apply StronglySorted_firstn. assumption.
Qed.

Lemma autocomplete_complete
    (words : list string) (prefix : string) (limit : Z) (word : string) :
  Z.of_nat (length (filter (fun w => Str.startswith w prefix) words)) <= limit ->
  In word words ->
  Str.startswith word prefix = true ->
  In word (Trie.autocomplete (trie_of words) prefix limit).
Proof.
  intros Hlimit Hin Hstarts.
  destruct (autocomplete_ranked words prefix limit)
    as (ranked & n & Hresult & Hn & Hnodup & _ & Hranked).
  rewrite Hresult, <- firstn_map.
  assert (Hlen : (length (map fst ranked)
                  <= length (filter (fun w => Str.startswith w prefix) words))%nat).
  { apply NoDup_incl_length; [assumption|].
    intros t Ht. apply in_map_iff in Ht. destruct Ht as ([t' f] & <- & Ht).
    apply Hranked in Ht. cbn. apply filter_In. tauto. }
  rewrite firstn_all2 by (rewrite Hn; lia).
  apply in_map_iff. exists (word, Z.of_nat (count_occ string_dec words word)).
  split; [reflexivity|]. apply Hranked. auto.
Qed.

(** X8.  With a limit of at least the number of insertions of words that
    start with the prefix nothing is cut off: every inserted word that
    starts with the prefix is returned. *)
Theorem autocomplete_returns_every_match
    (words : list string) (prefix : string) (limit : Z) (word : string) :
  Z.of_nat (length (filter (fun w => Str.startswith w prefix) words)) <= limit ->
  In word words ->
  Str.startswith word prefix = true ->
  In word (Trie.autocomplete (trie_of words) prefix limit).
Proof. apply autocomplete_complete. Qed.

Lemma autocomplete_returns_every_match_witness :
  In "apply" (Trie.autocomplete (trie_of ["apple"; "apply"; "bank"; "apply"]) "app" 3).
Proof.
  apply autocomplete_returns_every_match.
  - simpl. lia.
  - simpl. auto.
  - reflexivity.
Defined.

(** ** The tokenizer as a normal form *)

Lemma lower_char_not_upper (ch : ascii) : Str.in_range 65 90 (Str.lower_char ch) = false.
Proof. destruct ch as [[] [] [] [] [] [] [] []]; vm_compute; reflexivity. Qed.

Lemma lower_char_alnum (ch : ascii) : alnum (Str.lower_char ch) = alnum ch.
Proof. destruct ch as [[] [] [] [] [] [] [] []]; vm_compute; reflexivity. Qed.

Lemma lower_char_idempotent (ch : ascii) :
  Str.lower_char (Str.lower_char ch) = Str.lower_char ch.
Proof. destruct ch as [[] [] [] [] [] [] [] []]; vm_compute; reflexivity. Qed.

Lemma lower_alnum_split (ch : ascii) :
  lower_alnum ch = alnum ch && negb (Str.in_range 65 90 ch).
Proof. destruct ch as [[] [] [] [] [] [] [] []]; vm_compute; reflexivity. Qed.

Lemma lower_char_fixes_lower_alnum (ch : ascii) :
  lower_alnum ch = true -> Str.lower_char ch = ch.
Proof. destruct ch as [[] [] [] [] [] [] [] []]; vm_compute; congruence. Qed.

Lemma lower_idempotent (s : string) : Str.lower (Str.lower s) = Str.lower s.
Proof.
  induction s as [|ch s IH]; [reflexivity|].
  cbn [Str.lower]. rewrite lower_char_idempotent, IH. reflexivity.
Qed.

Lemma lower_append (a b : string) :
  Str.lower (String.append a b) = String.append (Str.lower a) (Str.lower b).
Proof. induction a as [|ch a IH]; cbn [String.append Str.lower]; congruence. Qed.

Lemma lower_not_upper (s : string) :
  Str.all (fun ch => negb (Str.in_range 65 90 ch)) (Str.lower s) = true.
Proof.
  induction s as [|ch s IH]; [reflexivity|].
  cbn [Str.lower Str.all]. rewrite lower_char_not_upper, IH. reflexivity.
Qed.

Lemma lower_fixes_lower_alnum (s : string) :
  Str.all lower_alnum s = true -> Str.lower s = s.
Proof.
  induction s as [|ch s IH]; [reflexivity|].
  cbn [Str.all Str.lower]. intros H. apply andb_true_iff in H. destruct H as [Hch Hs].
  rewrite (lower_char_fixes_lower_alnum _ Hch), IH by assumption. reflexivity.
Qed.

Lemma all_and (P Q : ascii -> bool) (s : string) :
  Str.all (fun ch => P ch && Q ch) s = Str.all P s && Str.all Q s.
Proof.
  induction s as [|ch s IH]; [reflexivity|].
  cbn [Str.all]. rewrite IH.
  destruct (P ch), (Q ch), (Str.all P s), (Str.all Q s); reflexivity.
Qed.

Lemma all_ext (P Q : ascii -> bool) (s : string) :
  (forall ch, P ch = Q ch) -> Str.all P s = Str.all Q s.
Proof.
  intros H. induction s as [|ch s IH]; [reflexivity|].
  cbn [Str.all]. rewrite H, IH. reflexivity.
Qed.

(** Every match of the scanner is a non-empty run of class characters. *)
Lemma findall_from_alnum (s : string) :
  forall cur,
    Str.all alnum cur = true ->
    Forall (fun t => t <> EmptyString /\ Str.all alnum t = true) (findall_from cur s).
Proof.
  induction s as [|ch s IH]; intros cur Hcur; cbn [findall_from].
  - destruct (Str.is_empty cur) eqn:E; [constructor|].
    constructor; [|constructor]. split; [|assumption].
    intros ->. discriminate.
  - destruct (alnum ch) eqn:Hch.
    + apply IH. unfold Str.snoc. rewrite all_append, Hcur. cbn. rewrite Hch. reflexivity.
    + destruct (Str.is_empty cur) eqn:E; [apply IH; reflexivity|].
      constructor; [|apply IH; reflexivity].
      split; [intros ->; discriminate | assumption].
Qed.

(** What holds of every character of the input holds of every character of
    every match. *)
Lemma findall_from_all (Q : ascii -> bool) (s : string) :
  forall cur,
    Str.all Q cur = true -> Str.all Q s = true ->
    Forall (fun t => Str.all Q t = true) (findall_from cur s).
Proof.
  induction s as [|ch s IH]; intros cur Hcur Hs; cbn [findall_from].
  - destruct (Str.is_empty cur); repeat constructor. assumption.
  - cbn [Str.all] in Hs. apply andb_true_iff in Hs. destruct Hs as [Hch Hs].
    destruct (alnum ch).
    + apply IH; [|assumption]. unfold Str.snoc. rewrite all_append, Hcur. cbn.
      rewrite Hch. reflexivity.
    + destruct (Str.is_empty cur); [apply IH; auto|].
      constructor; [assumption | apply IH; auto].
Qed.

Lemma tokenize_shape (text : string) :
  Forall (fun token =>
            token <> EmptyString /\
            Str.all lower_alnum token = true /\
            ~ In token STOPWORDS)
         (tokenize text).
Proof.
  unfold tokenize, findall_alnum. apply Forall_forall. intros token Hin.
  apply filter_In in Hin. destruct Hin as [Hin Hstop].
  pose proof (findall_from_alnum (Str.lower text) EmptyString eq_refl) as Hshape.
  pose proof (findall_from_all (fun ch => negb (Str.in_range 65 90 ch))
                (Str.lower text) EmptyString eq_refl (lower_not_upper text)) as Hlower.
  rewrite Forall_forall in Hshape, Hlower.
  destruct (Hshape _ Hin) as [Hne Halnum]. specialize (Hlower _ Hin).
  split; [exact Hne|]. split.
  - rewrite (all_ext _ _ token lower_alnum_split), all_and, Halnum, Hlower. reflexivity.
  - intros Hs. apply in_stopwords_In in Hs. rewrite Hs in Hstop. discriminate.
Qed.

(** X9.  Every token [tokenize] returns is a non-empty string of the
    characters [a-z0-9] and is not a stopword. *)
Theorem tokens_are_lowercase_terms (text : string) :
  Forall (fun token =>
            token <> EmptyString /\
            Str.all lower_alnum token = true /\
            ~ In token STOPWORDS)
         (tokenize text).
Proof. apply tokenize_shape. Qed.

Lemma findall_from_run (t : string) :
  forall cur,
    Str.all alnum t = true ->
    String.append cur t <> EmptyString ->
    findall_from cur t = [String.append cur t].
Proof.
  induction t as [|ch t IH]; intros cur Ht Hne.
  - rewrite append_empty_r in *. cbn. destruct cur; [contradiction | reflexivity].
  - cbn [Str.all] in Ht. apply andb_true_iff in Ht. destruct Ht as [Hch Ht].
    cbn [findall_from]. rewrite Hch. rewrite IH; [|assumption|].
    + rewrite snoc_append. reflexivity.
    + rewrite snoc_append. destruct cur; discriminate.
Qed.

(** X10.  A token is a fixed point of the tokenizer: tokenizing a token of
    any text gives that token alone, so an index term used as a query is
    looked up as itself. *)
Theorem tokenize_fixes_tokens (text token : string) :
  In token (tokenize text) -> tokenize token = [token].
Proof.
  intros Hin.
  pose proof (tokenize_shape text) as Hshape.
  rewrite Forall_forall in Hshape. destruct (Hshape _ Hin) as (Hne & Hlower & Hstop).
  unfold tokenize, findall_alnum. rewrite (lower_fixes_lower_alnum _ Hlower).
  rewrite (all_ext _ _ token lower_alnum_split), all_and in Hlower.
  apply andb_true_iff in Hlower. destruct Hlower as [Halnum _].
  rewrite (findall_from_run token EmptyString Halnum) by (cbn; assumption).
  cbn [String.append filter].
  destruct (in_stopwords token) eqn:E; [|reflexivity].
  apply in_stopwords_In in E. contradiction.
Qed.

Lemma tokenize_fixes_tokens_witness : tokenize "campus2024" = ["campus2024"].
Proof.
  apply (@tokenize_fixes_tokens "The Campus2024 map" "campus2024").
  vm_compute. auto.
Defined.

Lemma findall_from_separator (a : string) :
  forall cur sep b,
    alnum sep = false ->
    findall_from cur (String.append a (String sep b))
    = findall_from cur a ++ findall_from EmptyString b.
Proof.
  induction a as [|ch a IH]; intros cur sep b Hsep.
  - cbn [String.append findall_from]. rewrite Hsep.
    destruct (Str.is_empty cur); reflexivity.
  - cbn [String.append findall_from]. destruct (alnum ch).
    + apply IH. assumption.
    + destruct (Str.is_empty cur); rewrite IH by assumption; reflexivity.
Qed.

(** Lowercasing leaves an ASCII character that is neither a letter nor a
    digit as it is. *)
Lemma lower_char_ascii_separator (sep : ascii) :
  Str.in_range 0 127 sep = true -> alnum sep = false -> Str.lower_char sep = sep.
Proof.
  destruct sep as [[] [] [] [] [] [] [] []]; vm_compute;
    intros Hascii Hsep; try reflexivity; discriminate.
Qed.

(** X11.  Tokenizing splits at every ASCII character outside [a-zA-Z0-9]
    (a space, a punctuation mark, a line end): the tokens of two texts
    joined by such a character are the tokens of the first followed by the
    tokens of the second.  The separator is taken from the ASCII range, where
    lowercasing leaves every character that is not a letter as it is. *)
Theorem tokenize_splits_at_separator (a b : string) (sep : ascii) :
  Str.in_range 0 127 sep = true ->
  alnum sep = false ->
  tokenize (String.append a (String sep b)) = tokenize a ++ tokenize b.
Proof.
  intros Hascii Hsep. unfold tokenize, findall_alnum.
  rewrite lower_append. cbn [Str.lower].
  rewrite (lower_char_ascii_separator sep Hascii Hsep).
  rewrite findall_from_separator by assumption.
  apply filter_app.
Qed.

Lemma tokenize_splits_at_separator_witness :
  tokenize (String.append "exam hall" (String "," "Room 12"))
  = tokenize "exam hall" ++ tokenize "Room 12".
Proof. apply tokenize_splits_at_separator; reflexivity. Defined.

(** X12.  Letter case does not matter to the tokenizer, and so not to the
    searches that tokenize their query: a text and its lowercase form have
    the same tokens, and a query and its lowercase form give the same result
    in keyword and in prefix search. *)
Theorem search_ignores_letter_case (self : CampusSearchEngine) (text : string) :
  tokenize (Str.lower text) = tokenize text /\
  keyword_search self (Str.lower text) = keyword_search self text /\
  prefix_search self (Str.lower text) = prefix_search self text.
Proof.
  assert (E : tokenize (Str.lower text) = tokenize text).
  { unfold tokenize. rewrite lower_idempotent. reflexivity. }
  split; [exact E|].
  unfold keyword_search, prefix_search, _search. rewrite E. split; reflexivity.
Qed.

(** ** The document table *)

Lemma dict_set_fresh (V : Type) (k : Z) (v : V) (d : dict Z V) :
  ~ In k (map fst d) -> dict_set Z.eqb k v d = d ++ [(k, v)].
Proof.
  induction d as [|[k0 v0] d IH]; cbn; intros H; [reflexivity|].
  destruct (Z.eqb_spec k0 k) as [->|Hne]; [exfalso; auto|].
  rewrite IH by tauto. reflexivity.
Qed.

Lemma expected_documents_cons (counter : Z) doc (docs : list (string * string * string)) :
  expected_documents counter (doc :: docs)
  = match tokenize (snd (fst doc)) with
    | [] => expected_documents counter docs
    | tokens =>
        (counter + 1,
         {| meta_title := fst (fst doc);
            meta_filename := snd doc;
            meta_length := str_of_len (length tokens) |})
        :: expected_documents (counter + 1) docs
    end.
Proof. reflexivity. Qed.

Lemma expected_documents_ids (docs : list (string * string * string)) :
  forall counter,
    map fst (expected_documents counter docs) = map fst (accepted_from counter docs).
Proof.
  induction docs as [|doc docs IH]; intros counter; [reflexivity|].
  rewrite expected_documents_cons, accepted_from_cons.
  destruct (tokenize (snd (fst doc))); [apply IH|].
  cbn [map fst]. rewrite IH. reflexivity.
Qed.

Lemma expected_documents_sequence (docs : list (string * string * string)) :
  forall counter,
    map fst (expected_documents counter docs)
    = map (fun i => counter + Z.of_nat i)
          (seq 1 (length (expected_documents counter docs))).
Proof.
  induction docs as [|doc docs IH]; intros counter; [reflexivity|].
  rewrite expected_documents_cons.
  destruct (tokenize (snd (fst doc))); [apply IH|].
  cbn [map fst length seq]. f_equal; try lia.
  rewrite IH.
  rewrite <- (seq_shift (length (expected_documents (counter + 1) docs)) 1), map_map.
  apply map_ext. intros i. lia.
Qed.

(** The document table grows by one record per accepted document. *)
Lemma ingest_from_documents (docs : list (string * string * string)) :
  forall self,
    engine_ok self ->
    (forall id, In id (map fst (documents self)) -> id <= doc_counter self) ->
    exists self',
      ingest_from self docs = Some self' /\
      documents self' = documents self ++ expected_documents (doc_counter self) docs.
Proof.
  induction docs as [|[[title content] filename] docs IH]; intros self Hok Hids.
  - exists self. cbn. rewrite app_nil_r. auto.
  - rewrite ingest_from_cons, expected_documents_cons. cbn [fst snd].
    destruct (tokenize content) as [|token tokens] eqn:E.
    + rewrite (add_document_rejected self title content filename E). apply IH; assumption.
    + destruct (@add_document_spec self title content filename Hok)
        as (self1 & Hadd & Hok1 & _ & _ & Hcnt1 & Hdocs1).
      { rewrite E. discriminate. }
      rewrite E in Hdocs1. rewrite Hadd.
      rewrite dict_set_fresh in Hdocs1
        by (intros Hin; apply Hids in Hin; lia).
      destruct (IH self1 Hok1) as (self' & Hrun & Hdocs').
      { intros id Hin. rewrite Hdocs1, map_app, in_app_iff in Hin. rewrite Hcnt1.
        destruct Hin as [Hin | Hin]; [apply Hids in Hin; lia|].
        cbn in Hin. destruct Hin as [<- | []]. lia. }
      exists self'. split; [exact Hrun|].
      rewrite Hdocs', Hdocs1, Hcnt1, <- app_assoc. reflexivity.
Qed.

Lemma ingest_all_documents (docs : list (string * string * string)) :
  forall self,
    ingest_all docs = Some self ->
    documents self = expected_documents 0 docs /\
    doc_counter self = Z.of_nat (length (documents self)).
Proof.
  intros self Hrun.
  destruct (ingest_from_documents docs engine_ok_init) as (self1 & Hrun1 & Hdocs).
  { intros id []. }
  destruct (ingest_all_spec docs) as (self2 & Hrun2 & _ & _ & _ & _ & Hcnt).
  unfold ingest_all in *. rewrite Hrun in Hrun1, Hrun2.
  injection Hrun1 as <-. injection Hrun2 as <-.
  cbn in Hdocs. split; [exact Hdocs|].
  rewrite Hcnt, Hdocs.
  rewrite <- (length_map fst (accepted_from 0 docs)), <- expected_documents_ids, length_map.
  reflexivity.
Qed.

(** X13.  After any sequence of ingestions the document table holds one
    record per accepted document, in ingestion order, under the ids
    1, 2, ..., n, with the title and file name given and the number of
    tokens as text; the counter equals the number of records.  The next
    [add_document] returns -1 for a content without tokens and the next
    unused id otherwise. *)
Theorem documents_are_numbered_in_order
    (docs : list (string * string * string)) (title content filename : string) :
  exists self self' id,
    ingest_all docs = Some self /\
    documents self = expected_documents 0 docs /\
    map fst (documents self) = map Z.of_nat (seq 1 (length (documents self))) /\
    doc_counter self = Z.of_nat (length (documents self)) /\
    add_document self title content filename = Some (self', id) /\
    id = match tokenize content with
         | [] => -1
         | _ :: _ => Z.of_nat (length (documents self)) + 1
         end.
Proof.
  destruct (ingest_all_spec docs) as (self & Hrun & Hok & _).
  destruct (ingest_all_documents docs Hrun) as [Hdocs Hcnt].
  assert (Hnext : exists self' id,
             add_document self title content filename = Some (self', id) /\
             id = match tokenize content with
                  | [] => -1
                  | _ :: _ => doc_counter self + 1
                  end).
  { destruct (tokenize content) as [|token tokens] eqn:E.
    - exists self, (-1). split; [apply add_document_rejected; assumption | reflexivity].
    - destruct (@add_document_spec self title content filename Hok)
        as (self' & Hadd & _).
      { rewrite E. discriminate. }
      eauto. }
  destruct Hnext as (self' & id & Hadd & Hid).
  exists self, self', id. split_and; auto.
  - rewrite Hdocs at 1. rewrite expected_documents_sequence, <- Hdocs.
    apply map_ext. intros i. lia.
  - rewrite Hid, Hcnt. reflexivity.
Qed.

(** ** Scores in terms of the documents *)

Lemma posting_weight_absent (d : Z) (postings : list Posting) :
  (forall p, In p postings -> doc_id p <> d) -> posting_weight d postings = 0.
Proof.
  unfold posting_weight. induction postings as [|p postings IH]; intros H; [reflexivity|].
  cbn [map weight_of fst snd]. rewrite IH by (intros q Hq; apply H; right; assumption).
  destruct (Z.eqb_spec (doc_id p) d) as [E|_]; [|reflexivity].
  exfalso. apply (H p); [left; reflexivity | assumption].
Qed.

Lemma occurrences_absent (t : string) (tokens : list string) :
  memb String.eqb t tokens = false -> occurrences t tokens = 0.
Proof.
  intros H. unfold occurrences.
  rewrite (proj1 (count_occ_not_In string_dec tokens t)); [reflexivity|].
  intros Hin. apply (memb_In String.eqb String.eqb_eq) in Hin. congruence.
Qed.

Lemma occurrences_nonneg (t : string) (tokens : list string) : 0 <= occurrences t tokens.
Proof. unfold occurrences. lia. Qed.

(** Under one term, a document weighs the occurrences of the term in it. *)
Lemma posting_weight_expected (accepted : list (Z * list string)) (t : string) :
  StronglySorted (fun a b => fst a < fst b) accepted ->
  forall d tokens,
    In (d, tokens) accepted ->
    posting_weight d (expected_postings accepted t) = occurrences t tokens.
Proof.
  induction 1 as [|doc accepted Hs IH Hdoc]; intros d tokens Hin; [contradiction|].
  rewrite expected_postings_cons, posting_weight_app.
  rewrite Forall_forall in Hdoc.
  destruct Hin as [-> | Hin].
  - cbn [fst snd]. rewrite (@posting_weight_absent d (expected_postings accepted t)).
    + destruct (memb String.eqb t tokens) eqn:E.
      * unfold posting_weight. cbn. rewrite Z.eqb_refl. lia.
      * rewrite occurrences_absent by assumption. reflexivity.
    + intros p Hp. destruct (expected_postings_in _ _ _ Hp) as (doc' & Hin' & Hid & _).
      apply Hdoc in Hin'. cbn in Hin'. lia.
  - rewrite (IH _ _ Hin). apply Hdoc in Hin. cbn in Hin.
    rewrite posting_weight_absent; [lia|].
    intros p Hp. destruct (memb String.eqb t (snd doc)); [|contradiction].
    destruct Hp as [<- | []]. cbn. lia.
Qed.

Lemma posting_weight_terms (accepted : list (Z * list string)) (terms : list string) :
  StronglySorted (fun a b => fst a < fst b) accepted ->
  forall d tokens,
    In (d, tokens) accepted ->
    posting_weight d (flat_map (expected_postings accepted) terms)
    = total_occurrences terms tokens.
Proof.
  intros Hs d tokens Hin. induction terms as [|t terms IH]; [reflexivity|].
  cbn [flat_map total_occurrences fold_right]. rewrite posting_weight_app.
  rewrite (posting_weight_expected t Hs _ _ Hin). unfold total_occurrences in IH.
  rewrite IH. reflexivity.
Qed.

Lemma total_occurrences_positive (terms tokens : list string) :
  1 <= total_occurrences terms tokens
  <-> exists t, In t terms /\ memb String.eqb t tokens = true.
Proof.
  induction terms as [|t terms IH]; cbn [total_occurrences fold_right].
  - split; [lia | intros (t & [] & _)].
  - fold (total_occurrences terms tokens). split.
    + intros H. destruct (memb String.eqb t tokens) eqn:E.
      * exists t. split; [left; reflexivity | assumption].
      * rewrite occurrences_absent in H by assumption.
        destruct (proj1 IH) as (t' & Hin & Ht'); [lia|].
        exists t'. split; [right; assumption | assumption].
    + intros (t' & [<- | Hin] & Ht').
      * pose proof (occurrences_positive _ _ Ht').
        assert (0 <= total_occurrences terms tokens).
        { clear. induction terms as [|x terms IHt]; cbn; [lia|].
          pose proof (occurrences_nonneg x tokens).
          fold (total_occurrences terms tokens). lia. }
        lia.
      * pose proof (occurrences_nonneg t tokens).
        assert (1 <= total_occurrences terms tokens) by (apply IH; eauto).
        lia.
Qed.

Lemma stream_ids (accepted : list (Z * list string)) (terms : list string) (d : Z) :
  In d (map doc_id (flat_map (expected_postings accepted) terms))
  <-> exists tokens t,
        In (d, tokens) accepted /\ In t terms /\ memb String.eqb t tokens = true.
Proof.
  rewrite in_map_iff. split.
  - intros (p & <- & Hp). apply in_flat_map in Hp. destruct Hp as (t & Ht & Hp).
    destruct (expected_postings_in _ _ _ Hp) as ([id tokens] & Hin & Hid & _ & Hm).
    cbn in *. exists tokens, t. rewrite Hid. auto.
  - intros (tokens & t & Hin & Ht & Hm).
    exists {| doc_id := d; term_freq := occurrences t tokens |}. split; [reflexivity|].
    apply in_flat_map. exists t. split; [assumption|].
    unfold expected_postings. apply in_flat_map. exists (d, tokens).
    split; [assumption|]. cbn [fst snd]. rewrite Hm. left. reflexivity.
Qed.

(** X14.  After any sequence of ingestions, [keyword_search] returns a
    document exactly when its content holds at least one token of the
    query, and its score is the number of occurrences in the content of all
    query tokens together, a token repeated in the query counted each time;
    the score is at least 1. *)
Theorem keyword_search_counts_occurrences
    (docs : list (string * string * string)) (query : string) :
  exists self,
    ingest_all docs = Some self /\
    forall d score,
      In (d, score) (keyword_search self query)
      <-> exists tokens,
            In (d, tokens) (accepted_from 0 docs) /\
            score = total_occurrences (tokenize query) tokens /\
            1 <= score.
Proof.
  destruct (ingest_all_spec docs) as (self & Hrun & _ & Hpost & _).
  exists self. split; [exact Hrun|].
  intros d score. unfold keyword_search.
  pose proof (search_spec self query false) as Hs. cbv zeta in Hs.
  rewrite candidate_terms_keyword in Hs. rewrite Hs. clear Hs.
  rewrite (flat_map_ext _ _ Hpost).
  set (accepted := accepted_from 0 docs).
  set (stream := flat_map (expected_postings accepted) (tokenize query)).
  assert (Hsorted : StronglySorted (fun a b => fst a < fst b) accepted)
    by apply accepted_from_ids.
  split.
  - intros Hin. apply (Permutation_in _ (sort_desc_perm _ _)) in Hin.
    apply in_map_iff in Hin. destruct Hin as (d' & [= -> <-] & Hd).
    apply (proj1 (first_seen_In Z.eqb Z.eqb_eq _ _)) in Hd.
    apply stream_ids in Hd. destruct Hd as (tokens & t & Hin & Ht & Hm).
    exists tokens. split; [assumption|].
    unfold stream. rewrite (posting_weight_terms (tokenize query) Hsorted _ _ Hin).
    split; [reflexivity|]. apply total_occurrences_positive. eauto.
  - intros (tokens & Hin & -> & Hpos).
    apply (Permutation_in _ (Permutation_sym (sort_desc_perm _ _))).
    apply in_map_iff. exists d. split.
    + unfold stream. rewrite (posting_weight_terms (tokenize query) Hsorted _ _ Hin).
      reflexivity.
    + apply (proj2 (first_seen_In Z.eqb Z.eqb_eq _ _)). apply stream_ids.
      apply total_occurrences_positive in Hpos. destruct Hpos as (t & Ht & Hm).
      exists tokens, t. auto.
Qed.

(** ** File name search and the route [/search] *)

Lemma startswith_contains (s p : string) :
  Str.startswith s p = true -> Str.contains s p = true.
Proof. intros H. destruct s; cbn [Str.contains]; rewrite H; reflexivity. Qed.

Lemma filename_search_as_filter (self : CampusSearchEngine) (query : string) (prefix : bool) :
  filename_search self query prefix
  = if Str.is_empty (Str.lower (Str.strip query)) then []
    else
      map (fun item => (fst item, 1))
        (filter (fun item =>
                   if prefix
                   then Str.startswith (Str.lower (meta_filename (snd item)))
                          (Str.lower (Str.strip query))
                   else Str.contains (Str.lower (meta_filename (snd item)))
                          (Str.lower (Str.strip query)))
                (documents self)).
Proof.
  unfold filename_search. cbv zeta.
  destruct (Str.is_empty (Str.lower (Str.strip query))) eqn:E; [reflexivity|].
  rewrite (filename_scan _ prefix (documents self) E). reflexivity.
Qed.

Lemma NoDup_keys_filter (A B : Type) (keep : A * B -> bool) (l : list (A * B)) :
  NoDup (map fst l) -> NoDup (map fst (filter keep l)).
Proof.
  induction l as [|item l IH]; cbn [map filter]; intros Hnodup; [constructor|].
  apply NoDup_cons_iff in Hnodup. destruct Hnodup as [Hfresh Hnodup].
  destruct (keep item); [|auto].
  cbn [map]. constructor; [|auto].
  intros Hin. apply Hfresh.
  apply in_map_iff in Hin. destruct Hin as (item' & E & Hin).
  apply filter_In in Hin. apply in_map_iff. exists item'. tauto.
Qed.

Lemma accepted_ids_distinct (docs : list (string * string * string)) (counter : Z) :
  NoDup (map fst (accepted_from counter docs)).
Proof.
  destruct (accepted_from_ids docs counter) as [_ Hsorted].
  remember (accepted_from counter docs) as accepted eqn:Eaccepted. clear Eaccepted.
  induction Hsorted as [|doc accepted Hs IH Hdoc]; cbn [map]; constructor; [|assumption].
  rewrite in_map_iff. intros (other & Hid & Hin).
  rewrite Forall_forall in Hdoc. apply Hdoc in Hin. lia.
Qed.

(** X15.  In every state and for every query: what [filename_search] finds
    with [prefix=True] it also finds with [prefix=False]; every result has
    score 1 and names a record of the document table; there are at most as
    many results as documents; and a query that is empty after trimming
    finds nothing.  In every state reached by ingestion, moreover, no
    document id is returned twice: a stored document gives at most one
    hit. *)
Theorem filename_search_results :
  (forall (self : CampusSearchEngine) (query : string) (prefix : bool),
      incl (filename_search self query true) (filename_search self query false) /\
      Forall (fun r => snd r = 1 /\ exists meta, In (fst r, meta) (documents self))
             (filename_search self query prefix) /\
      (length (filename_search self query prefix) <= length (documents self))%nat /\
      (if Str.is_empty (Str.strip query) then filename_search self query prefix = []
       else True)) /\
  (forall docs : list (string * string * string),
      exists self,
        ingest_all docs = Some self /\
        NoDup (map fst (documents self)) /\
        forall (query : string) (prefix : bool),
          NoDup (map fst (filename_search self query prefix))).
Proof.
  split.
  - intros self query prefix.
    rewrite !filename_search_as_filter.
    destruct (Str.is_empty (Str.strip query)) eqn:Estrip.
    { apply is_empty_true in Estrip. rewrite Estrip. cbn.
      split_and; auto; [intros x [] | lia]. }
    destruct (Str.is_empty (Str.lower (Str.strip query))) eqn:E.
    { cbn. split_and; auto; [intros x [] | lia]. }
    split_and; auto.
    + intros r Hr. apply in_map_iff in Hr. destruct Hr as (item & <- & Hitem).
      apply filter_In in Hitem. destruct Hitem as [Hitem Hmatch].
      apply in_map_iff. exists item. split; [reflexivity|].
      apply filter_In. split; [assumption | apply startswith_contains; assumption].
    + apply Forall_forall. intros r Hr. apply in_map_iff in Hr.
      destruct Hr as ([id meta] & <- & Hitem). apply filter_In in Hitem.
      cbn. split; [reflexivity|]. exists meta. tauto.
    + rewrite length_map. apply filter_length_le.
  - intros docs. destruct (ingest_all_spec docs) as (self & Hrun & _).
    destruct (ingest_all_documents docs Hrun) as [Hdocs _].
    assert (Hkeys : NoDup (map fst (documents self))).
    { rewrite Hdocs, expected_documents_ids. apply accepted_ids_distinct. }
    exists self. split; [exact Hrun|]. split; [exact Hkeys|].
    intros query prefix. rewrite filename_search_as_filter.
    destruct (Str.is_empty (Str.lower (Str.strip query))); [constructor|].
    rewrite map_map. cbn [fst].
    apply (NoDup_keys_filter _ _ Hkeys).
Qed.

Lemma dict_get_of_key (V : Type) (k : Z) (d : dict Z V) :
  In k (map fst d) -> exists v, dict_get Z.eqb k d = Some v.
Proof.
  induction d as [|[k0 v0] d IH]; cbn; [intros []|].
  intros H. destruct (Z.eqb_spec k0 k) as [_|Hne]; [eauto|].
  apply IH. tauto.
Qed.

(** The loop of the route over a ranking whose documents all have a
    record. *)
Lemma route_loop (docs : dict Z DocMeta) (ranked : list (Z * Z)) :
  (forall item, In item ranked -> In (fst item) (map fst docs)) ->
  forall results0,
    exists results,
      fold_left
        (fun results item =>
           match dict_get Z.eqb (fst item) docs with
           | None => results
           | Some meta =>
               results ++ [{| result_title := meta_title meta;
                              result_filename := meta_filename meta;
                              result_score := snd item |}]
           end) ranked results0 = results0 ++ results /\
      Forall2 (fun item result =>
                 result_score result = snd item /\
                 exists meta,
                   In (fst item, meta) docs /\
                   result_title result = meta_title meta /\
                   result_filename result = meta_filename meta)
              ranked results.
Proof.
  induction ranked as [|item ranked IH]; intros Hids results0.
  - exists []. cbn. rewrite app_nil_r. split; [reflexivity | constructor].
  - destruct (dict_get_of_key _ _ (Hids item (or_introl eq_refl))) as (meta & Hmeta).
    cbn [fold_left]. rewrite Hmeta.
    destruct (IH (fun i Hi => Hids i (or_intror Hi))
                 (results0 ++ [{| result_title := meta_title meta;
                                  result_filename := meta_filename meta;
                                  result_score := snd item |}]))
      as (results & Hfold & Hall).
    eexists (_ :: results). rewrite Hfold, <- app_assoc. split; [reflexivity|].
    constructor; [|exact Hall]. cbn. split; [reflexivity|].
    exists meta. split; [|auto].
    apply (dict_get_in Z.eqb Z.eqb_eq). assumption.
Qed.

Lemma search_ids_have_records (docs : list (string * string * string))
    (self : CampusSearchEngine) (query : string) (prefix : bool) :
  ingest_all docs = Some self ->
  forall item, In item (_search self query prefix) -> In (fst item) (map fst (documents self)).
Proof.
  intros Hrun item Hin.
  destruct (ingest_all_spec docs) as (self1 & Hrun1 & _ & Hpost & _).
  rewrite Hrun in Hrun1. injection Hrun1 as <-.
  destruct (ingest_all_documents docs Hrun) as [Hdocs _].
  pose proof (search_spec self query prefix) as Hs. cbv zeta in Hs. rewrite Hs in Hin.
  apply (Permutation_in _ (sort_desc_perm _ _)) in Hin.
  apply in_map_iff in Hin. destruct Hin as (d & <- & Hd). cbn [fst].
  apply (proj1 (first_seen_In Z.eqb Z.eqb_eq _ _)) in Hd.
  apply in_map_iff in Hd. destruct Hd as (p & <- & Hp).
  apply in_flat_map in Hp. destruct Hp as (t & _ & Hp). rewrite Hpost in Hp.
  destruct (expected_postings_in _ _ _ Hp) as (doc & Hdoc & Hid & _).
  rewrite Hdocs, expected_documents_ids, Hid. apply in_map. assumption.
Qed.

(** X16.  After any sequence of ingestions the route [/search] shows every
    ranked document: its result list has one entry per pair of the ranking,
    in the same order, with the score of the pair and the title and file
    name recorded for that document; the lookup in the document table never
    misses. *)
Theorem search_route_shows_every_ranked_document
    (docs : list (string * string * string)) (query : string) (prefix use_filename : bool) :
  exists self,
    ingest_all docs = Some self /\
    let ranked :=
      if use_filename then filename_search self query prefix
      else if prefix then prefix_search self query else keyword_search self query in
    Forall2 (fun item result =>
               result_score result = snd item /\
               exists meta,
                 In (fst item, meta) (documents self) /\
                 result_title result = meta_title meta /\
                 result_filename result = meta_filename meta)
            ranked (search_route self query prefix use_filename).
Proof.
  destruct (ingest_all_spec docs) as (self & Hrun & _).
  exists self. split; [exact Hrun|]. cbv zeta. unfold search_route.
  match goal with
  | |- Forall2 _ ?r _ => set (ranked := r)
  end.
  destruct (@route_loop (documents self) ranked) with (results0 := @nil SearchResult)
    as (results & Hfold & Hall).
  - intros item Hin. unfold ranked in Hin.
    destruct use_filename.
    + rewrite filename_search_as_filter in Hin.
      destruct (Str.is_empty _); [contradiction|].
      apply in_map_iff in Hin. destruct Hin as (it & <- & Hit).
      apply filter_In in Hit. cbn [fst]. apply in_map. tauto.
    + destruct prefix; eapply search_ids_have_records; eauto.
  - rewrite Hfold. exact Hall.
Qed.

(** ** [allowed_file] *)

Lemma contains_dot_cons (ch : ascii) (s : string) :
  Str.contains (String ch s) "." = Ascii.eqb ch "."%char || Str.contains s ".".
Proof. cbn [Str.contains Str.startswith]. rewrite andb_true_r. reflexivity. Qed.

Lemma rsplit_dot_none (s : string) :
  rsplit_dot s = None <-> Str.contains s "." = false.
Proof.
  induction s as [|ch s IH]; [cbn; tauto|].
  rewrite contains_dot_cons. cbn [rsplit_dot].
  destruct (rsplit_dot s) as [[before after]|].
  - split; [discriminate|]. intros H. apply orb_false_iff in H.
    destruct H as [_ H]. apply IH in H. discriminate.
  - rewrite (proj1 IH eq_refl), orb_false_r.
    destruct (Ascii.eqb ch "."%char); split; congruence.
Qed.

(** [rsplit_dot] cuts at the last dot. *)
Lemma rsplit_dot_spec (s before after : string) :
  rsplit_dot s = Some (before, after)
  <-> s = String.append before (String "."%char after) /\ Str.contains after "." = false.
Proof.
  revert before. induction s as [|ch s IH]; intros before.
  - cbn. split; [discriminate|]. intros [H _]. destruct before; discriminate.
  - cbn [rsplit_dot]. destruct (rsplit_dot s) as [[b a]|] eqn:E.
    + split.
      * intros [= <- <-]. destruct (proj1 (IH b) eq_refl) as [-> Ha].
        split; [reflexivity | assumption].
      * intros [Hs Ha]. destruct before as [|c before'].
        -- cbn in Hs. injection Hs as -> ->.
           apply rsplit_dot_none in Ha. congruence.
        -- cbn in Hs. injection Hs as -> ->.
           assert (E' : Some (b, a) = Some (before', after)).
           { apply IH. split; [reflexivity | assumption]. }
           injection E' as -> ->. reflexivity.
    + destruct (Ascii.eqb_spec ch "."%char) as [->|Hne].
      * split.
        -- intros [= <- <-]. split; [reflexivity|]. apply rsplit_dot_none. assumption.
        -- intros [Hs Ha]. destruct before as [|c before'].
           ++ cbn in Hs. injection Hs as ->. reflexivity.
           ++ cbn in Hs. injection Hs as <- ->.
              apply rsplit_dot_none in E.
              assert (Hc : Str.contains (String.append before' (String "."%char after)) "."
                           = true).
              { apply contains_spec. exists before', after. reflexivity. }
              congruence.
      * split; [discriminate|]. intros [Hs Ha]. destruct before as [|c before'].
        -- cbn in Hs. injection Hs as -> _. contradiction.
        -- cbn in Hs. injection Hs as _ ->.
           apply rsplit_dot_none in E.
           assert (Hc : Str.contains (String.append before' (String "."%char after)) "."
                        = true).
           { apply contains_spec. exists before', after. reflexivity. }
           congruence.
Qed.

(** X17.  [allowed_file] accepts a file name exactly when it has a dot and
    what follows its last dot is "pdf" or "txt" in any letter case; a name
    without a dot, or with nothing or anything else after the last dot, is
    refused. *)
Theorem allowed_file_accepts_pdf_and_txt (filename : string) :
  allowed_file filename = true
  <-> exists stem ext,
        filename = String.append stem (String "."%char ext) /\
        Str.contains ext "." = false /\
        (Str.lower ext = "pdf" \/ Str.lower ext = "txt").
Proof.
  unfold allowed_file. split.
  - destruct (Str.contains filename "."); [|discriminate]. cbn [negb].
    destruct (rsplit_dot filename) as [[stem ext]|] eqn:E; [|discriminate].
    apply rsplit_dot_spec in E. destruct E as [-> Hext].
    cbv zeta. unfold ALLOWED_EXTENSIONS. cbn [existsb]. rewrite orb_false_r.
    intros H. exists stem, ext. split; [reflexivity|]. split; [assumption|].
    apply orb_true_iff in H. destruct H as [H | H]; apply String.eqb_eq in H; auto.
  - intros (stem & ext & -> & Hext & Hlower).
    assert (Hc : Str.contains (String.append stem (String "."%char ext)) "." = true).
    { apply contains_spec. exists stem, ext. reflexivity. }
    rewrite Hc. cbn [negb].
    rewrite (proj2 (rsplit_dot_spec _ stem ext) (conj eq_refl Hext)).
    cbv zeta. unfold ALLOWED_EXTENSIONS. cbn [existsb].
    destruct Hlower as [-> | ->]; reflexivity.
Qed.

(** ** The route [/autocomplete] *)









(** ** Prefix search in terms of the documents *)

(** The trie of the engine is the trie of the words ingestion inserted. *)
Lemma ingest_from_trie (docs : list (string * string * string)) :
  forall self,
    engine_ok self ->
    exists self',
      ingest_from self docs = Some self' /\
      trie self'
      = fold_left Trie.insert (inserted_words (accepted_from (doc_counter self) docs))
          (trie self).
Proof.
  induction docs as [|[[title content] filename] docs IH]; intros self Hok.
  - exists self. split; reflexivity.
  - rewrite ingest_from_cons, accepted_from_cons. cbn [fst snd].
    destruct (tokenize content) as [|token tokens] eqn:E.
    + rewrite (add_document_rejected self title content filename E). apply IH. assumption.
    + destruct (@add_document_spec self title content filename Hok)
        as (self1 & Hadd & Hok1 & _ & Htrie1 & Hcnt1 & _).
      { rewrite E. discriminate. }
      rewrite E in Htrie1. rewrite Hadd.
      destruct (IH self1 Hok1) as (self' & Hrun & Htrie').
      exists self'. split; [exact Hrun|].
      rewrite Htrie', Htrie1, Hcnt1. unfold inserted_words. cbn [flat_map snd].
      rewrite fold_left_app. reflexivity.
Qed.

Lemma ingest_all_trie (docs : list (string * string * string)) (self : CampusSearchEngine) :
  ingest_all docs = Some self ->
  trie self = trie_of (inserted_words (accepted_from 0 docs)).
Proof.
  intros Hrun. destruct (ingest_from_trie docs engine_ok_init) as (self1 & Hrun1 & Htrie).
  unfold ingest_all in Hrun. rewrite Hrun in Hrun1. injection Hrun1 as <-.
  exact Htrie.
Qed.

Lemma inserted_words_in (accepted : list (Z * list string)) (word : string) :
  In word (inserted_words accepted)
  <-> exists id tokens, In (id, tokens) accepted /\ In word tokens.
Proof.
  unfold inserted_words. rewrite in_flat_map. split.
  - intros ([id tokens] & Hdoc & Hw). cbn [snd] in Hw.
    apply (proj1 (first_seen_In String.eqb String.eqb_eq _ _)) in Hw. eauto.
  - intros (id & tokens & Hdoc & Hw). exists (id, tokens). split; [assumption|].
    cbn [snd]. apply (proj2 (first_seen_In String.eqb String.eqb_eq _ _)). assumption.
Qed.

(** The pairs a search returns after a sequence of ingestions, for the
    candidate terms of either mode. *)
Lemma search_counts (docs : list (string * string * string)) (self : CampusSearchEngine)
    (query : string) (prefix : bool) :
  ingest_all docs = Some self ->
  forall d score,
    In (d, score) (_search self query prefix)
    <-> exists tokens,
          In (d, tokens) (accepted_from 0 docs) /\
          score = total_occurrences (candidate_terms self (tokenize query) prefix) tokens /\
          1 <= score.
Proof.
  intros Hrun d score.
  destruct (ingest_all_spec docs) as (self1 & Hrun1 & _ & Hpost & _).
  rewrite Hrun in Hrun1. injection Hrun1 as <-.
  pose proof (search_spec self query prefix) as Hs. cbv zeta in Hs. rewrite Hs. clear Hs.
  rewrite (flat_map_ext _ _ Hpost).
  set (terms := candidate_terms self (tokenize query) prefix).
  set (accepted := accepted_from 0 docs).
  set (stream := flat_map (expected_postings accepted) terms).
  assert (Hsorted : StronglySorted (fun a b => fst a < fst b) accepted)
    by apply accepted_from_ids.
  split.
  - intros Hin. apply (Permutation_in _ (sort_desc_perm _ _)) in Hin.
    apply in_map_iff in Hin. destruct Hin as (d' & [= -> <-] & Hd).
    apply (proj1 (first_seen_In Z.eqb Z.eqb_eq _ _)) in Hd.
    apply stream_ids in Hd. destruct Hd as (tokens & t & Hin & Ht & Hm).
    exists tokens. split; [assumption|].
    unfold stream. rewrite (posting_weight_terms terms Hsorted _ _ Hin).
    split; [reflexivity|]. apply total_occurrences_positive. eauto.
  - intros (tokens & Hin & -> & Hpos).
    apply (Permutation_in _ (Permutation_sym (sort_desc_perm _ _))).
    apply in_map_iff. exists d. split.
    + unfold stream. rewrite (posting_weight_terms terms Hsorted _ _ Hin). reflexivity.
    + apply (proj2 (first_seen_In Z.eqb Z.eqb_eq _ _)). apply stream_ids.
      apply total_occurrences_positive in Hpos. destruct Hpos as (t & Ht & Hm).
      exists tokens, t. auto.
Qed.

(** X19.  After any sequence of ingestions, every candidate term of
    [prefix_search] is a token of an accepted document and starts with a
    token of the query; a document is returned exactly when its content
    holds at least one candidate, with the number of occurrences of all
    candidates in its content as score, a candidate that is listed several
    times counted each time. *)
Theorem prefix_search_counts_candidate_occurrences
    (docs : list (string * string * string)) (query : string) :
  exists self,
    ingest_all docs = Some self /\
    let candidates :=
      flat_map (fun token => Trie.autocomplete (trie self) token 25) (tokenize query) in
    (forall c,
        In c candidates ->
        exists token id tokens,
          In token (tokenize query) /\ Str.startswith c token = true /\
          In (id, tokens) (accepted_from 0 docs) /\ In c tokens) /\
    (forall d score,
        In (d, score) (prefix_search self query)
        <-> exists tokens,
              In (d, tokens) (accepted_from 0 docs) /\
              score = total_occurrences candidates tokens /\
              1 <= score).
Proof.
  destruct (ingest_all_spec docs) as (self & Hrun & _).
  exists self. split; [exact Hrun|]. cbv zeta. split.
  - intros c Hc. apply in_flat_map in Hc. destruct Hc as (token & Htoken & Hc).
    rewrite (ingest_all_trie docs Hrun) in Hc.
    destruct (autocomplete_ranked (inserted_words (accepted_from 0 docs)) token 25)
      as (ranked & n & Hresult & _ & _ & _ & Hranked).
    rewrite Hresult in Hc. apply in_map_iff in Hc. destruct Hc as ([c' f] & <- & Hc).
    apply in_firstn in Hc. apply Hranked in Hc. destruct Hc as (Hin & Hstarts & _).
    apply inserted_words_in in Hin. destruct Hin as (id & tokens & Hdoc & Hw).
    exists token, id, tokens. cbn. auto.
  - intros d score. unfold prefix_search.
    rewrite (search_counts docs query true Hrun), candidate_terms_prefix. reflexivity.
Qed.

Lemma total_occurrences_app (terms1 terms2 tokens : list string) :
  total_occurrences (terms1 ++ terms2) tokens
  = total_occurrences terms1 tokens + total_occurrences terms2 tokens.
Proof.
  unfold total_occurrences. induction terms1 as [|t terms1 IH]; cbn; [reflexivity|].
  cbn in IH. rewrite IH. lia.
Qed.

Lemma total_occurrences_nonneg (terms tokens : list string) :
  0 <= total_occurrences terms tokens.
Proof.
  unfold total_occurrences. induction terms as [|t terms IH]; cbn; [lia|].
  pose proof (occurrences_nonneg t tokens). lia.
Qed.

Lemma total_occurrences_member (terms tokens : list string) (t : string) :
  In t terms -> occurrences t tokens <= total_occurrences terms tokens.
Proof.
  induction terms as [|x terms IH]; [intros []|].
  change (total_occurrences (x :: terms) tokens)
    with (occurrences x tokens + total_occurrences terms tokens).
  pose proof (occurrences_nonneg x tokens).
  pose proof (total_occurrences_nonneg terms tokens).
  intros [-> | Hin]; [lia|]. specialize (IH Hin). lia.
Qed.

Lemma startswith_refl (s : string) : Str.startswith s s = true.
Proof. apply startswith_spec. exists EmptyString. rewrite append_empty_r. reflexivity. Qed.

(** X20.  Prefix search finds what keyword search finds, as long as
    [limit=25] cuts no expansion: if for every query token at most 25
    insertions into the trie were of words starting with it, then every
    document [keyword_search] returns is returned by [prefix_search] too,
    with a score at least as high. *)
Theorem prefix_search_covers_keyword_search
    (docs : list (string * string * string)) (self : CampusSearchEngine)
    (query : string) (d score : Z) :
  ingest_all docs = Some self ->
  (forall token,
      In token (tokenize query) ->
      (length (filter (fun w => Str.startswith w token)
                      (inserted_words (accepted_from 0 docs))) <= 25)%nat) ->
  In (d, score) (keyword_search self query) ->
  exists score', In (d, score') (prefix_search self query) /\ score <= score'.
Proof.
  intros Hrun Hroom Hin.
  unfold keyword_search in Hin. unfold prefix_search.
  apply (search_counts docs query false Hrun) in Hin.
  destruct Hin as (tokens & Hdoc & -> & Hpos).
  rewrite candidate_terms_keyword in *.
  exists (total_occurrences (candidate_terms self (tokenize query) true) tokens).
  assert (Hle : total_occurrences (tokenize query) tokens
                <= total_occurrences (candidate_terms self (tokenize query) true) tokens).
  { rewrite candidate_terms_prefix. clear Hpos.
    revert Hroom. generalize (tokenize query) as terms.
    induction terms as [|t terms IH]; intros Hroom; [cbn; lia|].
    cbn [flat_map]. rewrite total_occurrences_app.
    change (total_occurrences (t :: terms) tokens)
      with (occurrences t tokens + total_occurrences terms tokens).
    assert (Ht : occurrences t tokens
                 <= total_occurrences (Trie.autocomplete (trie self) t 25) tokens).
    { destruct (memb String.eqb t tokens) eqn:Em.
      - apply total_occurrences_member.
        rewrite (ingest_all_trie docs Hrun). apply autocomplete_complete.
        + specialize (Hroom t (or_introl eq_refl)). lia.
        + apply inserted_words_in. exists d, tokens. split; [assumption|].
          apply (memb_In String.eqb String.eqb_eq). assumption.
        + apply startswith_refl.
      - rewrite occurrences_absent by assumption. apply total_occurrences_nonneg. }
    assert (IH' : total_occurrences terms tokens
                  <= total_occurrences
                       (flat_map (fun token => Trie.autocomplete (trie self) token 25) terms)
                       tokens).
    { apply IH. intros token Htoken. apply Hroom. right. assumption. }
    lia. }
  split; [|exact Hle].
  apply (search_counts docs query true Hrun).
  exists tokens. split; [assumption|]. split; [reflexivity | lia].
Qed.

Lemma prefix_search_covers_keyword_search_witness :
  exists score',
    In (1, score')
       (prefix_search
          (match ingest_all [("A", "car cart car", "a.txt"); ("B", "carbon", "b.txt")] with
           | Some self => self
           | None => init_engine
           end) "car") /\
    2 <= score'.
Proof.
  apply (@prefix_search_covers_keyword_search
           [("A", "car cart car", "a.txt"); ("B", "carbon", "b.txt")]).
  - vm_compute. reflexivity.
  - intros token Htoken. vm_compute in Htoken. destruct Htoken as [<- | []].
    vm_compute. lia.
  - vm_compute. left. reflexivity.
Defined.
